(** * svtkIncrementalOctreePointLocator: a shallow embedding

    The locator of [svtkIncrementalOctreePointLocator.cxx] is embedded
    function by function.  The C++ [double] is idealised as an exact
    rational extended with one top element that stands for
    [SVTK_DOUBLE_MAX] (and for the overflow value the code obtains by
    scaling it); rounding is not modelled.  [size_t] counters are
    integers reduced modulo [2^64]; pointers to octree nodes are paths
    from the root. *)

From Stdlib Require Import QArith Qminmax Qabs Lqa ZArith List Lia Bool.
From Stdlib Require Import Permutation Sorted.
Import ListNotations.

Open Scope Q_scope.

(** ** Doubles *)

Inductive double : Type :=
| Fin (q : Q)
| SVTK_DOUBLE_MAX.

Definition Qltb (a b : Q) : bool :=
  match a ?= b with Lt => true | _ => false end.

Definition Qleb (a b : Q) : bool :=
  match a ?= b with Gt => false | _ => true end.

Definition Qeqb (a b : Q) : bool :=
  match a ?= b with Eq => true | _ => false end.

(** [a < b], [a <= b] and [a == b] on doubles. *)
Definition dlt (a b : double) : bool :=
  match a, b with
  | Fin x, Fin y => Qltb x y
  | Fin _, SVTK_DOUBLE_MAX => true
  | SVTK_DOUBLE_MAX, _ => false
  end.

Definition dle (a b : double) : bool :=
  match a, b with
  | Fin x, Fin y => Qleb x y
  | _, SVTK_DOUBLE_MAX => true
  | SVTK_DOUBLE_MAX, Fin _ => false
  end.

Definition deq (a b : double) : bool :=
  match a, b with
  | Fin x, Fin y => Qeqb x y
  | SVTK_DOUBLE_MAX, SVTK_DOUBLE_MAX => true
  | _, _ => false
  end.

(** [a * c] for a finite positive factor [c], and [a + b]: the top
    element absorbs. *)
Definition dscale (a : double) (c : Q) : double :=
  match a with Fin x => Fin (x * c) | SVTK_DOUBLE_MAX => SVTK_DOUBLE_MAX end.

Definition dadd (a b : double) : double :=
  match a, b with
  | Fin x, Fin y => Fin (x + y)
  | _, _ => SVTK_DOUBLE_MAX
  end.

(** ** [size_t] *)

Definition size_t_max : Z := (2 ^ 64)%Z.

Definition to_size_t (z : Z) : Z := (z mod size_t_max)%Z.

(** ** The bounded sorter of [FindClosestNPoints] *)

Module Sorter.

(** [std::map<double, std::list<svtkIdType> >]: the entries in ascending
    key order, each with its ids in push_back order. *)
Definition dist_map : Type := list (Q * list Z).

Record SortPoints : Type := mkSortPoints {
  NumRequested : Z;
  NumberPoints : Z;
  LargestDist2 : double;
  dist2ToIds : dist_map
}.

Definition New (N : Z) : SortPoints :=
  {| NumRequested := to_size_t N;
     NumberPoints := 0;
     LargestDist2 := SVTK_DOUBLE_MAX;
     dist2ToIds := [] |}.

(** [find(dist2)] followed by either [operator[]] with a fresh one-element
    list or [push_back] on the entry that was found. *)
Fixpoint map_add (m : dist_map) (dist2 : Q) (pntId : Z) : dist_map :=
  match m with
  | [] => [(dist2, [pntId])]
  | (k, ids) :: m' =>
      match dist2 ?= k with
      | Eq => (k, ids ++ [pntId]) :: m'
      | Lt => (dist2, [pntId]) :: m
      | Gt => (k, ids) :: map_add m' dist2 pntId
      end
  end.

(** [it = end(); --it]. *)
Definition last_entry (m : dist_map) : option (Q * list Z) :=
  match m with [] => None | e :: m' => Some (last m' e) end.

Definition total_ids (m : dist_map) : Z :=
  fold_right (fun e acc => (Z.of_nat (length (snd e)) + acc)%Z) 0%Z m.

Definition InsertPoint (dist2 : Q) (pntId : Z) (s : SortPoints) : SortPoints :=
  if dle (Fin dist2) (LargestDist2 s) || (NumberPoints s <? NumRequested s)%Z
  then
    let n1 := to_size_t (NumberPoints s + 1) in
    let m1 := map_add (dist2ToIds s) dist2 pntId in
    if (NumRequested s <? n1)%Z then
      match last_entry m1 with
      | Some (_, ids) =>
          let rest := to_size_t (n1 - Z.of_nat (length ids)) in
          if (NumRequested s <? rest)%Z then
            {| NumRequested := NumRequested s;
               NumberPoints := rest;
               (* [it2 = it; --it2]: the entry before the last one; with a
                  single entry the decrement is undefined, a case the
                  counter excludes (see [erase_has_previous]) *)
               LargestDist2 :=
                 match last_entry (removelast m1) with
                 | Some (k2, _) => Fin k2
                 | None => LargestDist2 s
                 end;
               dist2ToIds := removelast m1 |}
          else
            {| NumRequested := NumRequested s; NumberPoints := n1;
               LargestDist2 := LargestDist2 s; dist2ToIds := m1 |}
      | None =>
          {| NumRequested := NumRequested s; NumberPoints := n1;
             LargestDist2 := LargestDist2 s; dist2ToIds := m1 |}
      end
    else
      {| NumRequested := NumRequested s; NumberPoints := n1;
         LargestDist2 := LargestDist2 s; dist2ToIds := m1 |}
  else s.

(** The exported ids: the first [min NumRequested NumberPoints] ids in
    ascending key order, each entry in its list order. *)
Definition GetSortedIds (s : SortPoints) : list Z :=
  let numIds :=
    if (NumRequested s <? NumberPoints s)%Z then NumRequested s
    else NumberPoints s in
  firstn (Z.to_nat numIds) (concat (map snd (dist2ToIds s))).

Definition GetLargestDist2 (s : SortPoints) : double := LargestDist2 s.

(** Keys strictly ascending. *)
Fixpoint keys_sorted (m : dist_map) : Prop :=
  match m with
  | [] => True
  | (k, _) :: m' =>
      match m' with
      | [] => True
      | (k', _) :: _ => k < k'
      end /\ keys_sorted m'
  end.

(** The representation invariant of the sorter. *)
Record wf (s : SortPoints) : Prop := mkwf {
  wf_req : (0 <= NumRequested s < size_t_max)%Z;
  wf_count : NumberPoints s = total_ids (dist2ToIds s);
  wf_room : (NumberPoints s + 1 < size_t_max)%Z;
  wf_sorted : keys_sorted (dist2ToIds s);
  wf_nonempty : Forall (fun e => snd e <> []) (dist2ToIds s)
}.

(** The test that lets a pair in. *)
Definition accepts (s : SortPoints) (dist2 : Q) : bool :=
  dle (Fin dist2) (LargestDist2 s) || (NumberPoints s <? NumRequested s)%Z.

(** The size of the entry at the largest key. *)
Definition last_size (m : dist_map) : Z :=
  match last_entry m with
  | Some (_, ids) => Z.of_nat (length ids)
  | None => 0%Z
  end.

(** The insertion erased the entry at the largest key and moved
    [LargestDist2] to the largest key that is left. *)
Definition drops_last (s : SortPoints) (dist2 : Q) (pntId : Z) : Prop :=
  let m1 := map_add (dist2ToIds s) dist2 pntId in
  dist2ToIds (InsertPoint dist2 pntId s) = removelast m1 /\
  exists k ids, last_entry (removelast m1) = Some (k, ids) /\
                LargestDist2 (InsertPoint dist2 pntId s) = Fin k.

(** The insertion kept every entry, the new pair included. *)
Definition keeps_all (s : SortPoints) (dist2 : Q) (pntId : Z) : Prop :=
  dist2ToIds (InsertPoint dist2 pntId s)
  = map_add (dist2ToIds s) dist2 pntId /\
  NumberPoints (InsertPoint dist2 pntId s) = (NumberPoints s + 1)%Z /\
  LargestDist2 (InsertPoint dist2 pntId s) = LargestDist2 s.

(** Every key of the map is below [d]. *)
Definition keys_below (m : dist_map) (d : Q) : Prop :=
  Forall (fun e => fst e < d) m.

(** Every id of the map sits under its own key. *)
Definition keyed (f : Z -> Q) (m : dist_map) : Prop :=
  forall k ids id, In (k, ids) m -> In id ids -> f id == k.

(** The pairs of the ids [V] under the key [f] handed to the sorter in
    order. *)
Definition insert_all (f : Z -> Q) (V : list Z) (s : SortPoints)
  : SortPoints :=
  fold_left (fun s id => InsertPoint (f id) id s) V s.

(** The map that an unbounded sorter would hold: the ids [V] grouped by
    their key, the keys ascending, each group in the order of [V]. *)
Definition group (f : Z -> Q) (V : list Z) : dist_map :=
  fold_left (fun m id => map_add m (f id) id) V [].

(** The ids of a map, entry by entry. *)
Definition flat (m : dist_map) : list Z := concat (map snd m).

(** The state of a sorter of capacity [K] that has been handed [V]: its
    map is an initial part of the grouping of [V]; it is all of it
    until an entry is erased, and from then on [LargestDist2] is the
    key of its last entry and more than [K] ids are held. *)
Record holds (f : Z -> Q) (K : Z) (V : list Z) (s : SortPoints)
  : Prop := mk_holds {
  holds_req : NumRequested s = K;
  holds_count : NumberPoints s = total_ids (dist2ToIds s);
  holds_prefix : exists rest, group f V = dist2ToIds s ++ rest;
  holds_all : LargestDist2 s = SVTK_DOUBLE_MAX ->
              dist2ToIds s = group f V;
  holds_cut : forall L, LargestDist2 s = Fin L ->
              (K < NumberPoints s)%Z /\
              exists ids, last_entry (dist2ToIds s) = Some (L, ids)
}.

(** The ids of [ids] whose key is [d], in their order. *)
Definition at_key (f : Z -> Q) (d : Q) (ids : list Z) : list Z :=
  filter (fun id => Qeqb (f id) d) ids.

End Sorter.

(** ** Points and boxes *)

(** [double[3]]. *)
Definition point : Type := (Q * Q * Q)%type.

Definition coord (p : point) (i : nat) : Q :=
  match p, i with
  | (x, _, _), O => x
  | (_, y, _), S O => y
  | (_, _, z), _ => z
  end.

Definition set_coord (p : point) (i : nat) (v : Q) : point :=
  match p, i with
  | (_, y, z), O => (v, y, z)
  | (x, _, z), S O => (x, v, z)
  | (x, y, _), _ => (x, y, v)
  end.

Definition axes : list nat := [0%nat; 1%nat; 2%nat].

Definition sqr (a : Q) : Q := a * a.

(** [svtkMath::Distance2BetweenPoints]. *)
Definition Distance2BetweenPoints (a b : point) : Q :=
  sqr (coord a 0 - coord b 0) + sqr (coord a 1 - coord b 1)
  + sqr (coord a 2 - coord b 2).

(** [svtkPoints]: the coordinates by point id.  [GetPoint] of an id that
    was never stored reads unspecified memory in the source; the ids of a
    well-formed octree are all in range. *)
Definition points : Type := list point.

Definition GetPoint (pts : points) (id : Z) : point :=
  nth (Z.to_nat id) pts (0, 0, 0).

(** ** Octree nodes

    The class [svtkIncrementalOctreeNode] is declared and defined outside
    the translation unit embedded here; its state and the methods the
    locator calls are modelled from the specification's data model
    (section 3) and node interface (section 4.1). *)

(** Modelled from the spec: the attributes of
    [svtkIncrementalOctreeNode], which is missing: box, data box, point
    count, the id list of a leaf (null until the first point arrives and
    after a subdivision) and the eight children of an internal node
    (none for a leaf). *)
#[local] Unset Elimination Schemes.
Inductive node : Type := mkNode {
  MinBounds : point;
  MaxBounds : point;
  MinDataBounds : point;
  MaxDataBounds : point;
  NumberOfPoints : Z;
  PointIdSet : option (list Z);
  Children : list node
}.
#[local] Set Elimination Schemes.

(** Modelled from the spec: [svtkIncrementalOctreeNode::IsLeaf], missing;
    a leaf owns no children. *)
Definition IsLeaf (n : node) : bool :=
  match Children n with [] => true | _ => false end.

(** Modelled from the spec: [svtkIncrementalOctreeNode::GetBounds],
    missing; the six bounds in the order xmin, xmax, ymin, ymax, zmin,
    zmax. *)
Definition NodeGetBounds (n : node) : list Q :=
  [coord (MinBounds n) 0; coord (MaxBounds n) 0;
   coord (MinBounds n) 1; coord (MaxBounds n) 1;
   coord (MinBounds n) 2; coord (MaxBounds n) 2].

(** Modelled from the spec: the cached mid point of a node, its box
    centre. *)
Definition MidPoint (n : node) : point :=
  ((coord (MinBounds n) 0 + coord (MaxBounds n) 0) * (1 # 2),
   (coord (MinBounds n) 1 + coord (MaxBounds n) 1) * (1 # 2),
   (coord (MinBounds n) 2 + coord (MaxBounds n) 2) * (1 # 2)).

(** The half-open box test [lo < p <= hi] on every axis. *)
Definition in_half_open (lo hi p : point) : bool :=
  forallb (fun i => Qltb (coord lo i) (coord p i)
                    && Qleb (coord p i) (coord hi i)) axes.

(** Modelled from the spec: [svtkIncrementalOctreeNode::ContainsPoint],
    missing; box test, half-open on [min], closed on [max]. *)
Definition ContainsPoint (n : node) (p : point) : bool :=
  in_half_open (MinBounds n) (MaxBounds n) p.

(** Modelled from the spec: [ContainsPointByData], missing; the same
    test against the data box. *)
Definition ContainsPointByData (n : node) (p : point) : bool :=
  in_half_open (MinDataBounds n) (MaxDataBounds n) p.

(** Modelled from the spec: [GetChildIndex], missing; the 3-bit mask
    [(x > mid.x) << 0 | (y > mid.y) << 1 | (z > mid.z) << 2]. *)
Definition GetChildIndex (n : node) (p : point) : nat :=
  let m := MidPoint n in
  ((if Qltb (coord m 0) (coord p 0) then 1 else 0)
   + (if Qltb (coord m 1) (coord p 1) then 2 else 0)
   + (if Qltb (coord m 2) (coord p 2) then 4 else 0))%nat.

(** One axis of the distance from [p] to the box [lo, hi]; a face that
    coincides with the face [rlo] or [rhi] of the root's box does not
    contribute. *)
Definition axis_gap (lo hi rlo rhi p : Q) : Q :=
  if Qltb p lo then (if Qeqb lo rlo then 0 else lo - p)
  else if Qltb hi p then (if Qeqb hi rhi then 0 else p - hi)
  else 0.

(** Modelled from the spec: [GetDistance2ToBoundary(point, root,
    checkData)], missing.  With the data box requested and no point
    under the node the result is the sentinel; otherwise it is the
    squared Euclidean distance from the point to the chosen box, zero
    for a point inside it, where a face shared with the root's box of
    the same kind adds nothing. *)
Definition GetDistance2ToBoundary
  (n : node) (p : point) (root : node) (checkData : bool) : double :=
  if checkData && (NumberOfPoints n =? 0)%Z then SVTK_DOUBLE_MAX
  else
    let lo := if checkData then MinDataBounds n else MinBounds n in
    let hi := if checkData then MaxDataBounds n else MaxBounds n in
    let rlo := if checkData then MinDataBounds root else MinBounds root in
    let rhi := if checkData then MaxDataBounds root else MaxBounds root in
    let g i := axis_gap (coord lo i) (coord hi i)
                 (coord rlo i) (coord rhi i) (coord p i) in
    Fin (sqr (g 0%nat) + sqr (g 1%nat) + sqr (g 2%nat)).

Definition clamp (lo hi p : Q) : Q :=
  if Qltb p lo then lo else if Qltb hi p then hi else p.

(** Modelled from the spec: the closest point that
    [GetDistance2ToBoundary(point, closest, root, checkData)] stores in
    [closest], missing: the projection of the point onto the chosen
    box. *)
Definition ClosestPointOnBoundary
  (n : node) (p : point) (checkData : bool) : point :=
  let useData := checkData && negb (NumberOfPoints n =? 0)%Z in
  let lo := if useData then MinDataBounds n else MinBounds n in
  let hi := if useData then MaxDataBounds n else MaxBounds n in
  (clamp (coord lo 0) (coord hi 0) (coord p 0),
   clamp (coord lo 1) (coord hi 1) (coord p 1),
   clamp (coord lo 2) (coord hi 2) (coord p 2)).

Definition dmin (a b : double) : double := if dlt b a then b else a.

(** The distance from [p] to the plane of one face, when the face is not
    on the root's boundary. *)
Definition inner_face (face rface p : Q) : double :=
  if Qeqb face rface then SVTK_DOUBLE_MAX else Fin (Qabs (p - face)).

(** Modelled from the spec: [GetDistance2ToInnerBoundary(point, root)],
    missing; the squared distance from the point to the nearest face of
    the node's box that is not on the root boundary, the sentinel when
    every face is on it. *)
Definition GetDistance2ToInnerBoundary
  (n : node) (p : point) (root : node) : double :=
  let f i :=
    dmin (inner_face (coord (MinBounds n) i) (coord (MinBounds root) i)
            (coord p i))
         (inner_face (coord (MaxBounds n) i) (coord (MaxBounds root) i)
            (coord p i)) in
  match dmin (f 0%nat) (dmin (f 1%nat) (f 2%nat)) with
  | Fin d => Fin (sqr d)
  | SVTK_DOUBLE_MAX => SVTK_DOUBLE_MAX
  end.

(** Modelled from the spec: [ExportAllPointIdsByInsertion] and
    [ExportAllPointIdsByDirectSet], missing; every id beneath the node
    in depth-first order, the children from 0 to 7. *)
Fixpoint ExportAllPointIds (n : node) : list Z :=
  match n with
  | mkNode _ _ _ _ _ ids cs =>
      match cs with
      | [] => match ids with Some l => l | None => [] end
      | _ => flat_map ExportAllPointIds cs
      end
  end.

(** A pointer to a node: the child indices from the root down. *)
Definition path : Type := list nat.

Definition node_ref : Type := (path * node)%type.

Definition path_eqb (a b : path) : bool :=
  if list_eq_dec Nat.eq_dec a b then true else false.

(** Modelled from the spec: [GetChild(i)], missing; [None] stands for
    the read of a child a leaf does not have. *)
Definition GetChild (r : node_ref) (i : nat) : option node_ref :=
  match nth_error (Children (snd r)) i with
  | Some c => Some (fst r ++ [i], c)
  | None => None
  end.

(** The children with their indices, in array order. *)
Definition child_refs (r : node_ref) : list node_ref :=
  map (fun ic => (fst r ++ [fst ic], snd ic))
      (combine (seq 0 (length (Children (snd r)))) (Children (snd r))).

(** Modelled from the spec: [SetBounds] on a fresh node, missing; the
    box is stored and the data range starts empty (kept as the inverted
    box, which no point satisfies). *)
Definition NewNodeWithBounds (b : list Q) : node :=
  let lo := (nth 0 b 0, nth 2 b 0, nth 4 b 0) in
  let hi := (nth 1 b 0, nth 3 b 0, nth 5 b 0) in
  {| MinBounds := lo; MaxBounds := hi;
     MinDataBounds := hi; MaxDataBounds := lo;
     NumberOfPoints := 0; PointIdSet := None; Children := [] |}.

(** ** The locator *)

(** The outcome of a member function: it returns, it reads through a
    null pointer, or a loop of the model used up its iteration budget. *)
Inductive outcome (A : Type) : Type :=
| Returns (a : A)
| NullDereference
| Unfinished.
Arguments Returns {A} a.
Arguments NullDereference {A}.
Arguments Unfinished {A}.

Definition finished {A : Type} (o : option A) : outcome A :=
  match o with Some a => Returns a | None => Unfinished end.

(** The locator is driven through its insertion interface: no data set
    is attached, so [BuildLocator] reports an error and returns without
    touching the octree.  [Tolerance] is the member of the base class. *)
Record Locator : Type := mkLocator {
  FudgeFactor : Q;
  OctreeMaxDimSize : Q;
  BuildCubicOctree : bool;
  MaxPointsPerLeaf : Z;
  InsertTolerance2 : Q;
  Tolerance : Q;
  LocatorPoints : option points;
  OctreeRootNode : option node
}.

Definition NewLocator (tolerance : Q) : Locator :=
  {| FudgeFactor := 0; OctreeMaxDimSize := 0; BuildCubicOctree := false;
     MaxPointsPerLeaf := 128; InsertTolerance2 := 1 # 1000000;
     Tolerance := tolerance; LocatorPoints := None;
     OctreeRootNode := None |}.

Definition BuildLocator (l : Locator) : Locator := l.

Definition FreeSearchStructure (l : Locator) : Locator :=
  {| FudgeFactor := FudgeFactor l; OctreeMaxDimSize := OctreeMaxDimSize l;
     BuildCubicOctree := BuildCubicOctree l;
     MaxPointsPerLeaf := MaxPointsPerLeaf l;
     InsertTolerance2 := InsertTolerance2 l; Tolerance := Tolerance l;
     LocatorPoints := None; OctreeRootNode := None |}.

(** The point container of a locator whose octree exists; the pointer is
    set together with the root. *)
Definition the_points (l : Locator) : points :=
  match LocatorPoints l with Some p => p | None => [] end.

Definition GetNumberOfPoints (l : Locator) : Z :=
  match OctreeRootNode l with
  | None => 0%Z
  | Some root => NumberOfPoints root
  end.

(** [a[i] = v] on an array held as a list. *)
Fixpoint array_set (a : list Q) (i : nat) (v : Q) : list Q :=
  match a, i with
  | [], _ => []
  | _ :: a', O => v :: a'
  | x :: a', S i' => x :: array_set a' i' v
  end.

Definition array_get (a : list Q) (i : nat) : Q := nth i a 0.

Definition GetBounds (l : Locator) (bounds : list Q) : list Q :=
  match OctreeRootNode l with
  | Some root =>
      let minBounds := MinBounds root in
      let maxBounds := MaxBounds root in
      let b0 := array_set bounds 0 (coord minBounds 0) in
      let b1 := array_set b0 1 (coord maxBounds 0) in
      let b2 := array_set b1 2 (coord minBounds 1) in
      let b3 := array_set b2 3 (coord maxBounds 1) in
      let b4 := array_set b3 4 (coord minBounds 2) in
      array_set b4 5 (coord maxBounds 2)
  | None => bounds
  end.

(** *** Point insertion set-up *)

(** The first loop of [InitPointInsertion]: copy the bounds, record each
    extent and the largest one. *)
Definition init_copy_step (bounds : list Q)
  (st : list Q * list Q * Q) (i : nat) : list Q * list Q * Q :=
  let '(tmpBbox, dimDiff, maxDim) := st in
  let bbIndex := (2 * i)%nat in
  let tmpBbox := array_set tmpBbox bbIndex (array_get bounds bbIndex) in
  let tmpBbox :=
    array_set tmpBbox (bbIndex + 1) (array_get bounds (bbIndex + 1)) in
  let d := array_get tmpBbox (bbIndex + 1) - array_get tmpBbox bbIndex in
  let dimDiff := array_set dimDiff i d in
  (tmpBbox, dimDiff, if Qltb maxDim d then d else maxDim).

(** The loop under [BuildCubicOctree]. *)
Definition init_cube_step (maxDim : Q)
  (st : list Q * list Q) (i : nat) : list Q * list Q :=
  let '(tmpBbox, dimDiff) := st in
  if negb (Qeqb (array_get dimDiff i) maxDim) then
    let delta := maxDim - array_get dimDiff i in
    let tmpBbox :=
      array_set tmpBbox (2 * i)
        (array_get tmpBbox (2 * i) - (1 # 2) * delta) in
    let tmpBbox :=
      array_set tmpBbox (2 * i + 1)
        (array_get tmpBbox (2 * i + 1) + (1 # 2) * delta) in
    (tmpBbox, array_set dimDiff i maxDim)
  else st.

(** The last loop: case (1) pushes a slab axis out, case (2) pulls the
    lower bound back. *)
Definition init_fix_step (dimDiff : list Q) (minSideSize fudge : Q)
  (tmpBbox : list Q) (i : nat) : list Q :=
  if Qltb (array_get dimDiff i) minSideSize then
    let bbIndex := (2 * i)%nat in
    let tempVal := array_get tmpBbox bbIndex in
    let tmpBbox :=
      array_set tmpBbox bbIndex
        (array_get tmpBbox (bbIndex + 1) - minSideSize) in
    array_set tmpBbox (bbIndex + 1) (tempVal + minSideSize)
  else
    array_set tmpBbox (2 * i) (array_get tmpBbox (2 * i) - fudge).

(** The bounding box after the first loop and the cube adjustment,
    together with the extents [dimDiff] and the largest extent. *)
Definition init_adjusted (cubic : bool) (bounds : list Q)
  : list Q * list Q * Q :=
  let '(tmpBbox, dimDiff, maxDim) :=
    fold_left (init_copy_step bounds) axes
      (repeat 0 6, repeat 0 3, 0) in
  let '(tmpBbox, dimDiff) :=
    if cubic then fold_left (init_cube_step maxDim) axes (tmpBbox, dimDiff)
    else (tmpBbox, dimDiff) in
  (tmpBbox, dimDiff, maxDim).

(** [10e-6] and [10e-2], as the source writes them. *)
Definition fudge_ratio : Q := 1 # 100000.
Definition slab_ratio : Q := 1 # 10.

Definition init_root_box (cubic : bool) (bounds : list Q) : list Q :=
  let '(tmpBbox, dimDiff, maxDim) := init_adjusted cubic bounds in
  fold_left
    (init_fix_step dimDiff (maxDim * slab_ratio) (maxDim * fudge_ratio))
    axes tmpBbox.

(** The extent of axis [i] of a box held as six bounds. *)
Definition extent (b : list Q) (i : nat) : Q :=
  array_get b (2 * i + 1) - array_get b (2 * i).

Definition InitPointInsertion
  (l : Locator) (pts : option points) (bounds : list Q) : Locator * Z :=
  match pts with
  | None => (l, 0%Z)
  | Some p =>
      let l := FreeSearchStructure l in
      let '(_, _, maxDim) := init_adjusted (BuildCubicOctree l) bounds in
      ({| FudgeFactor := maxDim * fudge_ratio;
          OctreeMaxDimSize := maxDim;
          BuildCubicOctree := BuildCubicOctree l;
          MaxPointsPerLeaf := MaxPointsPerLeaf l;
          InsertTolerance2 := Tolerance l * Tolerance l;
          Tolerance := Tolerance l;
          LocatorPoints := Some p;
          OctreeRootNode :=
            Some (NewNodeWithBounds
                    (init_root_box (BuildCubicOctree l) bounds)) |},
       1%Z)
  end.

(** *** Leaf lookup *)

Fixpoint GetLeafContainer_from (p : path) (n : node) (pnt : point)
  {struct n} : node_ref :=
  match n with
  | mkNode _ _ _ _ _ _ cs =>
      match cs with
      | [] => (p, n)
      | _ =>
          let i := GetChildIndex n pnt in
          (fix pick (l : list node) (k : nat) {struct l} : node_ref :=
             match l, k with
             | c :: _, O => GetLeafContainer_from (p ++ [i]) c pnt
             | _ :: l', S k' => pick l' k'
             | [], _ => (p, n)
             end) cs i
      end
  end.

Definition GetLeafContainer (r : node_ref) (pnt : point) : node_ref :=
  GetLeafContainer_from (fst r) (snd r) pnt.

(** The scan of one id list: the running minimum and its id, leaving the
    loop once the minimum is zero. *)
Fixpoint scan_leaf (pts : points) (point : point) (ids : list Z)
  (dist2 : double) (pntIdx : Z) : double * Z :=
  match ids with
  | [] => (dist2, pntIdx)
  | tmpIdx :: ids' =>
      let tmpDst := Distance2BetweenPoints (GetPoint pts tmpIdx) point in
      let '(dist2, pntIdx) :=
        if dlt (Fin tmpDst) dist2 then (Fin tmpDst, tmpIdx)
        else (dist2, pntIdx) in
      if deq dist2 (Fin 0) then (dist2, pntIdx)
      else scan_leaf pts point ids' dist2 pntIdx
  end.

(** Returns the squared distance written to [*dist2] and the id. *)
Definition FindClosestPointInLeafNode
  (pts : points) (leafNode : node) (point : point) : double * Z :=
  match PointIdSet leafNode with
  | None => (SVTK_DOUBLE_MAX, (-1)%Z)
  | Some idList => scan_leaf pts point idList SVTK_DOUBLE_MAX (-1)%Z
  end.

(** *** The pruned sphere search *)

(** What [refDist2] points to: the running minimum itself, or a value of
    the caller that the search does not change. *)
Inductive ref_dist : Type :=
| RefIsMinDist2
| RefValue (d : double).

Definition read_ref (r : ref_dist) (minDist2 : double) : double :=
  match r with RefIsMinDist2 => minDist2 | RefValue d => d end.

Definition is_mask (maskNode : option path) (r : node_ref) : bool :=
  match maskNode with
  | Some m => path_eqb (fst r) m
  | None => false
  end.

(** The test that pushes a child: it is not the mask node, and its
    data is within the reference distance or its box holds the point;
    [radius2 + radius2] stands in for the distance of an empty child. *)
Definition sphere_push_test (root : node) (point : point) (radius2 : double)
  (maskNode : option path) (refDist2 : double) (childNode : node_ref)
  : bool :=
  let distToData :=
    if negb (NumberOfPoints (snd childNode) =? 0)%Z
    then GetDistance2ToBoundary (snd childNode) point root true
    else dadd radius2 radius2 in
  negb (is_mask maskNode childNode)
  && (dle distToData refDist2 || ContainsPoint (snd childNode) point).

(** The children of [checkNode] that are pushed, in push order. *)
Definition sphere_suspects (root : node) (point : point) (radius2 : double)
  (maskNode : option path) (refDist2 : double) (checkNode : node_ref)
  : list node_ref :=
  filter (sphere_push_test root point radius2 maskNode refDist2)
    (child_refs checkNode).

(** The loop of [FindClosestPointInSphere]; the head of [nodesBase] is
    the top of the stack.  [None]: the iteration budget ran out. *)
Fixpoint sphere_loop (fuel : nat) (pts : points) (root : node)
  (point : point) (radius2 : double) (maskNode : option path)
  (refDist2 : ref_dist) (nodesBase : list node_ref)
  (minDist2 : double) (pointIndx : Z) : option (double * Z) :=
  match nodesBase with
  | [] => Some (minDist2, pointIndx)
  | checkNode :: rest =>
      if dlt (Fin 0) minDist2 then
        match fuel with
        | O => None
        | S fuel' =>
            if negb (IsLeaf (snd checkNode)) then
              let pushed :=
                sphere_suspects root point radius2 maskNode
                  (read_ref refDist2 minDist2) checkNode in
              sphere_loop fuel' pts root point radius2 maskNode refDist2
                (rev pushed ++ rest) minDist2 pointIndx
            else
              let '(tempDist2, tempPntId) :=
                FindClosestPointInLeafNode pts (snd checkNode) point in
              if dlt tempDist2 minDist2 then
                sphere_loop fuel' pts root point radius2 maskNode refDist2
                  rest tempDist2 tempPntId
              else
                sphere_loop fuel' pts root point radius2 maskNode refDist2
                  rest minDist2 pointIndx
        end
      else Some (minDist2, pointIndx)
  end.

Fixpoint node_count (n : node) : nat :=
  match n with
  | mkNode _ _ _ _ _ _ cs =>
      S (fold_right (fun c acc => (node_count c + acc)%nat) 0%nat cs)
  end.

(** Returns the id and the final [*minDist2]. *)
Definition FindClosestPointInSphere (pts : points) (root : node)
  (point : point) (radius2 : double) (maskNode : option path)
  (minDist2 : double) (refDist2 : ref_dist) : option (Z * double) :=
  match sphere_loop (node_count root) pts root point radius2 maskNode
          refDist2 [([], root)] minDist2 (-1)%Z with
  | Some (minDist2, pointIndx) =>
      Some (if dle minDist2 radius2 then pointIndx else (-1)%Z, minDist2)
  | None => None
  end.

Definition FindClosestPointInSphereWithoutTolerance (pts : points)
  (root : node) (point : point) (radius2 : double)
  (maskNode : option path) : option (Z * double) :=
  FindClosestPointInSphere pts root point radius2 maskNode
    (dscale radius2 (11 # 10)) RefIsMinDist2.

Definition FindClosestPointInSphereWithTolerance (l : Locator)
  (pts : points) (root : node) (point : point) (radius2 : double)
  (maskNode : option path) : option (Z * double) :=
  FindClosestPointInSphere pts root point radius2 maskNode
    (Fin (OctreeMaxDimSize l * OctreeMaxDimSize l * 4))
    (RefValue radius2).

(** *** Closest point *)

(** The inter-node part shared by [FindClosestPoint] and
    [FindClosestInsertedPoint]: the sphere search replaces the leaf's
    answer when it is strictly closer. *)
Definition take_closer (leafAnswer : Z * double)
  (elseAnswer : option (Z * double)) : option (Z * double) :=
  match elseAnswer with
  | Some (elsePntId, elseDist2) =>
      if dlt elseDist2 (snd leafAnswer) then Some (elsePntId, elseDist2)
      else Some leafAnswer
  | None => None
  end.

Definition closest_inside (pts : points) (root : node) (x : point)
  : option (Z * double) :=
  let pLeafNode := GetLeafContainer ([], root) x in
  let '(miniDist2, pointIndx) :=
    FindClosestPointInLeafNode pts (snd pLeafNode) x in
  if dlt (Fin 0) miniDist2 then
    if dlt (GetDistance2ToInnerBoundary (snd pLeafNode) x root) miniDist2
    then
      take_closer (pointIndx, miniDist2)
        (FindClosestPointInSphereWithoutTolerance pts root x miniDist2
           (Some (fst pLeafNode)))
    else Some (pointIndx, miniDist2)
  else Some (pointIndx, miniDist2).

(** The nudge of one coordinate of the initial point back inside the
    root's box. *)
Definition nudge (lo hi fudge v : Q) : Q :=
  if Qleb v lo then lo + fudge
  else if Qleb hi v then hi - fudge
  else v.

Definition closest_outside (l : Locator) (pts : points) (root : node)
  (x : point) : option (Z * double) :=
  let minBounds := MinBounds root in
  let maxBounds := MaxBounds root in
  let initialPt := ClosestPointOnBoundary root x true in
  let initialPt :=
    (nudge (coord minBounds 0) (coord maxBounds 0) (FudgeFactor l)
       (coord initialPt 0),
     nudge (coord minBounds 1) (coord maxBounds 1) (FudgeFactor l)
       (coord initialPt 1),
     nudge (coord minBounds 2) (coord maxBounds 2) (FudgeFactor l)
       (coord initialPt 2)) in
  let pLeafNode := GetLeafContainer ([], root) initialPt in
  let '(miniDist2, pointIndx) :=
    FindClosestPointInLeafNode pts (snd pLeafNode) x in
  take_closer (pointIndx, miniDist2)
    (FindClosestPointInSphereWithoutTolerance pts root x miniDist2
       (Some (fst pLeafNode))).

(** Returns the id and [*miniDist2]. *)
Definition FindClosestPoint (l : Locator) (x : point)
  : outcome (Z * double) :=
  let l := BuildLocator l in
  let miniDist2 := Fin (OctreeMaxDimSize l * OctreeMaxDimSize l * 4) in
  match OctreeRootNode l with
  | None => Returns ((-1)%Z, miniDist2)
  | Some root =>
      if (NumberOfPoints root =? 0)%Z then Returns ((-1)%Z, miniDist2)
      else if ContainsPoint root x
           then finished (closest_inside (the_points l) root x)
           else finished (closest_outside l (the_points l) root x)
  end.

Definition FindClosestInsertedPoint (l : Locator) (x : point)
  : outcome Z :=
  match OctreeRootNode l with
  | None => Returns (-1)%Z
  | Some root =>
      if (NumberOfPoints root =? 0)%Z || negb (ContainsPoint root x)
      then Returns (-1)%Z
      else finished (option_map fst (closest_inside (the_points l) root x))
  end.

(** The sphere search entered with a null root: the loop is skipped when
    the initial [*minDist2] is not positive, otherwise the null root is
    popped and read. *)
Definition FindClosestPointWithinSquaredRadius (l : Locator) (radius2 : Q)
  (x : point) : outcome (Z * double) :=
  let l := BuildLocator l in
  match OctreeRootNode l with
  | Some root =>
      finished (FindClosestPointInSphereWithoutTolerance (the_points l)
                  root x (Fin radius2) None)
  | None =>
      let minDist2 := dscale (Fin radius2) (11 # 10) in
      if dlt (Fin 0) minDist2 then NullDereference
      else Returns ((-1)%Z, minDist2)
  end.

Definition FindClosestPointWithinRadius (l : Locator) (radius : Q)
  (x : point) : outcome (Z * double) :=
  FindClosestPointWithinSquaredRadius l (radius * radius) x.

(** *** Points within a radius *)

(** One axis of the loop over the axes: the contributions to
    [outMinDst2] and to [maximDist2]. *)
Definition radius_axis (lo hi p : Q) : Q * Q :=
  let tempValue0 := p - lo in
  let tempValue1 := hi - p in
  if Qltb tempValue0 0 then (sqr tempValue0, sqr tempValue1)
  else if Qltb tempValue1 0 then (sqr tempValue1, sqr tempValue0)
  else if Qltb tempValue0 tempValue1 then (0, sqr tempValue1)
  else (0, sqr tempValue0).

Definition radius_bounds (nodeBounds : list Q) (point : point) : Q * Q :=
  fold_left
    (fun acc i =>
       let j := (2 * i)%nat in
       let c := radius_axis (array_get nodeBounds j)
                  (array_get nodeBounds (j + 1)) (coord point i) in
       (fst acc + fst c, snd acc + snd c))
    axes (0, 0).

(** The recursion over the nodes; the ids are appended to [idList]. *)
Fixpoint FindPointsWithinSquaredRadius_node (pts : points) (n : node)
  (radius2 : Q) (point : point) (idList : list Z) {struct n} : list Z :=
  let '(outMinDst2, maximDist2) := radius_bounds (NodeGetBounds n) point in
  if Qltb radius2 outMinDst2 then idList
  else if Qleb maximDist2 radius2 then idList ++ ExportAllPointIds n
  else
    match n with
    | mkNode _ _ _ _ numberPnts nodePntIds cs =>
        match cs with
        | [] =>
            idList ++
            filter
              (fun pointIndex =>
                 Qleb (Distance2BetweenPoints (GetPoint pts pointIndex) point)
                   radius2)
              (firstn (Z.to_nat numberPnts)
                 (match nodePntIds with Some ids => ids | None => [] end))
        | _ =>
            fold_left
              (fun acc c =>
                 FindPointsWithinSquaredRadius_node pts c radius2 point acc)
              cs idList
        end
    end.

Definition FindPointsWithinSquaredRadius (l : Locator) (R2 : Q)
  (x : point) : outcome (list Z) :=
  let l := BuildLocator l in
  match OctreeRootNode l with
  | Some root =>
      Returns (FindPointsWithinSquaredRadius_node (the_points l) root
                 R2 x [])
  | None => NullDereference
  end.

Definition FindPointsWithinRadius (l : Locator) (R : Q) (x : point)
  : outcome (list Z) :=
  let l := BuildLocator l in
  match OctreeRootNode l with
  | Some root =>
      Returns (FindPointsWithinSquaredRadius_node (the_points l) root
                 (R * R) x [])
  | None => NullDereference
  end.

(** *** The K nearest points *)

(** The loop over the eight children that keeps the one whose data is
    closest to the point; [pThisNode] is left alone when no child beats
    the initial [SVTK_DOUBLE_MAX]. *)
Definition closer_child (root : node) (x : point)
  (st : double * node_ref) (pTheChild : node_ref) : double * node_ref :=
  let tempDist2 := GetDistance2ToBoundary (snd pTheChild) x root true in
  if dlt tempDist2 (fst st) then (tempDist2, pTheChild) else st.

Definition closest_child (root : node) (x : point)
  (theParent pThisNode : node_ref) : node_ref :=
  snd
    (fold_left (closer_child root x) (child_refs theParent)
       (SVTK_DOUBLE_MAX, pThisNode)).

(** The inner loop for a point inside the node: down by child index. *)
Fixpoint descend_inside (fuel : nat) (x : point) (N : Z)
  (pThisNode theParent : node_ref) (numPoints : Z)
  : option (node_ref * node_ref * Z) :=
  if negb (IsLeaf (snd pThisNode)) && (N <? numPoints)%Z then
    match fuel with
    | O => None
    | S fuel' =>
        match GetChild pThisNode (GetChildIndex (snd pThisNode) x) with
        | Some c =>
            descend_inside fuel' x N c pThisNode (NumberOfPoints (snd c))
        | None => None
        end
    end
  else Some (pThisNode, theParent, numPoints).

(** The inner loop for a point outside the node: down to the child with
    the closest data. *)
Fixpoint descend_outside (fuel : nat) (root : node) (x : point) (N : Z)
  (pThisNode theParent : node_ref) (numPoints : Z)
  : option (node_ref * node_ref * Z) :=
  if negb (IsLeaf (snd pThisNode)) && (N <? numPoints)%Z then
    match fuel with
    | O => None
    | S fuel' =>
        let c := closest_child root x pThisNode pThisNode in
        descend_outside fuel' root x N c pThisNode (NumberOfPoints (snd c))
    end
  else Some (pThisNode, theParent, numPoints).

(** The loop [while (beenFound == 0)]. *)
Fixpoint find_start_node (fuel inner : nat) (root : node) (x : point)
  (N : Z) (pThisNode theParent : node_ref) (numPoints : Z)
  : option node_ref :=
  match fuel with
  | O => None
  | S fuel' =>
      if ContainsPoint (snd pThisNode) x then
        match descend_inside inner x N pThisNode theParent numPoints with
        | Some (pThisNode, theParent, numPoints) =>
            if negb (numPoints =? 0)%Z then
              Some (if (N <=? numPoints)%Z then pThisNode else theParent)
            else
              let pThisNode := closest_child root x theParent pThisNode in
              find_start_node fuel' inner root x N pThisNode theParent
                (NumberOfPoints (snd pThisNode))
        | None => None
        end
      else
        match descend_outside inner root x N pThisNode theParent numPoints
        with
        | Some (pThisNode, theParent, numPoints) =>
            Some (if (N <=? numPoints)%Z then pThisNode else theParent)
        | None => None
        end
  end.

(** The points of one node handed to the sorter: the first [numPoints]
    exported ids, each with its squared distance to [x]. *)
Definition sort_node_points (pts : points) (x : point) (n : node)
  (ptsSorter : Sorter.SortPoints) : Sorter.SortPoints :=
  fold_left
    (fun s pointIndx =>
       Sorter.InsertPoint
         (Distance2BetweenPoints x (GetPoint pts pointIndx)) pointIndx s)
    (firstn (Z.to_nat (NumberOfPoints n)) (ExportAllPointIds n))
    ptsSorter.

(** The loop over [nodeQueue]; the head of the list is the front. *)
Fixpoint knn_loop (fuel : nat) (pts : points) (root : node) (x : point)
  (startNode : path) (nodeQueue : list node_ref)
  (ptsSorter : Sorter.SortPoints) (maxiDist2 : double)
  : option Sorter.SortPoints :=
  match nodeQueue with
  | [] => Some ptsSorter
  | pThisNode :: rest =>
      match fuel with
      | O => None
      | S fuel' =>
          if path_eqb (fst pThisNode) startNode then
            knn_loop fuel' pts root x startNode rest ptsSorter maxiDist2
          else if negb (IsLeaf (snd pThisNode)) then
            knn_loop fuel' pts root x startNode
              (rest ++
               filter
                 (fun pTheChild =>
                    ContainsPointByData (snd pTheChild) x
                    || dlt (GetDistance2ToBoundary (snd pTheChild) x root
                              true) maxiDist2)
                 (child_refs pThisNode))
              ptsSorter maxiDist2
          else if dlt (GetDistance2ToBoundary (snd pThisNode) x root true)
                    maxiDist2 then
            let ptsSorter :=
              sort_node_points pts x (snd pThisNode) ptsSorter in
            knn_loop fuel' pts root x startNode rest ptsSorter
              (Sorter.GetLargestDist2 ptsSorter)
          else
            knn_loop fuel' pts root x startNode rest ptsSorter maxiDist2
      end
  end.

Definition closest_n (pts : points) (root : node) (N : Z) (x : point)
  : option (list Z) :=
  let fuel := S (node_count root) in
  match find_start_node fuel fuel root x N ([], root) ([], root)
          (NumberOfPoints root) with
  | Some startNode =>
      let ptsSorter :=
        sort_node_points pts x (snd startNode) (Sorter.New N) in
      match knn_loop fuel pts root x (fst startNode) [([], root)]
              ptsSorter (Sorter.GetLargestDist2 ptsSorter) with
      | Some ptsSorter => Some (Sorter.GetSortedIds ptsSorter)
      | None => None
      end
  | None => None
  end.

(** The root's point count is read before any test of the root. *)
Definition FindClosestNPoints (l : Locator) (N : Z) (x : point)
  : outcome (list Z) :=
  let l := BuildLocator l in
  match OctreeRootNode l with
  | None => NullDereference
  | Some root =>
      let totalPnts := NumberOfPoints root in
      let N := if (totalPnts <? N)%Z then totalPnts else N in
      if (N <=? 0)%Z then Returns []
      else finished (closest_n (the_points l) root N x)
  end.

(** *** Duplicate detection *)

(** The scan of [FindDuplicateDoubleTypePointInVisitedLeafNode]; the
    variant for a [float] container narrows the coordinates first and is
    not modelled. *)
Fixpoint find_duplicate (pts : points) (point : point) (ids : list Z) : Z :=
  match ids with
  | [] => (-1)%Z
  | tmpIdx :: ids' =>
      let tmpPnt := GetPoint pts tmpIdx in
      if Qeqb (coord point 0) (coord tmpPnt 0)
         && Qeqb (coord point 1) (coord tmpPnt 1)
         && Qeqb (coord point 2) (coord tmpPnt 2)
      then tmpIdx
      else find_duplicate pts point ids'
  end.

Definition FindDuplicatePointInLeafNode (pts : points) (leafNode : node)
  (point : point) : Z :=
  match PointIdSet leafNode with
  | None => (-1)%Z
  | Some idList => find_duplicate pts point idList
  end.

(** Both functions return the id and the leaf container. *)
Definition IsInsertedPointForZeroTolerance (pts : points) (root : node)
  (x : point) : Z * node_ref :=
  let leafContainer := GetLeafContainer ([], root) x in
  (FindDuplicatePointInLeafNode pts (snd leafContainer) x, leafContainer).

Definition IsInsertedPointForNonZeroTolerance (l : Locator) (pts : points)
  (root : node) (x : point) : option (Z * node_ref) :=
  let leafContainer := GetLeafContainer ([], root) x in
  let '(minDist2, pointIdx) :=
    FindClosestPointInLeafNode pts (snd leafContainer) x in
  if deq minDist2 (Fin 0) then Some (pointIdx, leafContainer)
  else
    let elseDst2 :=
      GetDistance2ToInnerBoundary (snd leafContainer) x root in
    if dlt elseDst2 (Fin (InsertTolerance2 l)) then
      match FindClosestPointInSphereWithTolerance l pts root x
              (Fin (InsertTolerance2 l)) (Some (fst leafContainer)) with
      | Some (pntIdExt, dist2Ext) =>
          let '(minDist2, pointIdx) :=
            if dlt dist2Ext minDist2 then (dist2Ext, pntIdExt)
            else (minDist2, pointIdx) in
          Some (if dle minDist2 (Fin (InsertTolerance2 l)) then pointIdx
                else (-1)%Z,
                leafContainer)
      | None => None
      end
    else
      Some (if dle minDist2 (Fin (InsertTolerance2 l)) then pointIdx
            else (-1)%Z,
            leafContainer).

Definition IsInsertedPoint (l : Locator) (x : point) : outcome Z :=
  match OctreeRootNode l with
  | None => NullDereference
  | Some root =>
      if Qeqb (InsertTolerance2 l) 0
      then Returns (fst (IsInsertedPointForZeroTolerance (the_points l)
                           root x))
      else finished (option_map fst
                       (IsInsertedPointForNonZeroTolerance l (the_points l)
                          root x))
  end.

(** *** The polygonal representation *)

(** The loop over [pairQueue]; a child is queued with the level
    [nodeLevel + 1]. *)
Fixpoint collect_level (fuel : nat) (nodeLevel : Z)
  (pairQueue : list (node_ref * Z)) (nodesList : list node_ref)
  : option (list node_ref) :=
  match pairQueue with
  | [] => Some nodesList
  | (pTempNode, tempLevel) :: rest =>
      match fuel with
      | O => None
      | S fuel' =>
          if (tempLevel =? nodeLevel)%Z then
            collect_level fuel' nodeLevel rest (nodesList ++ [pTempNode])
          else if negb (IsLeaf (snd pTempNode)) then
            collect_level fuel' nodeLevel
              (rest ++
               map (fun c => (c, (nodeLevel + 1)%Z)) (child_refs pTempNode))
              nodesList
          else collect_level fuel' nodeLevel rest nodesList
      end
  end.

Definition OCTREE_NODE_FACES_LUT : list (list nat) :=
  [[0; 1; 5; 4]; [0; 4; 6; 2]; [6; 7; 3; 2];
   [1; 3; 7; 5]; [2; 3; 1; 0]; [4; 5; 7; 6]]%nat.

(** [svtkPolyData] as far as it is written: the points and the quads. *)
Definition polydata : Type := (list point * list (list Z))%type.

(** The eight corners are read at [bounds[i & 1]], [bounds[i & 2]] and
    [bounds[i & 4]]. *)
Definition AddPolys (n : node) (pd : polydata) : polydata :=
  let bounds := NodeGetBounds n in
  let first := Z.of_nat (length (fst pd)) in
  let corners :=
    map (fun i =>
           (array_get bounds (Nat.land i 1), array_get bounds (Nat.land i 2),
            array_get bounds (Nat.land i 4)))
        (seq 0 8) in
  let quads :=
    map (map (fun k => (first + Z.of_nat k)%Z)) OCTREE_NODE_FACES_LUT in
  (fst pd ++ corners, snd pd ++ quads).

Definition GenerateRepresentation (l : Locator) (nodeLevel : Z)
  : outcome (option polydata) :=
  match OctreeRootNode l with
  | None => Returns None
  | Some root =>
      match collect_level (S (node_count root)) nodeLevel
              [(([], root), 0%Z)] [] with
      | Some nodesList =>
          Returns
            (Some (fold_left (fun pd r => AddPolys (snd r) pd)
                     nodesList ([], [])))
      | None => Unfinished
      end
  end.

(** ** Point insertion

    The insertion into a node is a method of the missing node class; it
    is modelled from section 4.1 of the specification. *)

Definition Qmin3 (a b : Q) : Q := if Qltb b a then b else a.
Definition Qmax3 (a b : Q) : Q := if Qltb a b then b else a.

(** Modelled from the spec: the data bounds extended to include [p];
    the first point starts them. *)
Definition extend_data_bounds (n : node) (p : point) : point * point :=
  if (NumberOfPoints n =? 0)%Z then (p, p)
  else
    ((Qmin3 (coord (MinDataBounds n) 0) (coord p 0),
      Qmin3 (coord (MinDataBounds n) 1) (coord p 1),
      Qmin3 (coord (MinDataBounds n) 2) (coord p 2)),
     (Qmax3 (coord (MaxDataBounds n) 0) (coord p 0),
      Qmax3 (coord (MaxDataBounds n) 1) (coord p 1),
      Qmax3 (coord (MaxDataBounds n) 2) (coord p 2))).

(** Modelled from the spec: the box of child [k] of a node, one of the
    eight boxes that tile the node's box around its mid point; bit [a]
    of [k] selects the upper half on axis [a]. *)
Definition child_box (n : node) (k : nat) : point * point :=
  let m := MidPoint n in
  let lo a := if Nat.testbit k a then coord m a else coord (MinBounds n) a in
  let hi a := if Nat.testbit k a then coord (MaxBounds n) a else coord m a in
  ((lo 0%nat, lo 1%nat, lo 2%nat), (hi 0%nat, hi 1%nat, hi 2%nat)).

(** Modelled from the spec: a leaf that receives the ids [ids] in
    order, its data bounds recomputed from them. *)
Definition leaf_with_ids (pts : points) (box : point * point)
  (ids : list Z) : node :=
  fold_left
    (fun n id =>
       let d := extend_data_bounds n (GetPoint pts id) in
       {| MinBounds := MinBounds n; MaxBounds := MaxBounds n;
          MinDataBounds := fst d; MaxDataBounds := snd d;
          NumberOfPoints := NumberOfPoints n + 1;
          PointIdSet :=
            Some (match PointIdSet n with Some l => l | None => [] end
                  ++ [id]);
          Children := [] |})
    ids
    {| MinBounds := fst box; MaxBounds := snd box;
       MinDataBounds := snd box; MaxDataBounds := fst box;
       NumberOfPoints := 0; PointIdSet := None; Children := [] |}.

(** Modelled from the spec: the subdivision of a leaf; each id moves to
    the child whose box contains its point, the node keeps its count and
    data bounds and becomes internal. *)
Definition subdivide (pts : points) (n : node) : node :=
  let ids := match PointIdSet n with Some l => l | None => [] end in
  {| MinBounds := MinBounds n; MaxBounds := MaxBounds n;
     MinDataBounds := MinDataBounds n; MaxDataBounds := MaxDataBounds n;
     NumberOfPoints := NumberOfPoints n;
     PointIdSet := None;
     Children :=
       map (fun k =>
              let box := child_box n k in
              leaf_with_ids pts box
                (filter (fun id =>
                           in_half_open (fst box) (snd box) (GetPoint pts id))
                   ids))
           (seq 0 8) |}.

(** Every side of the box is at least twice the fudge factor. *)
Definition wide_enough (n : node) (fudge : Q) : bool :=
  forallb (fun a => Qleb (2 * fudge)
                      (coord (MaxBounds n) a - coord (MinBounds n) a)) axes.

(** Modelled from the spec: the insertion of point [p] with id [id]
    into a leaf: append the id, extend the data bounds and subdivide
    when the leaf is over capacity and wide enough. *)
Definition leaf_insert (pts : points) (n : node) (p : point) (id : Z)
  (maxPts : Z) (fudge : Q) : node :=
  let d := extend_data_bounds n p in
  let ids := match PointIdSet n with Some l => l | None => [] end ++ [id] in
  let n' :=
    {| MinBounds := MinBounds n; MaxBounds := MaxBounds n;
       MinDataBounds := fst d; MaxDataBounds := snd d;
       NumberOfPoints := NumberOfPoints n + 1;
       PointIdSet := Some ids; Children := [] |} in
  if (maxPts <? Z.of_nat (length ids))%Z && wide_enough n fudge
  then subdivide pts n' else n'.

(** Modelled from the spec: the descent to the containing leaf with the
    count and data bounds of every node on the way updated. *)
Fixpoint insert_under (pts : points) (n : node) (p : point) (id : Z)
  (maxPts : Z) (fudge : Q) {struct n} : node :=
  match n with
  | mkNode lo hi dlo dhi cnt ids cs =>
      match cs with
      | [] => leaf_insert pts n p id maxPts fudge
      | _ =>
          let d := extend_data_bounds n p in
          mkNode lo hi (fst d) (snd d) (cnt + 1)%Z ids
            ((fix upd (l : list node) (k : nat) {struct l} : list node :=
                match l, k with
                | [], _ => []
                | c :: l', O =>
                    insert_under pts c p id maxPts fudge :: l'
                | c :: l', S k' => c :: upd l' k'
                end) cs (GetChildIndex n p))
      end
  end.

(** [InsertNextPoint]: the point is appended to the container and its
    id stored in the octree; returns the new id. *)
Definition InsertNextPoint (l : Locator) (x : point) : outcome (Locator * Z) :=
  match OctreeRootNode l with
  | None => NullDereference
  | Some root =>
      let pts := the_points l ++ [x] in
      let pntId := Z.of_nat (length (the_points l)) in
      Returns
        ({| FudgeFactor := FudgeFactor l;
            OctreeMaxDimSize := OctreeMaxDimSize l;
            BuildCubicOctree := BuildCubicOctree l;
            MaxPointsPerLeaf := MaxPointsPerLeaf l;
            InsertTolerance2 := InsertTolerance2 l;
            Tolerance := Tolerance l;
            LocatorPoints := Some pts;
            OctreeRootNode :=
              Some (insert_under pts root x pntId (MaxPointsPerLeaf l)
                      (FudgeFactor l)) |},
         pntId)
  end.

(** [InsertUniquePoint]: the return value, [pntId] and the locator
    afterwards.  The test of [pntId] is the source's; the call of the
    leaf's [InsertPoint] in the other branch is modelled from the spec
    by the insertion above, which reports 1. *)
Definition InsertUniquePoint (l : Locator) (point : point)
  : outcome (Z * Z * Locator) :=
  match IsInsertedPoint l point with
  | Returns pntId =>
      if (-1 <? pntId)%Z then Returns (0%Z, pntId, l)
      else
        match InsertNextPoint l point with
        | Returns (l', pntId') => Returns (1%Z, pntId', l')
        | NullDereference => NullDereference
        | Unfinished => Unfinished
        end
  | NullDereference => NullDereference
  | Unfinished => Unfinished
  end.

(** A locator set up on [bounds] with capacity [maxPts] per leaf and
    the points [xs] inserted in order. *)
Definition set_max_points (l : Locator) (maxPts : Z) : Locator :=
  {| FudgeFactor := FudgeFactor l; OctreeMaxDimSize := OctreeMaxDimSize l;
     BuildCubicOctree := BuildCubicOctree l; MaxPointsPerLeaf := maxPts;
     InsertTolerance2 := InsertTolerance2 l; Tolerance := Tolerance l;
     LocatorPoints := LocatorPoints l;
     OctreeRootNode := OctreeRootNode l |}.

Definition build (tolerance : Q) (maxPts : Z) (bounds : list Q)
  (xs : list point) : Locator :=
  fold_left
    (fun l x =>
       match InsertNextPoint l x with
       | Returns (l', _) => l'
       | _ => l
       end)
    xs
    (fst (InitPointInsertion (set_max_points (NewLocator tolerance) maxPts)
            (Some []) bounds)).

(** ** Reference notions for the properties *)

(** The nodes at depth [L] below [r], the node [r] itself being at depth
    0, from the child 0 to the child 7. *)
Fixpoint nodes_at_depth (L : nat) (r : node_ref) : list node_ref :=
  match L with
  | O => [r]
  | S L' => flat_map (nodes_at_depth L') (child_refs r)
  end.

(** The unit cube with three points and two points per leaf: the root
    is subdivided once. *)
Definition three_points : list point :=
  [(1 # 10, 1 # 10, 1 # 10); (9 # 10, 9 # 10, 9 # 10);
   (1 # 2, 1 # 2, 1 # 2)].

Definition unit_cube : list Q := [0; 1; 0; 1; 0; 1].

Definition subdivided_locator : Locator :=
  Eval vm_compute in build (1 # 1000) 2 unit_cube three_points.

(** *** Well-formed octrees

    The invariants of the specification's data model (section 3), as a
    check that runs. *)

(** The closed box test [lo <= p <= hi]. *)
Definition in_closed (lo hi p : point) : bool :=
  forallb (fun i => Qleb (coord lo i) (coord p i)
                    && Qleb (coord p i) (coord hi i)) axes.

Definition point_eqb (a b : point) : bool :=
  forallb (fun i => Qeqb (coord a i) (coord b i)) axes.

(** Child [k] of [n] has the box that the tiling gives it. *)
Definition has_child_box (n : node) (kc : nat * node) : bool :=
  let box := child_box n (fst kc) in
  point_eqb (MinBounds (snd kc)) (fst box)
  && point_eqb (MaxBounds (snd kc)) (snd box).

(** Every node has an ordered box and counts the ids beneath it; every
    id beneath it names a stored point that lies in the node's half-open
    box and in its data box; an internal node has eight children whose
    boxes tile its own. *)
Fixpoint wf_node (pts : points) (n : node) {struct n} : bool :=
  match n with
  | mkNode lo hi dlo dhi cnt ids cs =>
      in_closed lo hi hi
      && (cnt =? Z.of_nat (length (ExportAllPointIds n)))%Z
      && forallb
           (fun id =>
              (0 <=? id)%Z && (id <? Z.of_nat (length pts))%Z
              && in_half_open lo hi (GetPoint pts id)
              && in_closed dlo dhi (GetPoint pts id))
           (ExportAllPointIds n)
      && match cs with
         | [] => true
         | _ =>
             (length cs =? 8)%nat
             && forallb (has_child_box n) (combine (seq 0 (length cs)) cs)
             && forallb (wf_node pts) cs
         end
  end.

Fixpoint nodupb (l : list Z) : bool :=
  match l with
  | [] => true
  | a :: l' => negb (existsb (Z.eqb a) l') && nodupb l'
  end.

(** A well-formed locator state: the octree is well formed over the
    point container and stores every id of the container once. *)
Definition wf_tree (pts : points) (root : node) : bool :=
  wf_node pts root && nodupb (ExportAllPointIds root).

Definition stores_all (pts : points) (root : node) : Prop :=
  forall id, (0 <= id < Z.of_nat (length pts))%Z ->
             In id (ExportAllPointIds root).

(** The number of nodes in a list of subtrees. *)
Definition nodes_weight (ns : list node) : nat :=
  fold_right (fun c acc => (node_count c + acc)%nat) 0%nat ns.

(** What a well-formed node provides. *)
Record node_ok (pts : points) (n : node) : Prop := mk_node_ok {
  ok_box : in_closed (MinBounds n) (MaxBounds n) (MaxBounds n) = true;
  ok_count : NumberOfPoints n = Z.of_nat (length (ExportAllPointIds n));
  ok_ids : forall id, In id (ExportAllPointIds n) ->
             (0 <= id < Z.of_nat (length pts))%Z /\
             in_half_open (MinBounds n) (MaxBounds n) (GetPoint pts id) = true /\
             in_closed (MinDataBounds n) (MaxDataBounds n) (GetPoint pts id)
             = true;
  ok_eight : IsLeaf n = false -> length (Children n) = 8%nat;
  ok_child : forall k c, nth_error (Children n) k = Some c ->
               has_child_box n (k, c) = true /\ wf_node pts c = true
}.


(** The point of [id] is within the squared radius [R2] of [q]. *)
Definition within (pts : points) (q : point) (R2 : Q) (id : Z) : bool :=
  Qleb (Distance2BetweenPoints (GetPoint pts id) q) R2.


(** The node reached from [n] by the child indices [q]. *)
Fixpoint node_at (n : node) (q : path) : option node :=
  match q with
  | [] => Some n
  | k :: q' =>
      match nth_error (Children n) k with
      | Some c => node_at c q'
      | None => None
      end
  end.

(** The id [j] is stored in a leaf that the sphere search can reach from
    the node [r]: no child on the way down is the mask node. *)
Inductive reach (maskNode : option path) : node_ref -> Z -> Prop :=
| reach_leaf r j :
    IsLeaf (snd r) = true ->
    In j (ExportAllPointIds (snd r)) ->
    reach maskNode r j
| reach_child r c j :
    IsLeaf (snd r) = false ->
    In c (child_refs r) ->
    is_mask maskNode c = false ->
    reach maskNode c j ->
    reach maskNode r j.

(** The squared distance from the stored point [j] to [x]. *)
Definition dist2 (pts : points) (x : point) (j : Z) : Q :=
  Distance2BetweenPoints (GetPoint pts j) x.

(** [i] is a stored id closest to [x]. *)
Definition closest_id (pts : points) (root : node) (x : point) (i : Z) : Prop :=
  In i (ExportAllPointIds root) /\
  forall j, In j (ExportAllPointIds root) -> dist2 pts x i <= dist2 pts x j.

(** A double that is the sentinel or not negative. *)
Definition nonneg_or_max (d : double) : Prop :=
  match d with Fin v => 0 <= v | SVTK_DOUBLE_MAX => True end.


(** The id [j] was set aside by the comparison with [*refDist2] when
    that is a value of the caller. *)
Definition beyond_ref (pts : points) (x : point) (refDist2 : ref_dist)
  (j : Z) : Prop :=
  match refDist2 with
  | RefIsMinDist2 => False
  | RefValue rv => dlt rv (Fin (dist2 pts x j)) = true
  end.

(** The brute-force scan over the whole container: the first id at the
    least squared distance from [x], with that distance. *)
Fixpoint brute_force_scan (pts : points) (x : point) (ids : list Z)
  (best : option (Z * Q)) : option (Z * Q) :=
  match ids with
  | [] => best
  | j :: ids' =>
      brute_force_scan pts x ids'
        (match best with
         | None => Some (j, dist2 pts x j)
         | Some (b, db) =>
             if Qltb (dist2 pts x j) db then Some (j, dist2 pts x j)
             else best
         end)
  end.

Definition all_ids (pts : points) : list Z :=
  map Z.of_nat (seq 0 (length pts)).

Definition brute_force_closest (pts : points) (x : point) : option (Z * Q) :=
  brute_force_scan pts x (all_ids pts) None.

Definition subdivided_root : node :=
  Eval vm_compute in
    match OctreeRootNode subdivided_locator with
    | Some root => root
    | None => NewNodeWithBounds []
    end.

(** *** Notions for the K nearest points *)

(** The brute-force reference for the K nearest points: every id of
    the container sorted by its squared distance to [x] with an
    insertion sort, and the first [K] ids of that list. *)
Fixpoint insert_by (f : Z -> Q) (i : Z) (l : list Z) : list Z :=
  match l with
  | [] => [i]
  | j :: l' => if Qleb (f i) (f j) then i :: l else j :: insert_by f i l'
  end.

Definition sort_by (f : Z -> Q) (V : list Z) : list Z :=
  fold_right (insert_by f) [] V.

Definition brute_force_nearest (pts : points) (x : point) (K : Z)
  : list Z :=
  firstn (Z.to_nat K) (sort_by (dist2 pts x) (all_ids pts)).

(** [A] is a choice of ids of [U] without repetition, in ascending
    order of the key [f], such that no id of [U] left out has a smaller
    key than an id chosen. *)
Definition selection (f : Z -> Q) (U A : list Z) : Prop :=
  NoDup A /\ incl A U /\
  StronglySorted (fun i j => f i <= f j) A /\
  forall i j, In i A -> In j U -> ~ In j A -> f i <= f j.

(** Two points with the same coordinates. *)
Definition same_coords (a b : point) : Prop :=
  coord a 0 == coord b 0 /\ coord a 1 == coord b 1 /\
  coord a 2 == coord b 2.

(** The key under which [FindClosestNPoints] hands an id to the
    sorter. *)
Definition kdist (pts : points) (x : point) (id : Z) : Q :=
  Distance2BetweenPoints x (GetPoint pts id).

(** A reference to a node of the octree: the path leads to the node,
    which is well formed. *)
(** [r] names a node of the octree under [root]. *)
Definition valid_ref (pts : points) (root : node) (r : node_ref) : Prop :=
  node_at root (fst r) = Some (snd r) /\ wf_node pts (snd r) = true.

(** The ids a node exports, in export order. *)
Definition ids_of (r : node_ref) : list Z := ExportAllPointIds (snd r).


(** Three points on a line in the unit cube, two points per leaf: id 0
    goes to the upper half in x, ids 1 and 2 to the lower half, and ids
    0 and 1 are equally far from [tie_query]. *)
Definition tie_points : list point :=
  [(1 # 2, 1 # 4, 1 # 4); (3 # 10, 1 # 4, 1 # 4); (1 # 10, 1 # 4, 1 # 4)].

Definition tie_query : point := (4 # 10, 1 # 4, 1 # 4).

Definition tie_locator : Locator :=
  Eval vm_compute in build (1 # 1000) 2 unit_cube tie_points.

(** The same octree built with the tolerance 0. *)
Definition exact_locator : Locator :=
  Eval vm_compute in build 0 2 unit_cube tie_points.

Definition tie_root : node :=
  Eval vm_compute in
    match OctreeRootNode tie_locator with
    | Some root => root
    | None => NewNodeWithBounds []
    end.

(** The state of the loop over [nodeQueue], with the leaves whose points
    went to the sorter so far: the sorter is a bounded grouping of the
    ids handed over; every stored id was handed over, waits beneath a
    queued node, or lies at least [LargestDist2] away; no leaf is
    visited twice and none beneath the start node. *)
Record knn_state (pts : points) (root : node) (x : point) (K : Z)
  (start : node_ref) (nodeQueue : list node_ref)
  (s : Sorter.SortPoints) (maxiDist2 : double)
  (leaves : list node_ref) : Prop := mk_knn_state {
  ks_holds : Sorter.holds (kdist pts x) K
               (ids_of start ++ flat_map ids_of leaves) s;
  ks_maxi : maxiDist2 = Sorter.LargestDist2 s;
  ks_valid : Forall (valid_ref pts root) nodeQueue;
  ks_cover : forall j, In j (ExportAllPointIds root) ->
               In j (ids_of start ++ flat_map ids_of leaves) \/
               (exists r, In r nodeQueue /\ In j (ids_of r)) \/
               (exists L, Sorter.LargestDist2 s = Fin L /\
                          L <= kdist pts x j);
  ks_nodup : NoDup (flat_map ids_of leaves ++ flat_map ids_of nodeQueue);
  ks_above : forall r q, In r nodeQueue -> fst r = fst start ++ q -> q = [];
  ks_apart : forall j, In j (flat_map ids_of leaves) ->
                       ~ In j (ids_of start);
  ks_leaves : Forall (fun r => valid_ref pts root r /\
                               IsLeaf (snd r) = true) leaves
}.
(** * Properties *)

(** ** Comparisons *)

Lemma Qltb_lt a b : Qltb a b = true <-> a < b.
Proof.
  unfold Qltb. rewrite Qlt_alt. destruct (a ?= b); split; congruence.
Qed.

Lemma Qleb_le a b : Qleb a b = true <-> a <= b.
Proof.
  unfold Qleb. rewrite Qle_alt. destruct (a ?= b); split; congruence.
Qed.

Lemma Qeqb_eq a b : Qeqb a b = true <-> a == b.
Proof.
  unfold Qeqb. rewrite Qeq_alt. destruct (a ?= b); split; congruence.
Qed.

Lemma Qltb_nlt a b : Qltb a b = false <-> b <= a.
Proof.
  rewrite <- not_true_iff_false, Qltb_lt. split; intro H; lra.
Qed.

Lemma Qleb_nle a b : Qleb a b = false <-> b < a.
Proof.
  rewrite <- not_true_iff_false, Qleb_le. split; intro H; lra.
Qed.


Lemma dlt_irrefl a : dlt a a = false.
Proof.
  destruct a; simpl; trivial. apply Qltb_nlt. lra.
Qed.

(** ** The sorter *)

Module SorterFacts.
Import Sorter.

Lemma to_size_t_small z : (0 <= z < size_t_max)%Z -> to_size_t z = z.
Proof. intros H. unfold to_size_t. apply Z.mod_small. exact H. Qed.

Lemma map_add_not_nil m d id : map_add m d id <> [].
Proof.
  destruct m as [|[k ids] m']; simpl; [discriminate|].
  destruct (d ?= k); discriminate.
Qed.

Lemma total_ids_cons e m :
  total_ids (e :: m) = (Z.of_nat (length (snd e)) + total_ids m)%Z.
Proof. reflexivity. Qed.

Lemma total_ids_nonneg m : (0 <= total_ids m)%Z.
Proof.
  induction m as [|e m IH]; [simpl; lia|]. rewrite total_ids_cons. lia.
Qed.

Lemma total_ids_map_add m d id :
  total_ids (map_add m d id) = (total_ids m + 1)%Z.
Proof.
  induction m as [|[k ids] m IH]; [reflexivity|].
  cbn [map_add]. destruct (d ?= k); rewrite !total_ids_cons; cbn [snd].
  - rewrite length_app. simpl length. lia.
  - cbn [snd length]. lia.
  - rewrite IH. lia.
Qed.

Lemma last_cons_default {A} (l : list A) (a d : A) :
  last (a :: l) d = last l a.
Proof.
  revert a d. induction l as [|b l IH]; intros a d; [reflexivity|].
  change (last (a :: b :: l) d) with (last (b :: l) d).
  rewrite (IH b d), (IH b a). reflexivity.
Qed.

Lemma last_entry_cons e m :
  last_entry (e :: m)
  = match last_entry m with Some x => Some x | None => Some e end.
Proof.
  destruct m as [|e' m']; [reflexivity|].
  unfold last_entry. rewrite last_cons_default. reflexivity.
Qed.

Lemma total_ids_removelast m :
  total_ids m = (total_ids (removelast m) + last_size m)%Z.
Proof.
  induction m as [|e m IH]; [reflexivity|].
  unfold last_size. rewrite last_entry_cons.
  destruct m as [|e' m'].
  - simpl. destruct e. simpl. lia.
  - change (removelast (e :: e' :: m')) with (e :: removelast (e' :: m')).
    rewrite (total_ids_cons e (e' :: m')), (total_ids_cons e (removelast _)).
    unfold last_size in IH.
    destruct (last_entry (e' :: m')) as [[k ids]|] eqn:E.
    + lia.
    + simpl in E. discriminate.
Qed.

Lemma last_entry_none m : last_entry m = None -> m = [].
Proof. destruct m; simpl; [trivial|discriminate]. Qed.

Lemma removelast_neq (m : dist_map) : m <> [] -> removelast m <> m.
Proof.
  induction m as [|e m IH]; intros H E; [congruence|].
  destruct m as [|e' m']; [discriminate|].
  change (removelast (e :: e' :: m')) with (e :: removelast (e' :: m')) in E.
  injection E as E. revert E. apply IH. discriminate.
Qed.

(** The decrement [--it2] below the erased entry is defined: when
    erasing leaves more than [NumRequested >= 0] ids, another entry
    exists. *)
Lemma erase_has_previous m :
  (0 < total_ids m - last_size m)%Z ->
  exists k ids, last_entry (removelast m) = Some (k, ids).
Proof.
  intros H. rewrite (total_ids_removelast m) in H.
  destruct (last_entry (removelast m)) as [[k ids]|] eqn:E; [eauto|].
  apply last_entry_none in E. rewrite E in H. simpl in H. lia.
Qed.

Lemma last_size_le_total m : (0 <= last_size m <= total_ids m)%Z.
Proof.
  pose proof (total_ids_removelast m) as H.
  pose proof (total_ids_nonneg (removelast m)).
  assert (0 <= last_size m)%Z.
  { unfold last_size. destruct (last_entry m) as [[k ids]|]; lia. }
  lia.
Qed.

(** The two outcomes of an accepted insertion that overflows the
    request, by the test the source makes. *)
Lemma insert_overflow_cases s d id :
  wf s -> accepts s d = true ->
  (NumRequested s < NumberPoints s + 1)%Z ->
  let m1 := map_add (dist2ToIds s) d id in
  (NumRequested s < NumberPoints s + 1 - last_size m1 ->
     drops_last s d id /\
     NumberPoints (InsertPoint d id s)
     = NumberPoints s + 1 - last_size m1)%Z /\
  (NumberPoints s + 1 - last_size m1 <= NumRequested s ->
     keeps_all s d id)%Z.
Proof.
  intros W A O m1.
  destruct W as [Wreq Wcount Wroom Wsorted Wne].
  pose proof (total_ids_nonneg (dist2ToIds s)) as Hnn.
  pose proof (total_ids_map_add (dist2ToIds s) d id) as Hadd.
  pose proof (last_size_le_total m1) as Hls. fold m1 in Hadd.
  assert (N1 : to_size_t (NumberPoints s + 1) = (NumberPoints s + 1)%Z)
    by (apply to_size_t_small; lia).
  assert (Hlast : exists k ids, last_entry m1 = Some (k, ids)).
  { destruct (last_entry m1) as [[k ids]|] eqn:E; [eauto|].
    apply last_entry_none in E. exfalso. revert E. apply map_add_not_nil. }
  destruct Hlast as (k & ids & Hlast).
  assert (Hsz : last_size m1 = Z.of_nat (length ids))
    by (unfold last_size; rewrite Hlast; reflexivity).
  assert (R : to_size_t (NumberPoints s + 1 - Z.of_nat (length ids))
              = (NumberPoints s + 1 - Z.of_nat (length ids))%Z)
    by (apply to_size_t_small; lia).
  unfold drops_last, keeps_all, InsertPoint. fold (accepts s d).
  rewrite A. fold m1. rewrite N1.
  apply Z.ltb_lt in O. rewrite O. rewrite Hlast, R, <- Hsz.
  split; intros H.
  - apply Z.ltb_lt in H. rewrite H. cbn [dist2ToIds LargestDist2 NumberPoints].
    apply Z.ltb_lt in H.
    destruct (erase_has_previous m1) as (k2 & ids2 & E2); [lia|].
    rewrite E2. split; [|reflexivity]. split; [reflexivity|]. eauto.
  - apply Z.ltb_ge in H. rewrite H. cbn [dist2ToIds LargestDist2 NumberPoints].
    auto.
Qed.

Lemma wf_after_first_insert :
  wf (InsertPoint 1 10 (New 1)).
Proof.
  constructor; vm_compute; try (split; congruence); try reflexivity.
  - auto.
  - repeat constructor; discriminate.
Qed.

Lemma wf_after_two_inserts :
  wf (InsertPoint 5 50 (InsertPoint 1 10 (New 1))).
Proof.
  constructor; vm_compute; try (split; congruence); try reflexivity.
  - auto.
  - repeat constructor; discriminate.
Qed.

(** C4, as the claim words it, fails: with one id requested and the
    pair [(1, 10)] held, inserting [(2, 20)] makes the count 2; erasing
    the entry at key 2 would leave 1 id, which is still at least the
    request, yet the entry is kept. *)
Lemma insert_keeps_boundary_entry :
  let s := InsertPoint 1 10 (New 1) in
  wf s /\ accepts s 2 = true /\
  (NumRequested s < NumberPoints s + 1)%Z /\
  (NumRequested s
   <= NumberPoints s + 1 - last_size (map_add (dist2ToIds s) 2 20))%Z /\
  ~ drops_last s 2 20 /\
  dist2ToIds (InsertPoint 2 20 s) = [(1, [10%Z]); (2, [20%Z])].
Proof.
  split; [exact wf_after_first_insert|].
  split; [reflexivity|].
  split; [vm_compute; reflexivity|].
  split; [vm_compute; congruence|].
  split; [|reflexivity].
  intros [H _]. vm_compute in H. discriminate.
Qed.

(** C4, amended: an accepted insertion that takes the count above the
    request erases the entry at the largest key, and moves
    [LargestDist2] to the largest key left, exactly when the count
    without that entry is still strictly above the request; otherwise
    every entry is kept and the count stays above the request. *)
Theorem insert_overflow_drops_iff_strictly_above s d id :
  wf s -> accepts s d = true ->
  (NumRequested s < NumberPoints s + 1)%Z ->
  (drops_last s d id <->
   (NumRequested s
    < NumberPoints s + 1 - last_size (map_add (dist2ToIds s) d id))%Z) /\
  (~ drops_last s d id ->
   keeps_all s d id /\
   (NumRequested s < NumberPoints (InsertPoint d id s))%Z).
Proof.
  intros W A O.
  destruct (insert_overflow_cases s d id W A O) as [Hdrop Hkeep].
  set (m1 := map_add (dist2ToIds s) d id) in *.
  assert (Hiff : drops_last s d id <->
                 (NumRequested s < NumberPoints s + 1 - last_size m1)%Z).
  { split; intros H.
    - destruct (Z_lt_le_dec (NumRequested s)
                  (NumberPoints s + 1 - last_size m1)) as [L|L]; [exact L|].
      exfalso. destruct (Hkeep L) as [K1 _]. destruct H as [H _].
      fold m1 in K1. rewrite K1 in H. symmetry in H. revert H.
      apply removelast_neq. apply map_add_not_nil.
    - apply Hdrop. exact H. }
  split; [exact Hiff|].
  intros ND.
  assert (L : (NumberPoints s + 1 - last_size m1 <= NumRequested s)%Z).
  { destruct (Z_lt_le_dec (NumRequested s)
                (NumberPoints s + 1 - last_size m1)) as [L|L]; [|exact L].
    exfalso. apply ND, Hiff, L. }
  pose proof (Hkeep L) as K. split; [exact K|].
  destruct K as (_ & K2 & _). rewrite K2. exact O.
Qed.

Lemma insert_overflow_drops_iff_strictly_above_witness :
  drops_last (InsertPoint 5 50 (InsertPoint 1 10 (New 1))) 3 30.
Proof.
  apply (insert_overflow_drops_iff_strictly_above
           (InsertPoint 5 50 (InsertPoint 1 10 (New 1))) 3 30).
  - exact wf_after_two_inserts.
  - reflexivity.
  - vm_compute. reflexivity.
  - vm_compute. reflexivity.
Defined.

End SorterFacts.

(** ** Point insertion set-up *)

Ltac qcases :=
  repeat match goal with
  | |- context [Qltb ?a ?b] =>
      let E := fresh "E" in
      destruct (Qltb a b) eqn:E;
      [apply Qltb_lt in E | apply Qltb_nlt in E]
  | |- context [Qeqb ?a ?b] =>
      let E := fresh "E" in
      destruct (Qeqb a b) eqn:E;
      [apply Qeqb_eq in E
      | apply not_true_iff_false in E; rewrite Qeqb_eq in E]
  | |- context [Qleb ?a ?b] =>
      let E := fresh "E" in
      destruct (Qleb a b) eqn:E;
      [apply Qleb_le in E | apply Qleb_nle in E]
  end.

Ltac array_norm :=
  cbn [fold_left axes array_get array_set nth Nat.mul Nat.add fst snd negb
       length].

Lemma copy_loop_result b0 b1 b2 b3 b4 b5 :
  exists M,
    fold_left (init_copy_step [b0; b1; b2; b3; b4; b5]) axes
      (repeat 0 6, repeat 0 3, 0)
    = ([b0; b1; b2; b3; b4; b5], [b1 - b0; b3 - b2; b5 - b4], M).
Proof. eexists. cbn. reflexivity. Qed.

Lemma cube_loop_axis M t dd i :
  length t = 6%nat -> length dd = 3%nat -> (i < 3)%nat ->
  let r := fold_left (init_cube_step M) axes (t, dd) in
  length (fst r) = 6%nat /\ length (snd r) = 3%nat /\
  array_get (fst r) (2 * i)
  = (if Qeqb (array_get dd i) M then array_get t (2 * i)
     else array_get t (2 * i) - (1 # 2) * (M - array_get dd i)) /\
  array_get (fst r) (2 * i + 1)
  = (if Qeqb (array_get dd i) M then array_get t (2 * i + 1)
     else array_get t (2 * i + 1) + (1 # 2) * (M - array_get dd i)) /\
  array_get (snd r) i
  = (if Qeqb (array_get dd i) M then array_get dd i else M).
Proof.
  intros Ht Hd Hi.
  destruct t as [|t0 [|t1 [|t2 [|t3 [|t4 [|t5 [|]]]]]]]; try discriminate.
  destruct dd as [|d0 [|d1 [|d2 [|]]]]; try discriminate.
  assert (Hi' : i = 0%nat \/ i = 1%nat \/ i = 2%nat) by lia.
  cbn [fold_left axes]. unfold init_cube_step.
  destruct Hi' as [-> | [-> | ->]]; array_norm;
    destruct (Qeqb d0 M); array_norm; destruct (Qeqb d1 M); array_norm;
    destruct (Qeqb d2 M); array_norm; repeat split; reflexivity.
Qed.

Lemma fix_loop_axis dd mss fudge t i :
  length t = 6%nat -> length dd = 3%nat -> (i < 3)%nat ->
  let r := fold_left (init_fix_step dd mss fudge) axes t in
  array_get r (2 * i)
  = (if Qltb (array_get dd i) mss then array_get t (2 * i + 1) - mss
     else array_get t (2 * i) - fudge) /\
  array_get r (2 * i + 1)
  = (if Qltb (array_get dd i) mss then array_get t (2 * i) + mss
     else array_get t (2 * i + 1)).
Proof.
  intros Ht Hd Hi.
  destruct t as [|t0 [|t1 [|t2 [|t3 [|t4 [|t5 [|]]]]]]]; try discriminate.
  destruct dd as [|d0 [|d1 [|d2 [|]]]]; try discriminate.
  assert (Hi' : i = 0%nat \/ i = 1%nat \/ i = 2%nat) by lia.
  cbn [fold_left axes]. unfold init_fix_step.
  destruct Hi' as [-> | [-> | ->]]; array_norm;
    destruct (Qltb d0 mss); array_norm; destruct (Qltb d1 mss); array_norm;
    destruct (Qltb d2 mss); array_norm; repeat split; reflexivity.
Qed.

Lemma Qltb_compat a b c d : a == c -> b == d -> Qltb a b = Qltb c d.
Proof.
  intros H1 H2. destruct (Qltb c d) eqn:E.
  - apply Qltb_lt in E. apply Qltb_lt. lra.
  - apply Qltb_nlt in E. apply Qltb_nlt. lra.
Qed.

(** C7, as the claim words it, fails on a slab: for the bounds
    [0,1] x [0,1] x [0,0] the z axis has extent 0, below a tenth of the
    largest extent 1; the root's z extent ends as two tenths, not one
    tenth, and its low side is -1/10, not the low side 0 shifted down by
    the fudge factor 1/100000. *)
Lemma init_slab_axis_not_inflated_to_tenth :
  let l := fst (InitPointInsertion (NewLocator (1 # 1000)) (Some [])
                  [0; 1; 0; 1; 0; 0]) in
  let adj := fst (fst (init_adjusted false [0; 1; 0; 1; 0; 0])) in
  exists root,
    OctreeRootNode l = Some root /\
    extent adj 2 < OctreeMaxDimSize l * (1 # 10) /\
    extent (NodeGetBounds root) 2 == 2 # 10 /\
    ~ extent (NodeGetBounds root) 2 == OctreeMaxDimSize l * (1 # 10) /\
    coord (MinBounds root) 2 == - (1 # 10) /\
    ~ coord (MinBounds root) 2 == array_get adj 4 - FudgeFactor l.
Proof.
  eexists. split; [reflexivity|]. vm_compute.
  repeat split; intros; discriminate.
Qed.

(** C7, amended: after [InitPointInsertion] with a point container the
    fudge factor is a hundred-thousandth of the largest extent, and on
    each axis of the cube-adjusted box: an extent [e] below a tenth of
    the largest extent is pushed out to [lo' = hi - maxDim/10] and
    [hi' = lo + maxDim/10], so the extent becomes [2 maxDim/10 - e],
    more than a tenth, with no fudge shift; any other axis keeps its
    high side and has its low side shifted down by exactly the fudge
    factor. *)
Theorem init_root_box_axis l pts bounds i :
  length bounds = 6%nat -> (i < 3)%nat ->
  let l' := fst (InitPointInsertion l (Some pts) bounds) in
  let adj := fst (fst (init_adjusted (BuildCubicOctree l) bounds)) in
  let maxDim := OctreeMaxDimSize l' in
  exists root,
    OctreeRootNode l' = Some root /\
    FudgeFactor l' == maxDim * (1 # 100000) /\
    (extent adj i < maxDim * (1 # 10) ->
       coord (MinBounds root) i == array_get adj (2 * i + 1) - maxDim * (1 # 10) /\
       coord (MaxBounds root) i == array_get adj (2 * i) + maxDim * (1 # 10) /\
       extent (NodeGetBounds root) i == 2 * (maxDim * (1 # 10)) - extent adj i /\
       maxDim * (1 # 10) < extent (NodeGetBounds root) i) /\
    (maxDim * (1 # 10) <= extent adj i ->
       coord (MinBounds root) i == array_get adj (2 * i) - FudgeFactor l' /\
       coord (MaxBounds root) i == array_get adj (2 * i + 1)).
Proof.
  intros Hlen Hi.
  destruct bounds as [|b0 [|b1 [|b2 [|b3 [|b4 [|b5 [|]]]]]]]; try discriminate.
  destruct (copy_loop_result b0 b1 b2 b3 b4 b5) as [M HM].
  unfold InitPointInsertion. cbn [BuildCubicOctree FreeSearchStructure].
  unfold init_root_box, init_adjusted. rewrite HM.
  unfold fudge_ratio, slab_ratio.
  set (t := [b0; b1; b2; b3; b4; b5]) in *.
  set (dd := [b1 - b0; b3 - b2; b5 - b4]) in *.
  assert (Hext : extent t i == array_get dd i).
  { assert (Hi' : i = 0%nat \/ i = 1%nat \/ i = 2%nat) by lia.
    unfold extent. destruct Hi' as [-> | [-> | ->]]; cbn; lra. }
  assert (Hroot : forall b, coord (MinBounds (NewNodeWithBounds b)) i = array_get b (2 * i)
            /\ coord (MaxBounds (NewNodeWithBounds b)) i = array_get b (2 * i + 1)).
  { assert (Hi' : i = 0%nat \/ i = 1%nat \/ i = 2%nat) by lia.
    intros b. destruct Hi' as [-> | [-> | ->]]; split; reflexivity. }
  assert (HextN : forall b, extent (NodeGetBounds (NewNodeWithBounds b)) i = extent b i).
  { assert (Hi' : i = 0%nat \/ i = 1%nat \/ i = 2%nat) by lia.
    intros b. destruct Hi' as [-> | [-> | ->]]; reflexivity. }
  destruct (BuildCubicOctree l).
  - pose proof (cube_loop_axis M t dd i eq_refl eq_refl Hi) as C.
    destruct (fold_left (init_cube_step M) axes (t, dd)) as [t' dd'].
    cbn [fst snd] in C. destruct C as (Lt & Ld & C0 & C1 & Cd).
    pose proof (fix_loop_axis dd' (M * (1 # 10)) (M * (1 # 100000)) t' i Lt Ld Hi) as F.
    cbn [fst snd OctreeRootNode FudgeFactor OctreeMaxDimSize].
    eexists. split; [reflexivity|]. split; [reflexivity|].
    destruct (Hroot (fold_left (init_fix_step dd' (M * (1 # 10)) (M * (1 # 100000))) axes t')) as [-> ->].
    rewrite HextN. unfold extent in *.
    destruct F as [-> ->]. rewrite Cd, C0, C1.
    destruct (Qeqb (array_get dd i) M) eqn:E;
      [apply Qeqb_eq in E | ]; qcases; split; intros; repeat split; lra.
  - pose proof (fix_loop_axis dd (M * (1 # 10)) (M * (1 # 100000)) t i eq_refl eq_refl Hi) as F.
    cbn [fst snd OctreeRootNode FudgeFactor OctreeMaxDimSize].
    eexists. split; [reflexivity|]. split; [reflexivity|].
    destruct (Hroot (fold_left (init_fix_step dd (M * (1 # 10)) (M * (1 # 100000))) axes t)) as [-> ->].
    rewrite HextN. unfold extent in *.
    destruct F as [-> ->].
    qcases; split; intros; repeat split; lra.
Qed.

Lemma init_root_box_axis_witness :
  let l' := fst (InitPointInsertion (NewLocator (1 # 1000)) (Some [])
                   [0; 1; 0; 1; 0; 0]) in
  exists root,
    OctreeRootNode l' = Some root /\
    coord (MinBounds root) 2 == - (1 # 10) /\
    coord (MaxBounds root) 2 == 1 # 10.
Proof.
  destruct (init_root_box_axis (NewLocator (1 # 1000)) [] [0; 1; 0; 1; 0; 0]
              2%nat eq_refl ltac:(lia)) as (root & Hr & _ & Hslab & _).
  exists root. split; [exact Hr|].
  destruct Hslab as (Hlo & Hhi & _); [vm_compute; reflexivity|].
  split; [exact Hlo | exact Hhi].
Defined.

(** ** Bounds of the octree *)

(** C10: without an octree root, [GetBounds] leaves the caller's array
    as it was. *)
Theorem GetBounds_without_root l bounds :
  OctreeRootNode l = None -> GetBounds l bounds = bounds.
Proof.
  intros H. unfold GetBounds. rewrite H. reflexivity.
Qed.

Lemma GetBounds_without_root_witness :
  GetBounds (FreeSearchStructure (NewLocator (1 # 1000))) [1; 2; 3; 4; 5; 6]
  = [1; 2; 3; 4; 5; 6].
Proof.
  apply (GetBounds_without_root
           (FreeSearchStructure (NewLocator (1 # 1000))) [1; 2; 3; 4; 5; 6]).
  reflexivity.
Defined.

(** With a root the six entries are overwritten by the root's box. *)
Lemma GetBounds_with_root l root b0 b1 b2 b3 b4 b5 :
  OctreeRootNode l = Some root ->
  GetBounds l [b0; b1; b2; b3; b4; b5] = NodeGetBounds root.
Proof.
  intros H. unfold GetBounds. rewrite H. reflexivity.
Qed.

(** ** Octree nodes *)

Lemma node_induction (P : node -> Prop) :
  (forall n, Forall P (Children n) -> P n) -> forall n, P n.
Proof.
  intros H. fix IH 1. intros [lo hi dlo dhi cnt ids cs]. apply H.
  cbn [Children]. induction cs as [|c cs IHcs]; constructor.
  - apply IH.
  - exact IHcs.
Qed.

Lemma ExportAllPointIds_unfold n :
  ExportAllPointIds n
  = if IsLeaf n
    then match PointIdSet n with Some l => l | None => [] end
    else flat_map ExportAllPointIds (Children n).
Proof.
  destruct n as [lo hi dlo dhi cnt ids cs]. unfold IsLeaf.
  cbn [ExportAllPointIds Children PointIdSet]. destruct cs; reflexivity.
Qed.

Lemma in_half_open_iff lo hi p :
  in_half_open lo hi p = true <->
  (coord lo 0 < coord p 0 <= coord hi 0) /\
  (coord lo 1 < coord p 1 <= coord hi 1) /\
  (coord lo 2 < coord p 2 <= coord hi 2).
Proof.
  unfold in_half_open, axes. cbn [forallb].
  rewrite !andb_true_iff, !Qltb_lt, !Qleb_le. tauto.
Qed.

Lemma in_closed_iff lo hi p :
  in_closed lo hi p = true <->
  (coord lo 0 <= coord p 0 <= coord hi 0) /\
  (coord lo 1 <= coord p 1 <= coord hi 1) /\
  (coord lo 2 <= coord p 2 <= coord hi 2).
Proof.
  unfold in_closed, axes. cbn [forallb].
  rewrite !andb_true_iff, !Qleb_le. tauto.
Qed.

Lemma point_eqb_iff a b :
  point_eqb a b = true <->
  coord a 0 == coord b 0 /\ coord a 1 == coord b 1 /\ coord a 2 == coord b 2.
Proof.
  unfold point_eqb, axes. cbn [forallb].
  rewrite !andb_true_iff, !Qeqb_eq. tauto.
Qed.

Lemma forallb_combine_seq {A} (f : nat * A -> bool) (l : list A) s :
  forallb f (combine (seq s (length l)) l) = true ->
  forall k c, nth_error l k = Some c -> f ((s + k)%nat, c) = true.
Proof.
  revert s. induction l as [|a l IH]; intros s H k c Hk.
  - destruct k; discriminate.
  - cbn [length seq combine forallb] in H. apply andb_true_iff in H.
    destruct H as [H1 H2]. destruct k as [|k].
    + injection Hk as <-. rewrite Nat.add_0_r. exact H1.
    + cbn [nth_error] in Hk. specialize (IH (S s) H2 k c Hk).
      replace (s + S k)%nat with (S s + k)%nat by lia. exact IH.
Qed.

Lemma wf_node_ok pts n : wf_node pts n = true -> node_ok pts n.
Proof.
  destruct n as [lo hi dlo dhi cnt ids cs]. intros H.
  cbn [wf_node] in H. rewrite !andb_true_iff in H.
  destruct H as [[[Hbox Hcnt] Hids] Hcs].
  constructor; cbn [MinBounds MaxBounds MinDataBounds MaxDataBounds
                    NumberOfPoints Children].
  - exact Hbox.
  - apply Z.eqb_eq. exact Hcnt.
  - intros id Hin. rewrite forallb_forall in Hids.
    specialize (Hids id Hin). rewrite !andb_true_iff in Hids.
    destruct Hids as [[[H0 H1] H2] H3].
    apply Z.leb_le in H0. apply Z.ltb_lt in H1. auto.
  - unfold IsLeaf. cbn [Children]. destruct cs as [|c cs]; [discriminate|].
    intros _. rewrite !andb_true_iff in Hcs. destruct Hcs as [[H8 _] _].
    apply Nat.eqb_eq. exact H8.
  - intros k c Hk. destruct cs as [|c0 cs]; [destruct k; discriminate|].
    rewrite !andb_true_iff in Hcs. destruct Hcs as [[_ Hb] Hw]. split.
    + apply (forallb_combine_seq _ _ 0 Hb k c Hk).
    + rewrite forallb_forall in Hw. apply Hw.
      apply nth_error_In with k. exact Hk.
Qed.

Lemma wf_children pts n :
  wf_node pts n = true -> Forall (fun c => wf_node pts c = true) (Children n).
Proof.
  intros H. apply wf_node_ok in H. apply Forall_forall. intros c Hc.
  apply In_nth_error in Hc. destruct Hc as [k Hk].
  apply (ok_child _ _ H k c Hk).
Qed.

(** ** Points within a radius *)

Lemma sqr_nonneg a : 0 <= sqr a.
Proof. unfold sqr. nra. Qed.

Lemma sqr_le_mono a b : 0 <= a <= b -> sqr a <= sqr b.
Proof. unfold sqr. intros H. nra. Qed.

Lemma sqr_neg a : sqr (- a) == sqr a.
Proof. unfold sqr. ring. Qed.

Lemma sqr_le_abs a b : - b <= a <= b -> sqr a <= sqr b.
Proof.
  intros H. assert (0 <= (b - a) * (b + a)) by (apply Qmult_le_0_compat; lra).
  unfold sqr. lra.
Qed.

Lemma radius_axis_sound lo hi q p :
  lo <= p <= hi ->
  fst (radius_axis lo hi q) <= sqr (p - q) <= snd (radius_axis lo hi q).
Proof.
  intros H. unfold radius_axis. qcases; cbn [fst snd]; split;
    try apply sqr_nonneg;
    try (apply sqr_le_abs; lra);
    try (rewrite <- (sqr_neg (p - q)); apply sqr_le_abs; lra).
Qed.

Lemma radius_bounds_sound n q p :
  in_closed (MinBounds n) (MaxBounds n) p = true ->
  fst (radius_bounds (NodeGetBounds n) q) <= Distance2BetweenPoints p q
  /\ Distance2BetweenPoints p q <= snd (radius_bounds (NodeGetBounds n) q).
Proof.
  intros H. apply in_closed_iff in H. destruct H as (H0 & H1 & H2).
  unfold radius_bounds, NodeGetBounds, Distance2BetweenPoints.
  cbn [fold_left axes array_get nth Nat.mul Nat.add fst snd].
  pose proof (radius_axis_sound _ _ (coord q 0) _ H0) as A0.
  pose proof (radius_axis_sound _ _ (coord q 1) _ H1) as A1.
  pose proof (radius_axis_sound _ _ (coord q 2) _ H2) as A2.
  split; lra.
Qed.

Lemma half_open_closed lo hi p :
  in_half_open lo hi p = true -> in_closed lo hi p = true.
Proof.
  rewrite in_half_open_iff, in_closed_iff. intros (H0 & H1 & H2).
  repeat split; lra.
Qed.

Lemma filter_all {A} (f : A -> bool) l :
  (forall a, In a l -> f a = true) -> filter f l = l.
Proof.
  induction l as [|a l IH]; intros H; [reflexivity|].
  cbn [filter]. rewrite (H a (or_introl eq_refl)). f_equal.
  apply IH. intros b Hb. apply H. right. exact Hb.
Qed.

Lemma filter_none {A} (f : A -> bool) l :
  (forall a, In a l -> f a = false) -> filter f l = [].
Proof.
  induction l as [|a l IH]; intros H; [reflexivity|].
  cbn [filter]. rewrite (H a (or_introl eq_refl)).
  apply IH. intros b Hb. apply H. right. exact Hb.
Qed.

Lemma filter_flat_map {A B} (f : B -> bool) (g : A -> list B) l :
  filter f (flat_map g l) = flat_map (fun a => filter f (g a)) l.
Proof.
  induction l as [|a l IH]; [reflexivity|].
  cbn [flat_map]. rewrite filter_app, IH. reflexivity.
Qed.

Lemma FindPointsWithinSquaredRadius_node_unfold pts n R2 q acc :
  FindPointsWithinSquaredRadius_node pts n R2 q acc
  = let '(outMinDst2, maximDist2) := radius_bounds (NodeGetBounds n) q in
    if Qltb R2 outMinDst2 then acc
    else if Qleb maximDist2 R2 then acc ++ ExportAllPointIds n
    else if IsLeaf n then
      acc ++ filter (within pts q R2)
               (firstn (Z.to_nat (NumberOfPoints n))
                  (match PointIdSet n with Some ids => ids | None => [] end))
    else fold_left
           (fun a c => FindPointsWithinSquaredRadius_node pts c R2 q a)
           (Children n) acc.
Proof.
  destruct n as [lo hi dlo dhi cnt ids cs]. unfold IsLeaf.
  cbn [FindPointsWithinSquaredRadius_node Children PointIdSet NumberOfPoints].
  destruct (radius_bounds _ q) as [a b].
  destruct (Qltb R2 a); [reflexivity|].
  destruct (Qleb b R2); [reflexivity|].
  destruct cs; reflexivity.
Qed.

(** The recursion appends exactly the ids beneath the node whose point
    is within the radius, in depth-first order. *)
Lemma FindPointsWithinSquaredRadius_node_filter pts R2 q n :
  wf_node pts n = true ->
  forall acc,
    FindPointsWithinSquaredRadius_node pts n R2 q acc
    = acc ++ filter (within pts q R2) (ExportAllPointIds n).
Proof.
  induction n as [n IH] using node_induction. intros W acc.
  pose proof (wf_node_ok _ _ W) as OK.
  rewrite FindPointsWithinSquaredRadius_node_unfold.
  assert (Hb : forall id, In id (ExportAllPointIds n) ->
      fst (radius_bounds (NodeGetBounds n) q)
      <= Distance2BetweenPoints (GetPoint pts id) q
      /\ Distance2BetweenPoints (GetPoint pts id) q
         <= snd (radius_bounds (NodeGetBounds n) q)).
  { intros id Hin. apply radius_bounds_sound, half_open_closed.
    apply (ok_ids _ _ OK id Hin). }
  destruct (radius_bounds (NodeGetBounds n) q) as [omin omax].
  cbn [fst snd] in Hb.
  destruct (Qltb R2 omin) eqn:E1.
  { apply Qltb_lt in E1. rewrite filter_none; [rewrite app_nil_r; reflexivity|].
    intros id Hin. unfold within. apply Qleb_nle.
    destruct (Hb id Hin). lra. }
  destruct (Qleb omax R2) eqn:E2.
  { apply Qleb_le in E2. rewrite filter_all; [reflexivity|].
    intros id Hin. unfold within. apply Qleb_le.
    destruct (Hb id Hin). lra. }
  rewrite (ExportAllPointIds_unfold n).
  destruct (IsLeaf n) eqn:L.
  - rewrite firstn_all2; [reflexivity|].
    rewrite (ok_count _ _ OK), (ExportAllPointIds_unfold n), L. lia.
  - pose proof (wf_children _ _ W) as Wc. clear Hb OK W L.
    revert acc. induction (Children n) as [|c cs IHcs]; intros acc.
    + cbn. rewrite app_nil_r. reflexivity.
    + inversion IH as [|? ? IHc IHrest]; subst.
      inversion Wc as [|? ? Wc1 Wc2]; subst.
      cbn [fold_left flat_map]. rewrite (IHc Wc1), (IHcs IHrest Wc2).
      rewrite filter_app, app_assoc. reflexivity.
Qed.

Lemma nodupb_NoDup l : nodupb l = true -> NoDup l.
Proof.
  induction l as [|a l IH]; intros H; constructor.
  - cbn [nodupb] in H. apply andb_true_iff in H. destruct H as [H _].
    intros Hin. apply negb_true_iff in H.
    assert (E : existsb (Z.eqb a) l = true).
    { apply existsb_exists. exists a. split; [exact Hin|apply Z.eqb_refl]. }
    congruence.
  - apply IH. cbn [nodupb] in H. apply andb_true_iff in H. apply H.
Qed.

Lemma wf_tree_parts pts root :
  wf_tree pts root = true ->
  wf_node pts root = true /\ NoDup (ExportAllPointIds root).
Proof.
  unfold wf_tree. intros H. apply andb_true_iff in H. destruct H as [H1 H2].
  split; [exact H1|]. apply nodupb_NoDup. exact H2.
Qed.

(** C2: on a well-formed octree that stores every id of the container,
    the radius query returns exactly the ids whose point is within the
    squared radius, each once. *)
Theorem FindPointsWithinSquaredRadius_exact l root R2 x :
  OctreeRootNode l = Some root ->
  wf_tree (the_points l) root = true ->
  stores_all (the_points l) root ->
  exists out,
    FindPointsWithinSquaredRadius l R2 x = Returns out /\
    NoDup out /\
    forall i,
      In i out <->
      (0 <= i < Z.of_nat (length (the_points l)))%Z /\
      Distance2BetweenPoints (GetPoint (the_points l) i) x <= R2.
Proof.
  intros Hr W Hall. apply wf_tree_parts in W. destruct W as [W ND].
  unfold FindPointsWithinSquaredRadius, BuildLocator. rewrite Hr.
  eexists. split; [reflexivity|].
  rewrite (FindPointsWithinSquaredRadius_node_filter _ _ _ _ W).
  cbn [app]. split.
  - apply NoDup_filter. exact ND.
  - intros i. rewrite filter_In. unfold within. rewrite Qleb_le. split.
    + intros [Hin Hd]. split; [|exact Hd].
      apply (ok_ids _ _ (wf_node_ok _ _ W) i Hin).
    + intros [Hi Hd]. split; [|exact Hd]. apply Hall. exact Hi.
Qed.

(** ** The polygonal representation *)

Lemma map_snd_child_refs r : map snd (child_refs r) = Children (snd r).
Proof.
  unfold child_refs. rewrite map_map. cbn [snd].
  generalize (Children (snd r)) as cs. generalize 0%nat as k.
  intros k cs. revert k.
  induction cs as [|c cs IH]; intros k; [reflexivity|].
  cbn [length seq combine map snd]. rewrite IH. reflexivity.
Qed.

Lemma nodes_weight_app a b :
  nodes_weight (a ++ b) = (nodes_weight a + nodes_weight b)%nat.
Proof.
  induction a as [|c a IH]; [reflexivity|]. simpl. rewrite IH. lia.
Qed.

Lemma nodes_weight_cons c l :
  nodes_weight (c :: l) = (node_count c + nodes_weight l)%nat.
Proof. reflexivity. Qed.

Lemma node_count_unfold n : node_count n = S (nodes_weight (Children n)).
Proof. destruct n. reflexivity. Qed.

(** With a level other than the requested one on every queued node, the
    loop ends within the budget and collects nothing more: the children
    it queues carry [nodeLevel + 1] as well. *)
Lemma collect_level_misses nodeLevel fuel queue nodesList :
  Forall (fun e => snd e <> nodeLevel) queue ->
  (nodes_weight (map (fun e => snd (fst e)) queue) <= fuel)%nat ->
  collect_level fuel nodeLevel queue nodesList = Some nodesList.
Proof.
  revert queue. induction fuel as [|fuel IH]; intros queue Hq Hw.
  - destruct queue as [|[r lv] rest]; [reflexivity|].
    cbn [map fst snd] in Hw. rewrite nodes_weight_cons, node_count_unfold in Hw.
    lia.
  - destruct queue as [|[r lv] rest]; [reflexivity|].
    inversion Hq as [|? ? Hlv Hrest]; subst. cbn [snd] in Hlv.
    cbn [collect_level]. apply Z.eqb_neq in Hlv. rewrite Hlv.
    cbn [map fst snd] in Hw.
    rewrite nodes_weight_cons, node_count_unfold in Hw.
    destruct (IsLeaf (snd r)) eqn:Hleaf; cbn [negb].
    + apply IH; [exact Hrest|]. lia.
    + apply IH.
      * apply Forall_app. split; [exact Hrest|].
        apply Forall_forall. intros e He. apply in_map_iff in He.
        destruct He as (c & <- & _). cbn [snd]. lia.
      * rewrite map_app, nodes_weight_app, map_map. cbn [fst snd].
        rewrite map_snd_child_refs. apply le_S_n.
        rewrite Nat.add_comm. exact Hw.
Qed.

(** For every octree and every level other than 0 the representation is
    empty. *)
Lemma GenerateRepresentation_below_root l root nodeLevel :
  OctreeRootNode l = Some root -> nodeLevel <> 0%Z ->
  GenerateRepresentation l nodeLevel = Returns (Some ([], [])).
Proof.
  intros Hr HL. unfold GenerateRepresentation. rewrite Hr.
  rewrite collect_level_misses; [reflexivity| |].
  - constructor; [cbn; congruence|constructor].
  - cbn. lia.
Qed.

(** At level 0 the root alone is emitted. *)
Lemma GenerateRepresentation_root l root :
  OctreeRootNode l = Some root ->
  GenerateRepresentation l 0 = Returns (Some (AddPolys root ([], []))).
Proof.
  intros Hr. unfold GenerateRepresentation. rewrite Hr.
  cbn [collect_level Z.eqb app]. destruct (node_count root); reflexivity.
Qed.

(** C8 fails on the code: the root of [subdivided_locator] has eight
    children at depth 1, and [GenerateRepresentation] at level 1 emits
    no box at all. *)
Theorem GenerateRepresentation_level_one_is_empty :
  (exists root,
     OctreeRootNode subdivided_locator = Some root /\
     length (nodes_at_depth 1 ([], root)) = 8%nat) /\
  GenerateRepresentation subdivided_locator 1 = Returns (Some ([], [])).
Proof.
  split.
  - eexists. split; reflexivity.
  - vm_compute. reflexivity.
Qed.

(** ** Queries without an octree *)

(** C5 fails on the code: on a locator that was never set up,
    [FindClosestPoint] returns -1, while [FindClosestNPoints], both
    radius queries and [FindClosestPointWithinRadius] read through the
    null root. *)
Theorem queries_without_root tolerance x :
  let l := NewLocator tolerance in
  FindClosestPoint l x = Returns ((-1)%Z, Fin (0 * 0 * 4)) /\
  FindClosestNPoints l 1 x = NullDereference /\
  FindPointsWithinRadius l 1 x = NullDereference /\
  FindPointsWithinSquaredRadius l 1 x = NullDereference /\
  FindClosestPointWithinRadius l 1 x = NullDereference.
Proof.
  repeat split.
Qed.

(** ** Order on doubles *)

Lemma dlt_Fin a b : dlt (Fin a) (Fin b) = true <-> a < b.
Proof. apply Qltb_lt. Qed.

Lemma dlt_Fin_false a b : dlt (Fin a) (Fin b) = false <-> b <= a.
Proof. apply Qltb_nlt. Qed.

Lemma dle_Fin a b : dle (Fin a) (Fin b) = true <-> a <= b.
Proof. apply Qleb_le. Qed.

Lemma dle_Fin_false a b : dle (Fin a) (Fin b) = false <-> b < a.
Proof. apply Qleb_nle. Qed.

Lemma deq_Fin a b : deq (Fin a) (Fin b) = true <-> a == b.
Proof. apply Qeqb_eq. Qed.

Lemma deq_Fin_false a b : deq (Fin a) (Fin b) = false <-> ~ a == b.
Proof.
  cbn [deq]. rewrite <- Qeqb_eq. destruct (Qeqb a b); split; congruence.
Qed.

(** Comparisons of doubles, read as facts on rationals. *)
Ltac dorder :=
  repeat match goal with
  | d : double |- _ => destruct d
  end;
  cbn [dlt dle deq dscale dadd dmin] in *;
  repeat match goal with
  | H : Qltb _ _ = true |- _ => apply Qltb_lt in H
  | H : Qltb _ _ = false |- _ => apply Qltb_nlt in H
  | H : Qleb _ _ = true |- _ => apply Qleb_le in H
  | H : Qleb _ _ = false |- _ => apply Qleb_nle in H
  | H : Qeqb _ _ = true |- _ => apply Qeqb_eq in H
  | H : Fin _ = Fin _ |- _ => injection H as H; try subst
  | |- Qltb _ _ = true => apply Qltb_lt
  | |- Qltb _ _ = false => apply Qltb_nlt
  | |- Qleb _ _ = true => apply Qleb_le
  | |- Qleb _ _ = false => apply Qleb_nle
  | |- Qeqb _ _ = true => apply Qeqb_eq
  end;
  try discriminate; try reflexivity; try lra.

Lemma dle_refl a : dle a a = true.
Proof. dorder. Qed.

Lemma dle_trans a b c : dle a b = true -> dle b c = true -> dle a c = true.
Proof. intros; dorder. Qed.

Lemma dlt_dle a b : dlt a b = true -> dle a b = true.
Proof. intros; dorder. Qed.

Lemma dlt_false_dle a b : dlt a b = false -> dle b a = true.
Proof. intros; dorder. Qed.

Lemma dle_dlt_false a b : dle a b = true -> dlt b a = false.
Proof. intros; dorder. Qed.

Lemma dle_false_dlt a b : dle a b = false -> dlt b a = true.
Proof. intros; dorder. Qed.

Lemma Distance2_nonneg a b : 0 <= Distance2BetweenPoints a b.
Proof.
  unfold Distance2BetweenPoints.
  pose proof (sqr_nonneg (coord a 0 - coord b 0)).
  pose proof (sqr_nonneg (coord a 1 - coord b 1)).
  pose proof (sqr_nonneg (coord a 2 - coord b 2)). lra.
Qed.

Lemma Distance2_sym a b :
  Distance2BetweenPoints a b == Distance2BetweenPoints b a.
Proof. unfold Distance2BetweenPoints, sqr. ring. Qed.

(** ** The scan of a leaf *)

Lemma scan_leaf_spec pts x ids :
  forall d0 i0,
    let r := scan_leaf pts x ids d0 i0 in
    dle (fst r) d0 = true /\
    (r = (d0, i0) \/
     In (snd r) ids /\
     fst r = Fin (Distance2BetweenPoints (GetPoint pts (snd r)) x)) /\
    (forall j, In j ids ->
       dlt (Fin (Distance2BetweenPoints (GetPoint pts j) x)) (fst r) = false).
Proof.
  induction ids as [|a ids IH]; intros d0 i0.
  - cbn. split; [apply dle_refl|]. split; [left; reflexivity|].
    intros j [].
  - cbn [scan_leaf].
    set (t := Distance2BetweenPoints (GetPoint pts a) x).
    pose proof (Distance2_nonneg (GetPoint pts a) x) as Hnn. fold t in Hnn.
    destruct (dlt (Fin t) d0) eqn:E.
    + destruct (deq (Fin t) (Fin 0)) eqn:Z.
      * cbn [fst snd]. split; [apply dlt_dle; exact E|].
        split; [right; split; [left; reflexivity|reflexivity]|].
        intros j Hj. pose proof (Distance2_nonneg (GetPoint pts j) x).
        dorder.
      * specialize (IH (Fin t) a). cbv zeta in IH.
        destruct (scan_leaf pts x ids (Fin t) a) as [d i].
        cbn [fst snd] in *. destruct IH as (I1 & I2 & I3).
        split; [eapply dle_trans; [exact I1|apply dlt_dle; exact E]|].
        split.
        { right. destruct I2 as [I2|[I2 I2']].
          - injection I2 as -> ->. split; [left; reflexivity|reflexivity].
          - split; [right; exact I2|exact I2']. }
        intros j [<-|Hj]; [|apply I3; exact Hj].
        fold t. clear - I1. dorder.
    + destruct (deq d0 (Fin 0)) eqn:Z.
      * cbn [fst snd]. split; [apply dle_refl|]. split; [left; reflexivity|].
        intros j Hj. pose proof (Distance2_nonneg (GetPoint pts j) x).
        clear - Z H. dorder.
      * specialize (IH d0 i0). cbv zeta in IH.
        destruct (scan_leaf pts x ids d0 i0) as [d i].
        cbn [fst snd] in *. destruct IH as (I1 & I2 & I3).
        split; [exact I1|]. split.
        { destruct I2 as [I2|[I2 I2']]; [left; exact I2|].
          right. split; [right; exact I2|exact I2']. }
        intros j [<-|Hj]; [|apply I3; exact Hj].
        fold t. clear - I1 E. dorder.
Qed.

(** The leaf scan returns a closest id of the leaf, or [-1] with the
    sentinel when the leaf holds none. *)
Lemma FindClosestPointInLeafNode_spec pts n x :
  let ids := match PointIdSet n with Some l => l | None => [] end in
  let r := FindClosestPointInLeafNode pts n x in
  (ids = [] /\ r = (SVTK_DOUBLE_MAX, (-1)%Z)) \/
  (In (snd r) ids /\
   fst r = Fin (Distance2BetweenPoints (GetPoint pts (snd r)) x) /\
   forall j, In j ids ->
     Distance2BetweenPoints (GetPoint pts (snd r)) x
     <= Distance2BetweenPoints (GetPoint pts j) x).
Proof.
  unfold FindClosestPointInLeafNode. destruct (PointIdSet n) as [l|].
  2:{ left. split; reflexivity. }
  cbv zeta. destruct l as [|a l]; [left; split; reflexivity|]. right.
  destruct (scan_leaf_spec pts x (a :: l) SVTK_DOUBLE_MAX (-1)%Z)
    as (S1 & S2 & S3).
  destruct (scan_leaf pts x (a :: l) SVTK_DOUBLE_MAX (-1)%Z) as [d i].
  cbn [fst snd] in *.
  destruct S2 as [S2|[S2 S2']].
  - injection S2 as -> ->. specialize (S3 a (or_introl eq_refl)).
    discriminate.
  - split; [exact S2|]. split; [exact S2'|].
    intros j Hj. specialize (S3 j Hj). rewrite S2' in S3.
    apply dlt_Fin_false in S3. exact S3.
Qed.

(** ** Distances to boxes *)

Lemma sqr_zero_le a : sqr 0 <= sqr a.
Proof. pose proof (sqr_nonneg a). unfold sqr in *. lra. Qed.

Lemma axis_gap_sound lo hi rlo rhi x p :
  lo <= p <= hi ->
  0 <= axis_gap lo hi rlo rhi x /\
  sqr (axis_gap lo hi rlo rhi x) <= sqr (p - x).
Proof.
  intros H. unfold axis_gap.
  destruct (Qltb x lo) eqn:E1; [apply Qltb_lt in E1|apply Qltb_nlt in E1].
  - destruct (Qeqb lo rlo); (split; [lra|]);
      [apply sqr_zero_le|apply sqr_le_abs; lra].
  - destruct (Qltb hi x) eqn:E2; [apply Qltb_lt in E2|apply Qltb_nlt in E2].
    + destruct (Qeqb hi rhi); (split; [lra|]); [apply sqr_zero_le|].
      rewrite <- (sqr_neg (p - x)). apply sqr_le_abs. lra.
    + split; [lra|apply sqr_zero_le].
Qed.

(** The distance to the data of a node that holds points is finite and
    bounds from below the distance to every point in its data box. *)
Lemma data_distance_lower_bound n root x p :
  NumberOfPoints n <> 0%Z ->
  in_closed (MinDataBounds n) (MaxDataBounds n) p = true ->
  exists g, GetDistance2ToBoundary n x root true = Fin g /\
            g <= Distance2BetweenPoints p x.
Proof.
  intros Hc Hp. unfold GetDistance2ToBoundary.
  apply Z.eqb_neq in Hc. rewrite Hc. cbn [andb].
  eexists. split; [reflexivity|].
  apply in_closed_iff in Hp. destruct Hp as (H0 & H1 & H2).
  unfold Distance2BetweenPoints.
  pose proof (axis_gap_sound _ _ (coord (MinDataBounds root) 0)
                (coord (MaxDataBounds root) 0) (coord x 0) _ H0) as [_ A0].
  pose proof (axis_gap_sound _ _ (coord (MinDataBounds root) 1)
                (coord (MaxDataBounds root) 1) (coord x 1) _ H1) as [_ A1].
  pose proof (axis_gap_sound _ _ (coord (MinDataBounds root) 2)
                (coord (MaxDataBounds root) 2) (coord x 2) _ H2) as [_ A2].
  lra.
Qed.

Lemma data_distance_empty n root x :
  NumberOfPoints n = 0%Z ->
  GetDistance2ToBoundary n x root true = SVTK_DOUBLE_MAX.
Proof.
  intros H. unfold GetDistance2ToBoundary. rewrite H. reflexivity.
Qed.

Lemma inner_face_nonneg f rf x : nonneg_or_max (inner_face f rf x).
Proof.
  unfold inner_face. destruct (Qeqb f rf); [exact I|apply Qabs_nonneg].
Qed.

Lemma dmin_nonneg a b :
  nonneg_or_max a -> nonneg_or_max b -> nonneg_or_max (dmin a b).
Proof. unfold dmin. destruct (dlt b a); trivial. Qed.

Lemma dmin_le_l a b : dle (dmin a b) a = true.
Proof. unfold dmin. destruct (dlt b a) eqn:E; [|apply dle_refl]. dorder. Qed.

Lemma dmin_le_r a b : dle (dmin a b) b = true.
Proof. unfold dmin. destruct (dlt b a) eqn:E; [apply dle_refl|]. dorder. Qed.

(** On an axis where the stored point [p] leaves the leaf's half-open
    range, the leaf has an inner face no farther from [x] than [p]. *)
Lemma axis_inner_face l h rl rh x p :
  l < x <= h -> rl < p <= rh -> ~ (l < p <= h) ->
  exists v,
    dmin (inner_face l rl x) (inner_face h rh x) = Fin v /\
    0 <= v /\ sqr v <= sqr (p - x).
Proof.
  intros Hx Hp Hout.
  assert (C : p <= l \/ h < p) by lra.
  pose proof (dmin_nonneg _ _ (inner_face_nonneg l rl x)
                (inner_face_nonneg h rh x)) as Hnn.
  destruct C as [C|C].
  - pose proof (dmin_le_l (inner_face l rl x) (inner_face h rh x)) as Hle.
    unfold inner_face at 3 in Hle.
    destruct (Qeqb l rl) eqn:E; [apply Qeqb_eq in E; lra|].
    destruct (dmin (inner_face l rl x) (inner_face h rh x)) as [v|];
      [|cbn [dle] in Hle; discriminate].
    exists v. split; [reflexivity|]. cbn [nonneg_or_max] in Hnn.
    split; [exact Hnn|].
    apply dle_Fin in Hle. rewrite Qabs_pos in Hle by lra.
    rewrite <- (sqr_neg (p - x)). apply sqr_le_abs. lra.
  - pose proof (dmin_le_r (inner_face l rl x) (inner_face h rh x)) as Hle.
    unfold inner_face at 3 in Hle.
    destruct (Qeqb h rh) eqn:E; [apply Qeqb_eq in E; lra|].
    destruct (dmin (inner_face l rl x) (inner_face h rh x)) as [v|];
      [|cbn [dle] in Hle; discriminate].
    exists v. split; [reflexivity|]. cbn [nonneg_or_max] in Hnn.
    split; [exact Hnn|].
    apply dle_Fin in Hle. rewrite Qabs_neg in Hle by lra.
    apply sqr_le_abs. lra.
Qed.

(** The distance to the inner boundary of the leaf that holds [x] is
    finite and bounds from below the distance to every point of the
    root's box that lies outside the leaf's box. *)
Lemma inner_boundary_lower_bound leaf root x p :
  in_half_open (MinBounds leaf) (MaxBounds leaf) x = true ->
  in_half_open (MinBounds root) (MaxBounds root) p = true ->
  in_half_open (MinBounds leaf) (MaxBounds leaf) p = false ->
  exists g, GetDistance2ToInnerBoundary leaf x root = Fin g /\
            g <= Distance2BetweenPoints p x.
Proof.
  intros Hx Hp Hout.
  apply in_half_open_iff in Hx. destruct Hx as (X0 & X1 & X2).
  apply in_half_open_iff in Hp. destruct Hp as (P0 & P1 & P2).
  apply not_true_iff_false in Hout. rewrite in_half_open_iff in Hout.
  unfold GetDistance2ToInnerBoundary.
  set (f := fun i => dmin (inner_face (coord (MinBounds leaf) i)
                             (coord (MinBounds root) i) (coord x i))
                          (inner_face (coord (MaxBounds leaf) i)
                             (coord (MaxBounds root) i) (coord x i))).
  change (exists g,
    match dmin (f 0%nat) (dmin (f 1%nat) (f 2%nat)) with
    | Fin d => Fin (sqr d) | SVTK_DOUBLE_MAX => SVTK_DOUBLE_MAX end = Fin g
    /\ g <= Distance2BetweenPoints p x).
  assert (N : forall i, nonneg_or_max (f i)).
  { intros i. apply dmin_nonneg; apply inner_face_nonneg. }
  assert (Hany : exists i v, (i < 3)%nat /\ f i = Fin v /\ 0 <= v /\
                             sqr v <= sqr (coord p i - coord x i)).
  { destruct (Qlt_le_dec (coord (MinBounds leaf) 0) (coord p 0)) as [A0|A0].
    2:{ destruct (axis_inner_face _ _ _ _ _ _ X0 P0) as (v & E & V); [lra|].
        exists 0%nat, v. split; [lia|]. split; [exact E|exact V]. }
    destruct (Qlt_le_dec (coord (MaxBounds leaf) 0) (coord p 0)) as [B0|B0].
    { destruct (axis_inner_face _ _ _ _ _ _ X0 P0) as (v & E & V); [lra|].
      exists 0%nat, v. split; [lia|]. split; [exact E|exact V]. }
    destruct (Qlt_le_dec (coord (MinBounds leaf) 1) (coord p 1)) as [A1|A1].
    2:{ destruct (axis_inner_face _ _ _ _ _ _ X1 P1) as (v & E & V); [lra|].
        exists 1%nat, v. split; [lia|]. split; [exact E|exact V]. }
    destruct (Qlt_le_dec (coord (MaxBounds leaf) 1) (coord p 1)) as [B1|B1].
    { destruct (axis_inner_face _ _ _ _ _ _ X1 P1) as (v & E & V); [lra|].
      exists 1%nat, v. split; [lia|]. split; [exact E|exact V]. }
    destruct (Qlt_le_dec (coord (MinBounds leaf) 2) (coord p 2)) as [A2|A2].
    2:{ destruct (axis_inner_face _ _ _ _ _ _ X2 P2) as (v & E & V); [lra|].
        exists 2%nat, v. split; [lia|]. split; [exact E|exact V]. }
    destruct (Qlt_le_dec (coord (MaxBounds leaf) 2) (coord p 2)) as [B2|B2].
    { destruct (axis_inner_face _ _ _ _ _ _ X2 P2) as (v & E & V); [lra|].
      exists 2%nat, v. split; [lia|]. split; [exact E|exact V]. }
    exfalso. apply Hout. repeat split; assumption. }
  destruct Hany as (i & v & Hi & Ei & Vnn & Vle).
  assert (Hle : dle (dmin (f 0%nat) (dmin (f 1%nat) (f 2%nat))) (Fin v) = true).
  { rewrite <- Ei.
    assert (Hi' : i = 0%nat \/ i = 1%nat \/ i = 2%nat) by lia.
    destruct Hi' as [-> | [-> | ->]].
    - apply dmin_le_l.
    - eapply dle_trans; [apply dmin_le_r|apply dmin_le_l].
    - eapply dle_trans; [apply dmin_le_r|apply dmin_le_r]. }
  assert (Nm : nonneg_or_max (dmin (f 0%nat) (dmin (f 1%nat) (f 2%nat)))).
  { apply dmin_nonneg; [apply N|apply dmin_nonneg; apply N]. }
  destruct (dmin (f 0%nat) (dmin (f 1%nat) (f 2%nat))) as [m|];
    [|cbn [dle] in Hle; discriminate].
  exists (sqr m). split; [reflexivity|].
  apply dle_Fin in Hle. cbn [nonneg_or_max] in Nm.
  assert (sqr m <= sqr v) by (apply sqr_le_mono; lra).
  assert (sqr (coord p i - coord x i) <= Distance2BetweenPoints p x).
  { unfold Distance2BetweenPoints.
    pose proof (sqr_nonneg (coord p 0 - coord x 0)).
    pose proof (sqr_nonneg (coord p 1 - coord x 1)).
    pose proof (sqr_nonneg (coord p 2 - coord x 2)).
    assert (Hi' : i = 0%nat \/ i = 1%nat \/ i = 2%nat) by lia.
    destruct Hi' as [-> | [-> | ->]]; lra. }
  lra.
Qed.

(** ** The tiling of a node by its children *)

Lemma In_child_refs r c :
  In c (child_refs r) <->
  exists k, nth_error (Children (snd r)) k = Some (snd c) /\
            fst c = fst r ++ [k].
Proof.
  unfold child_refs.
  assert (G : forall cs s,
    In c (map (fun ic : nat * node => (fst r ++ [fst ic], snd ic))
            (combine (seq s (length cs)) cs)) <->
    exists k, nth_error cs k = Some (snd c) /\ fst c = fst r ++ [(s + k)%nat]).
  { induction cs as [|a cs IH]; intros s.
    - cbn. split; [intros []|]. intros (k & Hk & _). destruct k; discriminate.
    - cbn [length seq combine map In]. rewrite IH. split.
      + intros [<-|(k & Hk & E)].
        * exists 0%nat. cbn. rewrite Nat.add_0_r. auto.
        * exists (S k). cbn [nth_error]. split; [exact Hk|].
          rewrite E. do 2 f_equal. lia.
      + intros (k & Hk & E). destruct k as [|k].
        * left. cbn in Hk. injection Hk as ->. rewrite Nat.add_0_r in E.
          destruct c as [pc nc]. cbn [fst snd] in *. rewrite E. reflexivity.
        * right. exists k. split; [exact Hk|]. rewrite E. do 2 f_equal. lia. }
  specialize (G (Children (snd r)) 0%nat). exact G.
Qed.

Lemma child_ref_at r k c :
  nth_error (Children (snd r)) k = Some c ->
  In (fst r ++ [k], c) (child_refs r).
Proof.
  intros H. apply In_child_refs. exists k. cbn [fst snd]. auto.
Qed.

Lemma GetChildIndex_lt n x : (GetChildIndex n x < 8)%nat.
Proof.
  unfold GetChildIndex.
  destruct (Qltb _ (coord x 0)), (Qltb _ (coord x 1)), (Qltb _ (coord x 2));
    cbn; lia.
Qed.

Lemma GetChildIndex_bits n x a :
  (a < 3)%nat ->
  Nat.testbit (GetChildIndex n x) a
  = Qltb (coord (MidPoint n) a) (coord x a).
Proof.
  intros Ha. assert (Ha' : a = 0%nat \/ a = 1%nat \/ a = 2%nat) by lia.
  unfold GetChildIndex.
  destruct (Qltb _ (coord x 0)) eqn:E0, (Qltb _ (coord x 1)) eqn:E1,
           (Qltb _ (coord x 2)) eqn:E2;
    destruct Ha' as [-> | [-> | ->]]; rewrite ?E0, ?E1, ?E2; reflexivity.
Qed.

Lemma index_from_bits k :
  (k < 8)%nat ->
  k = ((if Nat.testbit k 0 then 1 else 0)
       + (if Nat.testbit k 1 then 2 else 0)
       + (if Nat.testbit k 2 then 4 else 0))%nat.
Proof.
  intros H.
  destruct k as [|[|[|[|[|[|[|[|k]]]]]]]]; try reflexivity. lia.
Qed.

Lemma MidPoint_coord n a :
  (a < 3)%nat ->
  coord (MidPoint n) a
  == (coord (MinBounds n) a + coord (MaxBounds n) a) * (1 # 2).
Proof.
  intros Ha. assert (Ha' : a = 0%nat \/ a = 1%nat \/ a = 2%nat) by lia.
  unfold MidPoint. destruct Ha' as [-> | [-> | ->]]; cbn [coord]; lra.
Qed.

(** The bounds of child [k] on one axis. *)
Lemma child_box_axis n k c a :
  has_child_box n (k, c) = true -> (a < 3)%nat ->
  coord (MinBounds c) a
  == (if Nat.testbit k a then coord (MidPoint n) a
      else coord (MinBounds n) a) /\
  coord (MaxBounds c) a
  == (if Nat.testbit k a then coord (MaxBounds n) a
      else coord (MidPoint n) a).
Proof.
  intros H Ha. unfold has_child_box in H. cbn [fst snd] in H.
  apply andb_true_iff in H. destruct H as [H1 H2].
  apply point_eqb_iff in H1. apply point_eqb_iff in H2.
  unfold child_box in H1, H2. cbn [fst snd coord] in H1, H2.
  assert (Ha' : a = 0%nat \/ a = 1%nat \/ a = 2%nat) by lia.
  destruct Ha' as [-> | [-> | ->]]; split; tauto.
Qed.

Lemma box_ordered_axis n a :
  in_closed (MinBounds n) (MaxBounds n) (MaxBounds n) = true ->
  (a < 3)%nat -> coord (MinBounds n) a <= coord (MaxBounds n) a.
Proof.
  intros H Ha. apply in_closed_iff in H.
  assert (Ha' : a = 0%nat \/ a = 1%nat \/ a = 2%nat) by lia.
  destruct Ha' as [-> | [-> | ->]]; tauto.
Qed.

Lemma in_half_open_axes lo hi p :
  in_half_open lo hi p = true <->
  forall a, (a < 3)%nat -> coord lo a < coord p a <= coord hi a.
Proof.
  rewrite in_half_open_iff. split.
  - intros (H0 & H1 & H2) a Ha.
    assert (Ha' : a = 0%nat \/ a = 1%nat \/ a = 2%nat) by lia.
    destruct Ha' as [-> | [-> | ->]]; assumption.
  - intros H. repeat split; apply H; lia.
Qed.

(** The child picked by [GetChildIndex] holds the point. *)
Lemma child_box_contains n c x :
  in_closed (MinBounds n) (MaxBounds n) (MaxBounds n) = true ->
  has_child_box n (GetChildIndex n x, c) = true ->
  in_half_open (MinBounds n) (MaxBounds n) x = true ->
  in_half_open (MinBounds c) (MaxBounds c) x = true.
Proof.
  intros Hord Hc Hx. rewrite in_half_open_axes in *. intros a Ha.
  destruct (child_box_axis _ _ _ a Hc Ha) as [L H].
  rewrite (GetChildIndex_bits n x a Ha) in L, H.
  specialize (Hx a Ha).
  destruct (Qltb (coord (MidPoint n) a) (coord x a)) eqn:E;
    [apply Qltb_lt in E|apply Qltb_nlt in E]; lra.
Qed.

(** A child's box lies within its parent's. *)
Lemma child_box_subset n k c y :
  in_closed (MinBounds n) (MaxBounds n) (MaxBounds n) = true ->
  has_child_box n (k, c) = true ->
  in_half_open (MinBounds c) (MaxBounds c) y = true ->
  in_half_open (MinBounds n) (MaxBounds n) y = true.
Proof.
  intros Hord Hc Hy. rewrite in_half_open_axes in *. intros a Ha.
  destruct (child_box_axis _ _ _ a Hc Ha) as [L H].
  pose proof (box_ordered_axis n a Hord Ha) as O.
  pose proof (MidPoint_coord n a Ha) as M.
  specialize (Hy a Ha). destruct (Nat.testbit k a); lra.
Qed.

(** A point in the box of child [k] has child index [k]. *)
Lemma child_index_of_contained n k c y :
  (k < 8)%nat ->
  has_child_box n (k, c) = true ->
  in_half_open (MinBounds c) (MaxBounds c) y = true ->
  GetChildIndex n y = k.
Proof.
  intros Hk Hc Hy. rewrite in_half_open_axes in Hy.
  assert (B : forall a, (a < 3)%nat ->
            Qltb (coord (MidPoint n) a) (coord y a) = Nat.testbit k a).
  { intros a Ha. destruct (child_box_axis _ _ _ a Hc Ha) as [L H].
    specialize (Hy a Ha).
    destruct (Nat.testbit k a); [apply Qltb_lt|apply Qltb_nlt]; lra. }
  rewrite (index_from_bits k Hk). unfold GetChildIndex.
  cbv zeta. rewrite (B 0%nat), (B 1%nat), (B 2%nat) by lia. reflexivity.
Qed.

(** ** The leaf container *)

Lemma pick_child_spec {B} (body : node -> B) (dflt : B) cs k :
  (fix pick (l : list node) (k : nat) {struct l} : B :=
     match l, k with
     | c :: _, O => body c
     | _ :: l', S k' => pick l' k'
     | [], _ => dflt
     end) cs k
  = match nth_error cs k with Some c => body c | None => dflt end.
Proof.
  revert k. induction cs as [|c cs IH]; intros k.
  - destruct k; reflexivity.
  - destruct k as [|k]; [reflexivity|]. cbn [nth_error]. apply IH.
Qed.

Lemma GetLeafContainer_from_unfold p n x :
  GetLeafContainer_from p n x
  = if IsLeaf n then (p, n)
    else match nth_error (Children n) (GetChildIndex n x) with
         | Some c => GetLeafContainer_from (p ++ [GetChildIndex n x]) c x
         | None => (p, n)
         end.
Proof.
  destruct n as [lo hi dlo dhi cnt ids cs]. unfold IsLeaf.
  cbn [GetLeafContainer_from Children].
  set (i := GetChildIndex _ x).
  destruct cs as [|c0 cs0]; [reflexivity|].
  exact (pick_child_spec
           (fun c => GetLeafContainer_from (p ++ [i]) c x) _ (c0 :: cs0) i).
Qed.

Lemma ids_child_incl n k c :
  nth_error (Children n) k = Some c ->
  incl (ExportAllPointIds c) (ExportAllPointIds n).
Proof.
  intros H j Hj. rewrite (ExportAllPointIds_unfold n).
  unfold IsLeaf. destruct (Children n) as [|c0 cs] eqn:E.
  - destruct k; discriminate.
  - rewrite <- E in *. apply in_flat_map. exists c. split; [|exact Hj].
    apply nth_error_In with k. exact H.
Qed.

Lemma ids_internal n j :
  IsLeaf n = false ->
  In j (ExportAllPointIds n) ->
  exists k c, nth_error (Children n) k = Some c /\
              In j (ExportAllPointIds c).
Proof.
  intros L Hj. rewrite ExportAllPointIds_unfold, L in Hj.
  apply in_flat_map in Hj. destruct Hj as (c & Hc & Hj).
  apply In_nth_error in Hc. destruct Hc as [k Hk]. eauto.
Qed.

Lemma wf_child_exists pts n x :
  wf_node pts n = true -> IsLeaf n = false ->
  exists c, nth_error (Children n) (GetChildIndex n x) = Some c.
Proof.
  intros W L. pose proof (ok_eight _ _ (wf_node_ok _ _ W) L) as H8.
  destruct (nth_error (Children n) (GetChildIndex n x)) as [c|] eqn:E;
    [eauto|].
  apply nth_error_None in E. pose proof (GetChildIndex_lt n x). lia.
Qed.

Lemma wf_child_index_lt pts n k c :
  wf_node pts n = true -> nth_error (Children n) k = Some c -> (k < 8)%nat.
Proof.
  intros W H. assert (L : IsLeaf n = false).
  { unfold IsLeaf. destruct (Children n); [destruct k; discriminate|].
    reflexivity. }
  rewrite <- (ok_eight _ _ (wf_node_ok _ _ W) L).
  apply nth_error_Some. congruence.
Qed.

Lemma node_at_app n q1 q2 c :
  node_at n q1 = Some c -> node_at n (q1 ++ q2) = node_at c q2.
Proof.
  revert n. induction q1 as [|k q1 IH]; intros n H.
  - cbn in H. injection H as ->. reflexivity.
  - cbn [node_at app] in *.
    destruct (nth_error (Children n) k) as [c'|]; [|discriminate].
    apply IH. exact H.
Qed.

(** The container is a leaf of the subtree, found at the path that is
    returned, and holds some of the subtree's ids. *)
Lemma GetLeafContainer_from_leaf pts x n :
  wf_node pts n = true ->
  forall p,
    exists q,
      fst (GetLeafContainer_from p n x) = p ++ q /\
      node_at n q = Some (snd (GetLeafContainer_from p n x)) /\
      IsLeaf (snd (GetLeafContainer_from p n x)) = true /\
      wf_node pts (snd (GetLeafContainer_from p n x)) = true /\
      incl (ExportAllPointIds (snd (GetLeafContainer_from p n x)))
           (ExportAllPointIds n).
Proof.
  induction n as [n IH] using node_induction. intros W p.
  rewrite GetLeafContainer_from_unfold.
  destruct (IsLeaf n) eqn:L.
  - exists []. cbn [fst snd node_at]. rewrite app_nil_r.
    repeat split; try assumption. apply incl_refl.
  - destruct (wf_child_exists pts n x W L) as [c Hc]. rewrite Hc.
    rewrite Forall_forall in IH.
    pose proof (nth_error_In _ _ Hc) as Hin.
    destruct (ok_child _ _ (wf_node_ok _ _ W) _ _ Hc) as [_ Wc].
    destruct (IH c Hin Wc (p ++ [GetChildIndex n x]))
      as (q & E & A & Lf & Wl & I).
    exists (GetChildIndex n x :: q). rewrite E, <- app_assoc.
    split; [reflexivity|]. cbn [node_at]. rewrite Hc.
    repeat split; try assumption.
    eapply incl_tran; [exact I|]. eapply ids_child_incl. exact Hc.
Qed.

(** For a point inside the node's box the container's box holds the
    point, lies within the node's box, and excludes every stored point
    of the subtree that is kept in another leaf. *)
Lemma GetLeafContainer_from_box pts x n :
  wf_node pts n = true ->
  in_half_open (MinBounds n) (MaxBounds n) x = true ->
  forall p,
    let leaf := snd (GetLeafContainer_from p n x) in
    in_half_open (MinBounds leaf) (MaxBounds leaf) x = true /\
    (forall y, in_half_open (MinBounds leaf) (MaxBounds leaf) y = true ->
               in_half_open (MinBounds n) (MaxBounds n) y = true) /\
    (forall j, In j (ExportAllPointIds n) ->
               In j (ExportAllPointIds leaf) \/
               in_half_open (MinBounds leaf) (MaxBounds leaf) (GetPoint pts j)
               = false).
Proof.
  induction n as [n IH] using node_induction. intros W Hx p.
  rewrite GetLeafContainer_from_unfold.
  destruct (IsLeaf n) eqn:L.
  - cbn [snd]. split; [exact Hx|]. split; [auto|]. intros j Hj. left. exact Hj.
  - destruct (wf_child_exists pts n x W L) as [c Hc]. rewrite Hc.
    rewrite Forall_forall in IH.
    pose proof (nth_error_In _ _ Hc) as Hin.
    pose proof (wf_node_ok _ _ W) as OK.
    destruct (ok_child _ _ OK _ _ Hc) as [Bc Wc].
    pose proof (child_box_contains n c x (ok_box _ _ OK) Bc Hx) as Hxc.
    destruct (IH c Hin Wc Hxc (p ++ [GetChildIndex n x])) as (I1 & I2 & I3).
    cbv zeta. split; [exact I1|]. split.
    + intros y Hy. eapply child_box_subset; [apply (ok_box _ _ OK)|exact Bc|].
      apply I2. exact Hy.
    + intros j Hj.
      destruct (ids_internal n j L Hj) as (k' & c' & Hc' & Hj').
      destruct (Nat.eq_dec k' (GetChildIndex n x)) as [->|Hne].
      * rewrite Hc in Hc'. injection Hc' as <-. apply I3. exact Hj'.
      * right. apply not_true_iff_false. intros Hin'.
        apply I2 in Hin'.
        destruct (ok_child _ _ OK _ _ Hc') as [Bc' Wc'].
        pose proof (ok_ids _ _ (wf_node_ok _ _ Wc') j Hj') as (_ & Hb & _).
        pose proof (child_index_of_contained n _ c _
                      (GetChildIndex_lt n x) Bc Hin') as E1.
        pose proof (child_index_of_contained n k' c' _
                      (wf_child_index_lt _ _ _ _ W Hc') Bc' Hb) as E2.
        congruence.
Qed.

(** ** Ids the sphere search can reach *)

Lemma reach_under maskNode r j :
  reach maskNode r j -> In j (ExportAllPointIds (snd r)).
Proof.
  induction 1 as [r j L Hj|r c j L Hc Hm Hr IH]; [exact Hj|].
  apply In_child_refs in Hc. destruct Hc as (k & Hk & _).
  eapply ids_child_incl; [exact Hk|exact IH].
Qed.

Lemma is_mask_true maskNode r :
  is_mask maskNode r = true -> maskNode = Some (fst r).
Proof.
  unfold is_mask, path_eqb. destruct maskNode as [m|]; [|discriminate].
  destruct (list_eq_dec Nat.eq_dec (fst r) m); [|discriminate].
  intros _. congruence.
Qed.

(** Every id beneath a node can be reached, or lies beneath the mask
    node, strictly below the node. *)
Lemma reach_or_masked maskNode j n :
  forall p,
    In j (ExportAllPointIds n) ->
    reach maskNode (p, n) j \/
    exists q c, q <> [] /\ maskNode = Some (p ++ q) /\
                node_at n q = Some c /\ In j (ExportAllPointIds c).
Proof.
  induction n as [n IH] using node_induction. intros p Hj.
  destruct (IsLeaf n) eqn:L.
  - left. apply reach_leaf; assumption.
  - destruct (ids_internal n j L Hj) as (k & c & Hc & Hjc).
    rewrite Forall_forall in IH.
    specialize (IH c (nth_error_In _ _ Hc) (p ++ [k]) Hjc).
    destruct (is_mask maskNode (p ++ [k], c)) eqn:M.
    + right. apply is_mask_true in M. cbn [fst] in M.
      exists [k], c. split; [discriminate|]. split; [exact M|].
      cbn [node_at]. rewrite Hc. auto.
    + destruct IH as [IH|(q & c' & Hq & Hm & Hat & Hj')].
      * left. eapply reach_child; [exact L| |exact M|exact IH].
        apply (child_ref_at (p, n) k c). exact Hc.
      * right. exists (k :: q), c'. split; [discriminate|].
        split; [rewrite Hm, <- app_assoc; reflexivity|].
        cbn [node_at]. rewrite Hc. auto.
Qed.

(** ** The pruned sphere search *)

Lemma nodes_weight_filter (f : node_ref -> bool) (l : list node_ref) :
  (nodes_weight (map snd (filter f l)) <= nodes_weight (map snd l))%nat.
Proof.
  induction l as [|r l IH]; [apply le_n|].
  cbn [filter]. destruct (f r); cbn [map]; rewrite ?nodes_weight_cons; lia.
Qed.

Lemma nodes_weight_rev (l : list node) :
  nodes_weight (rev l) = nodes_weight l.
Proof.
  induction l as [|c l IH]; [reflexivity|].
  cbn [rev]. rewrite nodes_weight_app, !nodes_weight_cons, IH.
  change (nodes_weight []) with 0%nat. lia.
Qed.

Lemma leaf_ids n :
  IsLeaf n = true ->
  ExportAllPointIds n = match PointIdSet n with Some l => l | None => [] end.
Proof. intros L. rewrite ExportAllPointIds_unfold, L. reflexivity. Qed.

Lemma ids_empty_count pts n :
  wf_node pts n = true -> NumberOfPoints n = 0%Z -> ExportAllPointIds n = [].
Proof.
  intros W H. rewrite (ok_count _ _ (wf_node_ok _ _ W)) in H.
  destruct (ExportAllPointIds n); [reflexivity|]. cbn [length] in H. lia.
Qed.

Lemma child_refs_wf pts r c :
  wf_node pts (snd r) = true -> In c (child_refs r) ->
  wf_node pts (snd c) = true /\
  incl (ExportAllPointIds (snd c)) (ExportAllPointIds (snd r)).
Proof.
  intros W Hc. apply In_child_refs in Hc. destruct Hc as (k & Hk & _).
  split.
  - apply (ok_child _ _ (wf_node_ok _ _ W) _ _ Hk).
  - eapply ids_child_incl. exact Hk.
Qed.

(** A child that fails the push test without being the mask node holds
    no id within the reference distance. *)
Lemma sphere_push_test_pruned pts root x radius2 maskNode refval r c j :
  wf_node pts (snd r) = true ->
  In c (child_refs r) ->
  is_mask maskNode c = false ->
  sphere_push_test root x radius2 maskNode refval c = false ->
  In j (ExportAllPointIds (snd c)) ->
  dlt refval (Fin (dist2 pts x j)) = true.
Proof.
  intros W Hc Hm F Hj.
  destruct (child_refs_wf pts r c W Hc) as [Wc _].
  unfold sphere_push_test in F.
  rewrite Hm in F. cbn [negb andb] in F. apply orb_false_iff in F.
  destruct F as [F _].
  destruct (NumberOfPoints (snd c) =? 0)%Z eqn:E.
  - apply Z.eqb_eq in E. rewrite (ids_empty_count pts _ Wc E) in Hj.
    destruct Hj.
  - cbn [negb] in F. apply Z.eqb_neq in E.
    pose proof (ok_ids _ _ (wf_node_ok _ _ Wc) j Hj) as (_ & _ & Hd).
    destruct (data_distance_lower_bound (snd c) root x _ E Hd) as (g & Eg & Hg).
    rewrite Eg in F. unfold dist2. clear - F Hg. dorder.
Qed.

Lemma sphere_loop_spec pts root x radius2 maskNode refDist2 :
  forall fuel nodesBase minDist2 pointIndx,
    (nodes_weight (map snd nodesBase) <= fuel)%nat ->
    Forall (fun r => wf_node pts (snd r) = true) nodesBase ->
    exists m' i',
      sphere_loop fuel pts root x radius2 maskNode refDist2 nodesBase
        minDist2 pointIndx = Some (m', i') /\
      dle m' minDist2 = true /\
      ((m' = minDist2 /\ i' = pointIndx) \/
       (dlt m' minDist2 = true /\ m' = Fin (dist2 pts x i') /\
        exists r, In r nodesBase /\ In i' (ExportAllPointIds (snd r)))) /\
      (forall r j, In r nodesBase -> reach maskNode r j ->
         dlt (Fin (dist2 pts x j)) m' = false \/
         beyond_ref pts x refDist2 j).
Proof.
  induction fuel as [|fuel IH]; intros S m i Hw HS.
  - destruct S as [|r rest].
    + exists m, i. cbn. split; [reflexivity|]. split; [apply dle_refl|].
      split; [left; auto|]. intros r j [].
    + cbn [map] in Hw. rewrite nodes_weight_cons, node_count_unfold in Hw. lia.
  - destruct S as [|r rest].
    { exists m, i. cbn. split; [reflexivity|]. split; [apply dle_refl|].
      split; [left; auto|]. intros r j []. }
    cbn [sphere_loop]. destruct (dlt (Fin 0) m) eqn:Epos.
    2:{ exists m, i. split; [reflexivity|]. split; [apply dle_refl|].
        split; [left; auto|]. intros r0 j _ _. left.
        pose proof (Distance2_nonneg (GetPoint pts j) x) as Hnn.
        unfold dist2. clear - Epos Hnn. dorder. }
    inversion HS as [|? ? Wr Wrest]; subst.
    cbn [map] in Hw. rewrite nodes_weight_cons, node_count_unfold in Hw.
    destruct (IsLeaf (snd r)) eqn:L; cbn [negb].
    + (* a leaf is scanned *)
      pose proof (FindClosestPointInLeafNode_spec pts (snd r) x) as LS.
      cbv zeta in LS. rewrite <- (leaf_ids _ L) in LS.
      destruct (FindClosestPointInLeafNode pts (snd r) x) as [t ti].
      cbn [fst snd] in LS.
      destruct (dlt t m) eqn:Et.
      * destruct (IH rest t ti) as (m' & i' & E & R1 & R2 & R3);
          [lia|exact Wrest|].
        exists m', i'. split; [exact E|].
        assert (Ht : t = Fin (dist2 pts x ti) /\
                     In ti (ExportAllPointIds (snd r)) /\
                     forall j, In j (ExportAllPointIds (snd r)) ->
                               dist2 pts x ti <= dist2 pts x j).
        { destruct LS as [[_ LS]|(A & B & C)].
          - injection LS as -> ->. destruct m; discriminate.
          - auto. }
        destruct Ht as (Ht & Hti & Hmin).
        split; [eapply dle_trans; [exact R1|apply dlt_dle; exact Et]|].
        split.
        { right. destruct R2 as [[-> ->]|(A & B & r' & Hr' & C)].
          - split; [exact Et|]. split; [exact Ht|].
            exists r. split; [left; reflexivity|exact Hti].
          - split; [clear - A Et; dorder|]. split; [exact B|].
            exists r'. split; [right; exact Hr'|exact C]. }
        intros r0 j [<-|Hr0] Hreach; [|apply (R3 r0 j Hr0 Hreach)].
        left. apply reach_under in Hreach. specialize (Hmin j Hreach).
        rewrite Ht in R1. clear - R1 Hmin. dorder.
      * destruct (IH rest m i) as (m' & i' & E & R1 & R2 & R3);
          [lia|exact Wrest|].
        exists m', i'. split; [exact E|]. split; [exact R1|]. split.
        { destruct R2 as [R2|(A & B & r' & Hr' & C)]; [left; exact R2|].
          right. split; [exact A|]. split; [exact B|].
          exists r'. split; [right; exact Hr'|exact C]. }
        intros r0 j [<-|Hr0] Hreach; [|apply (R3 r0 j Hr0 Hreach)].
        left. apply reach_under in Hreach.
        destruct LS as [[LS _]|(A & B & C)].
        { rewrite LS in Hreach. destruct Hreach. }
        specialize (C j Hreach). unfold dist2.
        clear - C B Et R1. dorder.
    + (* the children of an internal node are pushed *)
      set (pushed := sphere_suspects root x radius2 maskNode
                       (read_ref refDist2 m) r).
      assert (Hsub : forall c, In c pushed -> In c (child_refs r)).
      { intros c Hc. unfold pushed, sphere_suspects in Hc.
        apply filter_In in Hc. apply Hc. }
      destruct (IH (rev pushed ++ rest) m i) as (m' & i' & E & R1 & R2 & R3).
      { rewrite map_app, nodes_weight_app, map_rev, nodes_weight_rev.
        apply le_S_n. eapply Nat.le_trans; [|exact Hw].
        apply le_n_S. apply Nat.add_le_mono_r.
        unfold pushed, sphere_suspects. rewrite <- map_snd_child_refs.
        apply nodes_weight_filter. }
      { apply Forall_app. split; [|exact Wrest].
        apply Forall_forall. intros c Hc. apply in_rev in Hc.
        apply (child_refs_wf pts r c Wr (Hsub c Hc)). }
      exists m', i'. split; [exact E|]. split; [exact R1|]. split.
      { destruct R2 as [R2|(A & B & r' & Hr' & C)]; [left; exact R2|].
        right. split; [exact A|]. split; [exact B|].
        apply in_app_or in Hr'. destruct Hr' as [Hr'|Hr'].
        - apply in_rev in Hr'. exists r. split; [left; reflexivity|].
          apply (child_refs_wf pts r r' Wr (Hsub r' Hr')). exact C.
        - exists r'. split; [right; exact Hr'|exact C]. }
      intros r0 j [<-|Hr0] Hreach.
      2:{ apply (R3 r0 j); [apply in_or_app; right; exact Hr0|exact Hreach]. }
      inversion Hreach as [? ? L' Hj|? c ? L' Hc Hm Hrc]; subst.
      { congruence. }
      destruct (sphere_push_test root x radius2 maskNode
                  (read_ref refDist2 m) c) eqn:T.
      * apply (R3 c j); [|exact Hrc]. apply in_or_app. left.
        apply -> in_rev. unfold pushed, sphere_suspects.
        apply filter_In. split; assumption.
      * pose proof (sphere_push_test_pruned pts root x radius2 maskNode
                      _ r c j Wr Hc Hm T (reach_under _ _ _ Hrc)) as P.
        destruct refDist2 as [|rv]; cbn [read_ref beyond_ref] in *.
        -- left. clear - P R1. dorder.
        -- right. exact P.
Qed.

(** ** Closest point *)

Lemma node_count_weight root :
  (nodes_weight (map snd [(@nil nat, root)]) <= node_count root)%nat.
Proof.
  cbn [map snd]. rewrite nodes_weight_cons.
  change (nodes_weight []) with 0%nat. lia.
Qed.

Lemma ids_nonempty pts root :
  wf_node pts root = true -> NumberOfPoints root <> 0%Z ->
  exists j, In j (ExportAllPointIds root).
Proof.
  intros W H. rewrite (ok_count _ _ (wf_node_ok _ _ W)) in H.
  destruct (ExportAllPointIds root) as [|j l]; [cbn in H; lia|].
  exists j. left. reflexivity.
Qed.

(** The leaf scan followed by the sphere search that masks the leaf
    yields a closest id of the whole octree. *)
Lemma sphere_phase_closest pts root x pL L :
  wf_node pts root = true ->
  NumberOfPoints root <> 0%Z ->
  node_at root pL = Some L ->
  IsLeaf L = true ->
  incl (ExportAllPointIds L) (ExportAllPointIds root) ->
  exists i,
    take_closer
      (snd (FindClosestPointInLeafNode pts L x),
       fst (FindClosestPointInLeafNode pts L x))
      (FindClosestPointInSphereWithoutTolerance pts root x
         (fst (FindClosestPointInLeafNode pts L x)) (Some pL))
    = Some (i, Fin (dist2 pts x i)) /\
    closest_id pts root x i.
Proof.
  intros W Hne Hat HL Hincl.
  pose proof (FindClosestPointInLeafNode_spec pts L x) as LS.
  cbv zeta in LS. rewrite <- (leaf_ids _ HL) in LS.
  destruct (FindClosestPointInLeafNode pts L x) as [d0 i0].
  cbn [fst snd] in *.
  unfold FindClosestPointInSphereWithoutTolerance, FindClosestPointInSphere.
  destruct (sphere_loop_spec pts root x d0 (Some pL) RefIsMinDist2
              (node_count root) [([], root)] (dscale d0 (11 # 10)) (-1)%Z
              (node_count_weight root))
    as (m' & i' & E & R1 & R2 & R3).
  { constructor; [exact W|constructor]. }
  rewrite E. cbn [take_closer snd].
  assert (Hall : forall j, In j (ExportAllPointIds root) ->
            dlt (Fin (dist2 pts x j)) m' = false \/
            In j (ExportAllPointIds L)).
  { intros j Hj.
    destruct (reach_or_masked (Some pL) j root [] Hj)
      as [Hr|(q & c & _ & Hq & Hc & Hjc)].
    - left. destruct (R3 ([], root) j (or_introl eq_refl) Hr) as [A|[]].
      exact A.
    - right. cbn [app] in Hq. injection Hq as ->. rewrite Hat in Hc.
      injection Hc as ->. exact Hjc. }
  destruct (ids_nonempty pts root W Hne) as [j0 Hj0].
  destruct (dlt m' d0) eqn:Elt.
  - (* the sphere search found a strictly closer id *)
    assert (Hle : dle m' d0 = true) by (apply dlt_dle; exact Elt).
    rewrite Hle.
    destruct R2 as [[-> ->]|(A & B & r' & Hr' & C)].
    + exfalso. destruct LS as [[_ LS]|(_ & LS & _)].
      * injection LS as -> ->. discriminate.
      * rewrite LS in Elt.
        pose proof (Distance2_nonneg (GetPoint pts i0) x).
        clear - Elt H. dorder.
    + destruct Hr' as [<-|[]]. cbn [snd] in C.
      exists i'. rewrite B. split; [reflexivity|]. split; [exact C|].
      intros j Hj. destruct (Hall j Hj) as [Hd|Hd].
      * rewrite B in Hd. apply dlt_Fin_false in Hd. exact Hd.
      * destruct LS as [[LS _]|(_ & LS & LS')].
        { rewrite LS in Hd. destruct Hd. }
        specialize (LS' j Hd). rewrite LS, B in Elt.
        apply dlt_Fin in Elt. unfold dist2 in *. lra.
  - (* the leaf's id stays *)
    destruct LS as [[LS1 LS2]|(LS1 & LS2 & LS3)].
    + exfalso. injection LS2 as -> ->.
      destruct (Hall j0 Hj0) as [Hd|Hd].
      * clear - Hd Elt. dorder.
      * rewrite LS1 in Hd. destruct Hd.
    + exists i0. rewrite LS2. split; [reflexivity|].
      split; [apply Hincl; exact LS1|].
      intros j Hj. destruct (Hall j Hj) as [Hd|Hd].
      * rewrite LS2 in Elt. unfold dist2 in *. clear - Hd Elt. dorder.
      * apply LS3. exact Hd.
Qed.

Lemma GetLeafContainer_root pts root y :
  wf_node pts root = true ->
  let r := GetLeafContainer ([], root) y in
  node_at root (fst r) = Some (snd r) /\
  IsLeaf (snd r) = true /\
  incl (ExportAllPointIds (snd r)) (ExportAllPointIds root).
Proof.
  intros W. unfold GetLeafContainer. cbn [fst snd].
  destruct (GetLeafContainer_from_leaf pts y root W [])
    as (q & E & A & Lf & _ & I).
  cbn [app] in E. rewrite E. auto.
Qed.

Lemma closest_outside_correct l pts root x :
  wf_node pts root = true ->
  NumberOfPoints root <> 0%Z ->
  exists i,
    closest_outside l pts root x = Some (i, Fin (dist2 pts x i)) /\
    closest_id pts root x i.
Proof.
  intros W Hne. unfold closest_outside.
  set (y := (nudge _ _ _ _, nudge _ _ _ _, nudge _ _ _ _)).
  destruct (GetLeafContainer_root pts root y W) as (Hat & HL & Hincl).
  pose proof (sphere_phase_closest pts root x _ _ W Hne Hat HL Hincl) as P.
  destruct (FindClosestPointInLeafNode pts
              (snd (GetLeafContainer ([], root) y)) x) as [d0 i0].
  exact P.
Qed.

Lemma closest_inside_correct pts root x :
  wf_node pts root = true ->
  NumberOfPoints root <> 0%Z ->
  ContainsPoint root x = true ->
  exists i,
    closest_inside pts root x = Some (i, Fin (dist2 pts x i)) /\
    closest_id pts root x i.
Proof.
  intros W Hne Hx. unfold closest_inside.
  destruct (GetLeafContainer_root pts root x W) as (Hat & HL & Hincl).
  pose proof (GetLeafContainer_from_box pts x root W Hx []) as (Bx & _ & Bout).
  fold (GetLeafContainer ([], root) x) in Bx, Bout.
  pose proof (sphere_phase_closest pts root x _ _ W Hne Hat HL Hincl) as P.
  pose proof (FindClosestPointInLeafNode_spec pts
                (snd (GetLeafContainer ([], root) x)) x) as LS.
  cbv zeta in LS. rewrite <- (leaf_ids _ HL) in LS.
  set (leaf := GetLeafContainer ([], root) x) in *.
  destruct (FindClosestPointInLeafNode pts (snd leaf) x) as [d0 i0].
  cbn [fst snd] in *.
  destruct (ids_nonempty pts root W Hne) as [j0 Hj0].
  assert (Hfar : forall j, In j (ExportAllPointIds root) ->
            In j (ExportAllPointIds (snd leaf)) \/
            exists g, GetDistance2ToInnerBoundary (snd leaf) x root = Fin g /\
                      g <= dist2 pts x j).
  { intros j Hj. destruct (Bout j Hj) as [A|A]; [left; exact A|right].
    apply inner_boundary_lower_bound; [exact Bx| |exact A].
    apply (ok_ids _ _ (wf_node_ok _ _ W) j Hj). }
  destruct (dlt (Fin 0) d0) eqn:Epos.
  - destruct (dlt (GetDistance2ToInnerBoundary (snd leaf) x root) d0) eqn:Ein.
    + exact P.
    + destruct LS as [[LS1 LS2]|(LS1 & LS2 & LS3)].
      * exfalso. injection LS2 as -> ->.
        destruct (Hfar j0 Hj0) as [A|(g & Eg & _)].
        -- rewrite LS1 in A. destruct A.
        -- rewrite Eg in Ein. discriminate.
      * exists i0. rewrite LS2. split; [reflexivity|].
        split; [apply Hincl; exact LS1|].
        intros j Hj. destruct (Hfar j Hj) as [A|(g & Eg & Hg)].
        -- apply LS3. exact A.
        -- rewrite Eg, LS2 in Ein. apply dlt_Fin_false in Ein.
           unfold dist2 in *. lra.
  - destruct LS as [[LS1 LS2]|(LS1 & LS2 & LS3)].
    + injection LS2 as -> ->. discriminate.
    + exists i0. rewrite LS2. split; [reflexivity|].
      split; [apply Hincl; exact LS1|].
      intros j Hj. rewrite LS2 in Epos. apply dlt_Fin_false in Epos.
      pose proof (Distance2_nonneg (GetPoint pts j) x).
      unfold dist2. lra.
Qed.

(** On a well-formed octree that holds points [FindClosestPoint] returns
    a closest stored id together with its squared distance. *)
Lemma FindClosestPoint_correct l root x :
  OctreeRootNode l = Some root ->
  wf_node (the_points l) root = true ->
  NumberOfPoints root <> 0%Z ->
  exists i,
    FindClosestPoint l x = Returns (i, Fin (dist2 (the_points l) x i)) /\
    closest_id (the_points l) root x i.
Proof.
  intros Hr W Hne. unfold FindClosestPoint, BuildLocator. rewrite Hr.
  apply Z.eqb_neq in Hne. rewrite Hne. apply Z.eqb_neq in Hne.
  destruct (ContainsPoint root x) eqn:Hx.
  - destruct (closest_inside_correct _ root x W Hne Hx) as (i & E & C).
    exists i. rewrite E. auto.
  - destruct (closest_outside_correct l _ root x W Hne) as (i & E & C).
    exists i. rewrite E. auto.
Qed.

(** ** The brute-force scan *)

Lemma brute_force_scan_spec pts x ids :
  forall best,
    match best with
    | None => True
    | Some (b, db) => db = dist2 pts x b
    end ->
    match brute_force_scan pts x ids best with
    | None => ids = [] /\ best = None
    | Some (b, db) =>
        db = dist2 pts x b /\
        (In b ids \/ exists db0, best = Some (b, db0)) /\
        (forall j, In j ids -> db <= dist2 pts x j) /\
        (forall b0 db0, best = Some (b0, db0) -> db <= db0)
    end.
Proof.
  induction ids as [|a ids IH]; intros best Hb.
  - cbn. destruct best as [[b db]|]; [|auto].
    split; [exact Hb|]. split; [right; eauto|]. split; [intros j []|].
    intros b0 db0 E. injection E as <- <-. lra.
  - cbn [brute_force_scan].
    set (best' := match best with
                  | None => Some (a, dist2 pts x a)
                  | Some (b, db) =>
                      if Qltb (dist2 pts x a) db
                      then Some (a, dist2 pts x a) else best
                  end).
    assert (Hb' : match best' with
                  | None => True
                  | Some (b, db) => db = dist2 pts x b
                  end).
    { unfold best'. destruct best as [[b db]|]; [|reflexivity].
      destruct (Qltb (dist2 pts x a) db); [reflexivity|exact Hb]. }
    assert (Hle : exists b' db', best' = Some (b', db') /\
                    db' <= dist2 pts x a /\
                    (b' = a \/ best = Some (b', db')) /\
                    forall b0 db0, best = Some (b0, db0) -> db' <= db0).
    { unfold best'. destruct best as [[b db]|].
      - destruct (Qltb (dist2 pts x a) db) eqn:E.
        + apply Qltb_lt in E. exists a, (dist2 pts x a).
          split; [reflexivity|]. split; [lra|]. split; [left; reflexivity|].
          intros b0 db0 E0. injection E0 as <- <-. lra.
        + apply Qltb_nlt in E. exists b, db.
          split; [reflexivity|]. split; [lra|]. split; [right; reflexivity|].
          intros b0 db0 E0. injection E0 as <- <-. lra.
      - exists a, (dist2 pts x a). split; [reflexivity|]. split; [lra|].
        split; [left; reflexivity|]. intros b0 db0 E0. discriminate. }
    specialize (IH best' Hb').
    destruct Hle as (b' & db' & E' & L1 & L2 & L3).
    destruct (brute_force_scan pts x ids best') as [[b db]|].
    + destruct IH as (I1 & I2 & I3 & I4).
      specialize (I4 b' db' E').
      split; [exact I1|]. split.
      * destruct I2 as [I2|(db0 & I2)]; [left; right; exact I2|].
        rewrite E' in I2. injection I2 as <- <-.
        destruct L2 as [->|L2]; [left; left; reflexivity|right; eauto].
      * split.
        -- intros j [<-|Hj]; [lra|apply I3; exact Hj].
        -- intros b0 db0 E0. specialize (L3 b0 db0 E0). lra.
    + destruct IH as [_ IH]. congruence.
Qed.

Lemma In_all_ids pts j :
  In j (all_ids pts) <-> (0 <= j < Z.of_nat (length pts))%Z.
Proof.
  unfold all_ids. rewrite in_map_iff. split.
  - intros (k & <- & Hk). apply in_seq in Hk. lia.
  - intros H. exists (Z.to_nat j). split; [lia|]. apply in_seq. lia.
Qed.

Lemma brute_force_closest_spec pts x :
  match brute_force_closest pts x with
  | None => pts = []
  | Some (b, db) =>
      db = dist2 pts x b /\ (0 <= b < Z.of_nat (length pts))%Z /\
      forall j, (0 <= j < Z.of_nat (length pts))%Z -> db <= dist2 pts x j
  end.
Proof.
  unfold brute_force_closest.
  pose proof (brute_force_scan_spec pts x (all_ids pts) None I) as H.
  destruct (brute_force_scan pts x (all_ids pts) None) as [[b db]|].
  - destruct H as (H1 & H2 & H3 & _). split; [exact H1|]. split.
    + destruct H2 as [H2|(db0 & H2)]; [|discriminate].
      apply In_all_ids. exact H2.
    + intros j Hj. apply H3. apply In_all_ids. exact Hj.
  - destruct H as [H _]. unfold all_ids in H.
    destruct pts; [reflexivity|discriminate].
Qed.

(** C1: on a well-formed octree that stores every id of the container,
    [FindClosestPoint] returns a stored id whose squared distance is the
    least one, the distance the brute-force scan finds; the two ids may
    differ, and then both are at that distance.  Without points both
    searches come back empty. *)
Theorem FindClosestPoint_matches_brute_force l root x :
  OctreeRootNode l = Some root ->
  wf_tree (the_points l) root = true ->
  stores_all (the_points l) root ->
  match brute_force_closest (the_points l) x with
  | Some (ib, db) =>
      exists i,
        FindClosestPoint l x = Returns (i, Fin (dist2 (the_points l) x i)) /\
        In i (ExportAllPointIds root) /\
        dist2 (the_points l) x i == db /\
        (forall j, In j (ExportAllPointIds root) ->
                   dist2 (the_points l) x i <= dist2 (the_points l) x j) /\
        (i <> ib -> dist2 (the_points l) x i == dist2 (the_points l) x ib)
  | None =>
      FindClosestPoint l x
      = Returns ((-1)%Z, Fin (OctreeMaxDimSize l * OctreeMaxDimSize l * 4))
  end.
Proof.
  intros Hr W Hall. apply wf_tree_parts in W. destruct W as [W _].
  pose proof (brute_force_closest_spec (the_points l) x) as B.
  destruct (brute_force_closest (the_points l) x) as [[ib db]|].
  - destruct B as (B1 & B2 & B3).
    assert (Hne : NumberOfPoints root <> 0%Z).
    { rewrite (ok_count _ _ (wf_node_ok _ _ W)).
      specialize (Hall ib B2).
      destruct (ExportAllPointIds root); [destruct Hall|cbn [length]; lia]. }
    destruct (FindClosestPoint_correct l root x Hr W Hne) as (i & E & C1 & C2).
    exists i. split; [exact E|]. split; [exact C1|].
    assert (Hi : (0 <= i < Z.of_nat (length (the_points l)))%Z)
      by apply (ok_ids _ _ (wf_node_ok _ _ W) i C1).
    pose proof (B3 i Hi) as L1.
    pose proof (C2 ib (Hall ib B2)) as L2.
    assert (Heq : dist2 (the_points l) x i == db) by (rewrite B1 in *; lra).
    split; [exact Heq|]. split; [exact C2|].
    intros _. rewrite Heq, B1. reflexivity.
  - unfold FindClosestPoint, BuildLocator. rewrite Hr.
    assert (Hz : NumberOfPoints root = 0%Z).
    { rewrite (ok_count _ _ (wf_node_ok _ _ W)).
      destruct (ExportAllPointIds root) as [|j ids] eqn:Ej; [reflexivity|].
      pose proof (ok_ids _ _ (wf_node_ok _ _ W) j) as H.
      rewrite Ej in H. specialize (H (or_introl eq_refl)).
      rewrite B in H. cbn [length] in H. lia. }
    rewrite Hz. reflexivity.
Qed.

(** C9: for a query outside the root's box [FindClosestInsertedPoint]
    returns -1 although points are stored, while [FindClosestPoint]
    returns a closest stored id. *)
Theorem FindClosestInsertedPoint_outside_root l root x :
  OctreeRootNode l = Some root ->
  wf_node (the_points l) root = true ->
  NumberOfPoints root <> 0%Z ->
  ContainsPoint root x = false ->
  FindClosestInsertedPoint l x = Returns (-1)%Z /\
  exists i,
    FindClosestPoint l x = Returns (i, Fin (dist2 (the_points l) x i)) /\
    closest_id (the_points l) root x i.
Proof.
  intros Hr W Hne Hx. split.
  - unfold FindClosestInsertedPoint. rewrite Hr, Hx. cbn [negb].
    rewrite orb_true_r. reflexivity.
  - apply FindClosestPoint_correct; assumption.
Qed.

(** ** The subdivided example *)

Lemma subdivided_locator_root :
  OctreeRootNode subdivided_locator = Some subdivided_root.
Proof. reflexivity. Qed.

Lemma subdivided_locator_wf :
  wf_tree (the_points subdivided_locator) subdivided_root = true.
Proof. vm_compute. reflexivity. Qed.

Lemma subdivided_locator_stores_all :
  stores_all (the_points subdivided_locator) subdivided_root.
Proof.
  intros id H. cbn in H.
  assert (C : id = 0%Z \/ id = 1%Z \/ id = 2%Z) by lia.
  destruct C as [-> | [-> | ->]]; vm_compute; auto.
Qed.

Lemma FindPointsWithinSquaredRadius_exact_witness :
  exists out,
    FindPointsWithinSquaredRadius subdivided_locator (1 # 2)
      (1 # 2, 1 # 2, 1 # 2) = Returns out /\
    NoDup out /\
    forall i,
      In i out <->
      (0 <= i < Z.of_nat (length (the_points subdivided_locator)))%Z /\
      Distance2BetweenPoints (GetPoint (the_points subdivided_locator) i)
        (1 # 2, 1 # 2, 1 # 2) <= 1 # 2.
Proof.
  apply (FindPointsWithinSquaredRadius_exact subdivided_locator
           subdivided_root (1 # 2) (1 # 2, 1 # 2, 1 # 2)).
  - reflexivity.
  - vm_compute. reflexivity.
  - exact subdivided_locator_stores_all.
Defined.

Lemma FindClosestPoint_matches_brute_force_witness :
  match brute_force_closest (the_points subdivided_locator)
          (45 # 100, 45 # 100, 45 # 100) with
  | Some (ib, db) =>
      exists i,
        FindClosestPoint subdivided_locator (45 # 100, 45 # 100, 45 # 100)
        = Returns (i, Fin (dist2 (the_points subdivided_locator)
                             (45 # 100, 45 # 100, 45 # 100) i)) /\
        In i (ExportAllPointIds subdivided_root) /\
        dist2 (the_points subdivided_locator)
          (45 # 100, 45 # 100, 45 # 100) i == db /\
        (forall j, In j (ExportAllPointIds subdivided_root) ->
                   dist2 (the_points subdivided_locator)
                     (45 # 100, 45 # 100, 45 # 100) i
                   <= dist2 (the_points subdivided_locator)
                        (45 # 100, 45 # 100, 45 # 100) j) /\
        (i <> ib ->
         dist2 (the_points subdivided_locator)
           (45 # 100, 45 # 100, 45 # 100) i
         == dist2 (the_points subdivided_locator)
              (45 # 100, 45 # 100, 45 # 100) ib)
  | None =>
      FindClosestPoint subdivided_locator (45 # 100, 45 # 100, 45 # 100)
      = Returns ((-1)%Z,
                 Fin (OctreeMaxDimSize subdivided_locator
                      * OctreeMaxDimSize subdivided_locator * 4))
  end.
Proof.
  apply (FindClosestPoint_matches_brute_force subdivided_locator
           subdivided_root (45 # 100, 45 # 100, 45 # 100)).
  - reflexivity.
  - vm_compute. reflexivity.
  - exact subdivided_locator_stores_all.
Defined.

Lemma FindClosestInsertedPoint_outside_root_witness :
  FindClosestInsertedPoint subdivided_locator (2, 2, 2) = Returns (-1)%Z /\
  exists i,
    FindClosestPoint subdivided_locator (2, 2, 2)
    = Returns (i, Fin (dist2 (the_points subdivided_locator) (2, 2, 2) i)) /\
    closest_id (the_points subdivided_locator) subdivided_root (2, 2, 2) i.
Proof.
  apply (FindClosestInsertedPoint_outside_root subdivided_locator
           subdivided_root (2, 2, 2)).
  - reflexivity.
  - vm_compute. reflexivity.
  - vm_compute. discriminate.
  - vm_compute. reflexivity.
Defined.

(** ** Duplicate detection with a tolerance *)




(** ** The sorter as a bounded grouping *)

Module SorterOrder.
Import Sorter SorterFacts.


Lemma map_add_beyond m rest d id :
  keys_below m d ->
  map_add (m ++ rest) d id = m ++ map_add rest d id.
Proof.
  induction m as [|[k ids] m IH]; intros H; [reflexivity|].
  inversion H as [|? ? Hk Hm]; subst. cbn [fst] in Hk.
  cbn [app map_add].
  assert (E : (d ?= k) = Gt) by (apply Qgt_alt; exact Hk).
  rewrite E. f_equal. apply IH. exact Hm.
Qed.

Lemma last_entry_app_cons (m : dist_map) e :
  last_entry (m ++ [e]) = Some e.
Proof.
  induction m as [|a m IH]; [reflexivity|].
  cbn [app]. rewrite last_entry_cons, IH. reflexivity.
Qed.

Lemma last_entry_split (m : dist_map) e :
  last_entry m = Some e -> m = removelast m ++ [e].
Proof.
  intros H. destruct m as [|a m]; [discriminate|].
  cbn [last_entry] in H. injection H as <-.
  rewrite <- (last_cons_default m a a).
  apply app_removelast_last. discriminate.
Qed.

Lemma map_add_within_last m k ids rest d id :
  d <= k ->
  map_add ((m ++ [(k, ids)]) ++ rest) d id
  = map_add (m ++ [(k, ids)]) d id ++ rest.
Proof.
  intros Hd. induction m as [|[k0 ids0] m IH].
  - cbn [app map_add]. destruct (d ?= k) eqn:E; try reflexivity.
    apply Qgt_alt in E. lra.
  - cbn [app map_add]. destruct (d ?= k0); try reflexivity.
    cbn [app]. f_equal. exact IH.
Qed.

Lemma map_add_keeps_last m k ids d id :
  d <= k ->
  exists ids', last_entry (map_add (m ++ [(k, ids)]) d id) = Some (k, ids').
Proof.
  intros Hd. induction m as [|[k0 ids0] m IH].
  - cbn [app map_add]. destruct (d ?= k) eqn:E.
    + eexists. reflexivity.
    + eexists. reflexivity.
    + apply Qgt_alt in E. lra.
  - cbn [app map_add]. destruct (d ?= k0).
    + rewrite last_entry_cons.
      change (m ++ [(k, ids)]) with (m ++ [(k, ids)]).
      rewrite last_entry_app_cons. eexists. reflexivity.
    + rewrite !last_entry_cons, last_entry_app_cons. eexists. reflexivity.
    + destruct IH as [ids' IH]. rewrite last_entry_cons, IH.
      eexists. reflexivity.
Qed.

Lemma keys_sorted_below m k ids :
  keys_sorted (m ++ [(k, ids)]) -> keys_below m k.
Proof.
  induction m as [|[k0 ids0] m IH]; intros H; [constructor|].
  cbn [app keys_sorted] in H. destruct H as [H1 H2].
  specialize (IH H2). constructor; [|exact IH]. cbn [fst].
  destruct m as [|[k1 ids1] m]; cbn [app] in H1; [exact H1|].
  inversion IH as [|? ? Hk1 _]; subst. cbn [fst] in Hk1. lra.
Qed.

Lemma keys_sorted_app_l (m rest : dist_map) :
  keys_sorted (m ++ rest) -> keys_sorted m.
Proof.
  induction m as [|[k ids] m IH]; intros H; [exact I|].
  cbn [app keys_sorted] in *. destruct H as [H1 H2]. split; [|apply IH, H2].
  destruct m as [|[k1 ids1] m]; [exact I|exact H1].
Qed.

Lemma group_snoc f V id :
  group f (V ++ [id]) = map_add (group f V) (f id) id.
Proof. unfold group. rewrite fold_left_app. reflexivity. Qed.

Lemma insert_all_snoc f V id s :
  insert_all f (V ++ [id]) s = InsertPoint (f id) id (insert_all f V s).
Proof. unfold insert_all. rewrite fold_left_app. reflexivity. Qed.

Lemma map_add_sorted m d id : keys_sorted m -> keys_sorted (map_add m d id).
Proof.
  induction m as [|[k ids] m IH]; intros H; [cbn; auto|].
  cbn [map_add]. destruct (d ?= k) eqn:E.
  - exact H.
  - apply Qlt_alt in E. cbn [keys_sorted]. split; [exact E|exact H].
  - apply Qgt_alt in E. cbn [keys_sorted] in *. destruct H as [H1 H2].
    split; [|apply IH, H2].
    destruct m as [|[k1 ids1] m]; [cbn [map_add]; exact E|].
    cbn [map_add]. destruct (d ?= k1) eqn:E1; [exact H1|exact E|exact H1].
Qed.

Lemma group_sorted f V : keys_sorted (group f V).
Proof.
  induction V as [|id V IH] using rev_ind; [exact I|].
  rewrite group_snoc. apply map_add_sorted. exact IH.
Qed.

Lemma total_ids_group f V : total_ids (group f V) = Z.of_nat (length V).
Proof.
  induction V as [|id V IH] using rev_ind; [reflexivity|].
  rewrite group_snoc, total_ids_map_add, IH, length_app. cbn [length]. lia.
Qed.

Lemma total_ids_app a b : total_ids (a ++ b) = (total_ids a + total_ids b)%Z.
Proof.
  induction a as [|e a IH]; [reflexivity|].
  cbn [app]. rewrite !total_ids_cons, IH. lia.
Qed.

Lemma removelast_app_keep (m rest : dist_map) e :
  last_entry m = Some e ->
  m ++ rest = removelast m ++ (e :: rest).
Proof.
  intros H. rewrite (last_entry_split m e H) at 1.
  rewrite <- app_assoc. reflexivity.
Qed.

(** One pair more keeps the sorter a bounded grouping. *)
Lemma holds_step f K V s id :
  (0 <= K < size_t_max)%Z ->
  (Z.of_nat (length V) + 1 < size_t_max)%Z ->
  holds f K V s ->
  holds f K (V ++ [id]) (InsertPoint (f id) id s).
Proof.
  intros HK Hlen [Hreq Hcount [rest Hpre] Hall Hcut].
  pose proof (group_sorted f V) as Hsorted. rewrite Hpre in Hsorted.
  assert (Hcnt : (0 <= NumberPoints s <= Z.of_nat (length V))%Z).
  { rewrite Hcount. pose proof (total_ids_group f V) as T.
    rewrite Hpre, total_ids_app in T.
    pose proof (total_ids_nonneg (dist2ToIds s)).
    pose proof (total_ids_nonneg rest). lia. }
  unfold InsertPoint.
  destruct (dle (Fin (f id)) (LargestDist2 s)
            || (NumberPoints s <? NumRequested s)%Z) eqn:A.
  2:{ (* the pair is turned away *)
      apply orb_false_iff in A. destruct A as [A1 A2].
      destruct (LargestDist2 s) as [L|] eqn:EL; [|discriminate].
      apply dle_Fin_false in A1.
      destruct (Hcut L eq_refl) as [HKc [ids Hlast]].
      constructor; try assumption.
      - exists (map_add rest (f id) id).
        rewrite group_snoc, Hpre. apply map_add_beyond.
        rewrite (last_entry_split _ _ Hlast) in Hsorted |- *.
        apply keys_sorted_app_l in Hsorted.
        pose proof (keys_sorted_below _ _ _ Hsorted) as B.
        apply Forall_app. split.
        + eapply Forall_impl; [|exact B]. intros e He. cbv beta in *. lra.
        + constructor; [cbn [fst]; lra|constructor].
      - rewrite EL. discriminate.
      - rewrite EL. exact Hcut. }
  (* the pair is added *)
  set (m1 := map_add (dist2ToIds s) (f id) id).
  assert (N1 : to_size_t (NumberPoints s + 1) = (NumberPoints s + 1)%Z)
    by (apply to_size_t_small; unfold size_t_max in *; lia).
  rewrite N1.
  assert (Hpre1 : group f (V ++ [id]) = m1 ++ rest /\
                  forall L, LargestDist2 s = Fin L ->
                    exists ids, last_entry m1 = Some (L, ids)).
  { rewrite group_snoc, Hpre. destruct (LargestDist2 s) as [L|] eqn:EL.
    - destruct (Hcut L eq_refl) as [HKc [ids Hlast]].
      assert (HdL : f id <= L).
      { apply orb_true_iff in A. destruct A as [A|A].
        - apply dle_Fin in A. exact A.
        - apply Z.ltb_lt in A. lia. }
      unfold m1. rewrite (last_entry_split _ _ Hlast). split.
      + apply map_add_within_last. exact HdL.
      + intros L' E'. injection E' as <-.
        apply map_add_keeps_last. exact HdL.
    - rewrite (Hall eq_refl) in Hpre.
      assert (rest = []).
      { apply (f_equal (@length _)) in Hpre. rewrite length_app in Hpre.
        destruct rest; [reflexivity|cbn [length] in Hpre; lia]. }
      subst rest. rewrite !app_nil_r. split; [reflexivity|].
      intros L' E'. discriminate. }
  destruct Hpre1 as [Hpre1 Hlast1].
  assert (Hm1 : total_ids m1 = (NumberPoints s + 1)%Z).
  { unfold m1. rewrite total_ids_map_add, Hcount. reflexivity. }
  destruct (NumRequested s <? NumberPoints s + 1)%Z eqn:O.
  2:{ (* within the request *)
      apply Z.ltb_ge in O.
      assert (EL : LargestDist2 s = SVTK_DOUBLE_MAX).
      { destruct (LargestDist2 s) as [L|] eqn:EL; [|reflexivity].
        destruct (Hcut L eq_refl) as [HKc _]. lia. }
      constructor; cbn [NumRequested NumberPoints LargestDist2 dist2ToIds].
      - exact Hreq.
      - symmetry. exact Hm1.
      - exists rest. exact Hpre1.
      - intros _. rewrite Hpre1.
        rewrite (Hall EL) in Hpre.
        assert (rest = []).
        { apply (f_equal (@length _)) in Hpre. rewrite length_app in Hpre.
          destruct rest; [reflexivity|cbn [length] in Hpre; lia]. }
        subst rest. rewrite app_nil_r. reflexivity.
      - intros L E. congruence. }
  apply Z.ltb_lt in O.
  destruct (last_entry m1) as [[kl idsl]|] eqn:El.
  2:{ apply last_entry_none in El. exfalso. revert El.
      apply map_add_not_nil. }
  assert (Hls : last_size m1 = Z.of_nat (length idsl))
    by (unfold last_size; rewrite El; reflexivity).
  pose proof (last_size_le_total m1) as Hlt. rewrite Hls, Hm1 in Hlt.
  assert (R : to_size_t (NumberPoints s + 1 - Z.of_nat (length idsl))
              = (NumberPoints s + 1 - Z.of_nat (length idsl))%Z)
    by (apply to_size_t_small; unfold size_t_max in *; lia).
  rewrite R.
  destruct (NumRequested s <? NumberPoints s + 1 - Z.of_nat (length idsl))%Z
    eqn:C.
  - (* the last entry is erased *)
    apply Z.ltb_lt in C.
    destruct (erase_has_previous m1) as (k2 & ids2 & E2);
      [rewrite Hm1, Hls; lia|].
    rewrite E2.
    constructor; cbn [NumRequested NumberPoints LargestDist2 dist2ToIds].
    + exact Hreq.
    + pose proof (total_ids_removelast m1) as T. rewrite Hm1, Hls in T. lia.
    + exists ((kl, idsl) :: rest). rewrite Hpre1.
      apply removelast_app_keep. exact El.
    + discriminate.
    + intros L E. injection E as <-. split; [lia|]. eauto.
  - (* every entry stays *)
    apply Z.ltb_ge in C.
    constructor; cbn [NumRequested NumberPoints LargestDist2 dist2ToIds].
    + exact Hreq.
    + symmetry. exact Hm1.
    + exists rest. exact Hpre1.
    + intros EL. rewrite Hpre1. rewrite (Hall EL) in Hpre.
      assert (rest = []).
      { apply (f_equal (@length _)) in Hpre. rewrite length_app in Hpre.
        destruct rest; [reflexivity|cbn [length] in Hpre; lia]. }
      subst rest. rewrite app_nil_r. reflexivity.
    + intros L E. split; [lia|]. rewrite El. apply Hlast1. exact E.
Qed.

Lemma holds_New f K :
  (0 <= K < size_t_max)%Z -> holds f K [] (New K).
Proof.
  intros HK. constructor; cbn [New NumRequested NumberPoints LargestDist2
                               dist2ToIds].
  - apply to_size_t_small. exact HK.
  - reflexivity.
  - exists []. reflexivity.
  - reflexivity.
  - discriminate.
Qed.

Lemma holds_insert_all f K W :
  (0 <= K < size_t_max)%Z ->
  forall V s,
    (Z.of_nat (length (V ++ W)) < size_t_max)%Z ->
    holds f K V s ->
    holds f K (V ++ W) (insert_all f W s).
Proof.
  intros HK. induction W as [|id W IH]; intros V s Hlen H.
  - rewrite app_nil_r. exact H.
  - replace (V ++ id :: W) with ((V ++ [id]) ++ W) in *
      by (rewrite <- app_assoc; reflexivity).
    cbn [insert_all fold_left]. apply IH; [exact Hlen|].
    apply holds_step; [exact HK| |exact H].
    rewrite !length_app in Hlen. cbn [length] in Hlen. lia.
Qed.

Lemma keys_sorted_last_max m k ids :
  keys_sorted m -> last_entry m = Some (k, ids) ->
  forall e, In e m -> fst e <= k.
Proof.
  intros Hs Hl e He. rewrite (last_entry_split _ _ Hl) in Hs, He.
  pose proof (keys_sorted_below _ _ _ Hs) as B.
  apply in_app_or in He. destruct He as [He|[<-|[]]].
  - unfold keys_below in B. rewrite Forall_forall in B.
    specialize (B e He). lra.
  - cbn [fst]. lra.
Qed.

Lemma keys_sorted_removelast (m : dist_map) :
  keys_sorted m -> keys_sorted (removelast m).
Proof.
  intros H. destruct (last_entry m) as [e|] eqn:E.
  - rewrite (last_entry_split _ _ E) in H.
    apply keys_sorted_app_l in H. exact H.
  - apply last_entry_none in E. subst. exact I.
Qed.

(** [LargestDist2] never grows. *)
Lemma InsertPoint_largest_le f K V s id :
  holds f K V s ->
  dle (LargestDist2 (InsertPoint (f id) id s)) (LargestDist2 s) = true.
Proof.
  intros [Hreq Hcount [rest Hpre] Hall Hcut].
  pose proof (group_sorted f V) as Hsorted. rewrite Hpre in Hsorted.
  apply keys_sorted_app_l in Hsorted.
  unfold InsertPoint.
  destruct (dle (Fin (f id)) (LargestDist2 s)
            || (NumberPoints s <? NumRequested s)%Z) eqn:A;
    [|apply dle_refl].
  set (m1 := map_add (dist2ToIds s) (f id) id).
  destruct (NumRequested s <? to_size_t (NumberPoints s + 1))%Z;
    [|apply dle_refl].
  destruct (last_entry m1) as [[kl idsl]|] eqn:El; [|apply dle_refl].
  destruct (NumRequested s
            <? to_size_t (to_size_t (NumberPoints s + 1)
                          - Z.of_nat (length idsl)))%Z;
    [|apply dle_refl].
  cbn [LargestDist2].
  destruct (last_entry (removelast m1)) as [[k2 ids2]|] eqn:E2;
    [|apply dle_refl].
  destruct (LargestDist2 s) as [L|] eqn:EL; [|reflexivity].
  apply dle_Fin.
  destruct (Hcut L eq_refl) as [HKc [ids Hlast]].
  assert (HdL : f id <= L).
  { apply orb_true_iff in A. destruct A as [A|A].
    - apply dle_Fin in A. exact A.
    - apply Z.ltb_lt in A. lia. }
  destruct (map_add_keeps_last (removelast (dist2ToIds s)) L ids (f id) id HdL)
    as [ids' Hk].
  rewrite <- (last_entry_split _ _ Hlast) in Hk. fold m1 in Hk.
  rewrite El in Hk. injection Hk as -> ->.
  pose proof (map_add_sorted _ (f id) id Hsorted) as S1. fold m1 in S1.
  rewrite (last_entry_split _ _ El) in S1.
  pose proof (keys_sorted_below _ _ _ S1) as B.
  unfold keys_below in B. rewrite Forall_forall in B.
  assert (Hin : In (k2, ids2) (removelast m1)).
  { rewrite (last_entry_split _ _ E2). apply in_or_app. right. left.
    reflexivity. }
  specialize (B _ Hin). cbn [fst] in B. lra.
Qed.

Lemma insert_all_largest_le f K W :
  (0 <= K < size_t_max)%Z ->
  forall V s,
    (Z.of_nat (length (V ++ W)) < size_t_max)%Z ->
    holds f K V s ->
    dle (LargestDist2 (insert_all f W s)) (LargestDist2 s) = true.
Proof.
  intros HK. induction W as [|id W IH]; intros V s Hlen H.
  - apply dle_refl.
  - replace (V ++ id :: W) with ((V ++ [id]) ++ W) in *
      by (rewrite <- app_assoc; reflexivity).
    cbn [insert_all fold_left].
    eapply dle_trans; [|apply (InsertPoint_largest_le f K V s id H)].
    apply (IH (V ++ [id])); [exact Hlen|].
    apply holds_step; [exact HK| |exact H].
    rewrite !length_app in Hlen. cbn [length] in Hlen. lia.
Qed.

Lemma length_flat m : Z.of_nat (length (flat m)) = total_ids m.
Proof.
  unfold flat. induction m as [|[k ids] m IH]; [reflexivity|].
  cbn [map concat snd]. rewrite length_app, total_ids_cons. cbn [snd]. lia.
Qed.

Lemma flat_app a b : flat (a ++ b) = flat a ++ flat b.
Proof. unfold flat. rewrite map_app, concat_app. reflexivity. Qed.

(** The exported ids are the first [K] ids of the grouping. *)
Lemma GetSortedIds_group f K V s :
  (0 <= K)%Z ->
  holds f K V s ->
  GetSortedIds s = firstn (Z.to_nat K) (flat (group f V)).
Proof.
  intros HK [Hreq Hcount [rest Hpre] Hall Hcut].
  unfold GetSortedIds. fold (flat (dist2ToIds s)).
  pose proof (length_flat (dist2ToIds s)) as Hlen. rewrite <- Hcount in Hlen.
  rewrite Hreq, Hpre, flat_app.
  destruct (K <? NumberPoints s)%Z eqn:C.
  - apply Z.ltb_lt in C. rewrite firstn_app.
    replace (Z.to_nat K - length (flat (dist2ToIds s)))%nat with 0%nat by lia.
    cbn [firstn]. rewrite app_nil_r. reflexivity.
  - apply Z.ltb_ge in C.
    assert (EL : LargestDist2 s = SVTK_DOUBLE_MAX).
    { destruct (LargestDist2 s) as [L|] eqn:EL; [|reflexivity].
      destruct (Hcut L eq_refl) as [HKc _]. lia. }
    rewrite (Hall EL) in Hpre.
    assert (rest = []).
    { apply (f_equal (@length _)) in Hpre. rewrite length_app in Hpre.
      destruct rest; [reflexivity|cbn [length] in Hpre; lia]. }
    subst rest. cbn [flat map concat]. rewrite app_nil_r.
    rewrite !firstn_all2; [reflexivity|lia|lia].
Qed.

Lemma map_add_keyed f m id : keyed f m -> keyed f (map_add m (f id) id).
Proof.
  induction m as [|[k ids] m IH]; intros H k0 ids0 id0 Hin Hid.
  - cbn in Hin. destruct Hin as [E|[]]. injection E as <- <-.
    destruct Hid as [<-|[]]. reflexivity.
  - cbn [map_add] in Hin. destruct (f id ?= k) eqn:E.
    + destruct Hin as [E0|Hin].
      * injection E0 as <- <-. apply in_app_or in Hid.
        destruct Hid as [Hid|[<-|[]]].
        -- apply (H k ids id0); [left; reflexivity|exact Hid].
        -- apply Qeq_alt. exact E.
      * apply (H k0 ids0 id0); [right; exact Hin|exact Hid].
    + destruct Hin as [E0|Hin].
      * injection E0 as <- <-. destruct Hid as [<-|[]]. reflexivity.
      * apply (H k0 ids0 id0); [exact Hin|exact Hid].
    + destruct Hin as [E0|Hin].
      * injection E0 as <- <-.
        apply (H k ids id0); [left; reflexivity|exact Hid].
      * apply IH with ids0; [|exact Hin|exact Hid].
        intros k1 ids1 id1 H1 H2. apply (H k1 ids1 id1); [right; exact H1|].
        exact H2.
Qed.

Lemma group_keyed f V : keyed f (group f V).
Proof.
  induction V as [|id V IH] using rev_ind.
  - intros k ids id [].
  - rewrite group_snoc. apply map_add_keyed. exact IH.
Qed.

Lemma map_add_flat m d id : Permutation (flat (map_add m d id)) (id :: flat m).
Proof.
  unfold flat. induction m as [|[k ids] m IH]; [reflexivity|].
  cbn [map_add]. destruct (d ?= k); cbn [map concat snd].
  - rewrite <- app_assoc. cbn [app].
    symmetry. apply Permutation_middle.
  - reflexivity.
  - rewrite IH. symmetry. apply Permutation_middle.
Qed.

Lemma group_flat f V : Permutation (flat (group f V)) V.
Proof.
  induction V as [|id V IH] using rev_ind; [reflexivity|].
  rewrite group_snoc, map_add_flat, IH. apply Permutation_cons_append.
Qed.

Lemma keys_sorted_head k ids m :
  keys_sorted ((k, ids) :: m) -> Forall (fun e => k < fst e) m.
Proof.
  revert k ids. induction m as [|[k1 ids1] m IH]; intros k ids H;
    [constructor|].
  cbn [keys_sorted] in H. destruct H as [H1 H2].
  constructor; [exact H1|].
  specialize (IH k1 ids1 H2). eapply Forall_impl; [|exact IH].
  intros e He. cbv beta in *. lra.
Qed.

Lemma StronglySorted_app {A} (R : A -> A -> Prop) l1 l2 :
  StronglySorted R l1 -> StronglySorted R l2 ->
  (forall a b, In a l1 -> In b l2 -> R a b) ->
  StronglySorted R (l1 ++ l2).
Proof.
  intros H1 H2 H. induction H1 as [|a l1 S1 IH F1]; [exact H2|].
  cbn [app]. constructor.
  - apply IH. intros x y Hx Hy. apply H; [right; exact Hx|exact Hy].
  - apply Forall_app. split; [exact F1|].
    apply Forall_forall. intros b Hb. apply H; [left; reflexivity|exact Hb].
Qed.

Lemma StronglySorted_all {A} (R : A -> A -> Prop) l :
  (forall a b, In a l -> In b l -> R a b) -> StronglySorted R l.
Proof.
  induction l as [|a l IH]; intros H; constructor.
  - apply IH. intros x y Hx Hy. apply H; right; assumption.
  - apply Forall_forall. intros b Hb.
    apply H; [left; reflexivity|right; exact Hb].
Qed.

(** The ids of a sorted, keyed map are in ascending order of their
    key. *)
Lemma flat_sorted f m :
  keys_sorted m -> keyed f m ->
  StronglySorted (fun i j => f i <= f j) (flat m).
Proof.
  induction m as [|[k ids] m IH]; intros Hs Hk; [constructor|].
  change (flat ((k, ids) :: m)) with (ids ++ flat m).
  assert (Hk' : keyed f m).
  { intros k1 ids1 id1 H1 H2. apply (Hk k1 ids1 id1); [right; exact H1|].
    exact H2. }
  apply StronglySorted_app.
  - apply StronglySorted_all. intros a b Ha Hb.
    pose proof (Hk k ids a (or_introl eq_refl) Ha).
    pose proof (Hk k ids b (or_introl eq_refl) Hb). lra.
  - apply IH; [|exact Hk']. cbn [keys_sorted] in Hs. apply Hs.
  - intros a b Ha Hb.
    pose proof (Hk k ids a (or_introl eq_refl) Ha) as Ea.
    unfold flat in Hb. apply in_concat in Hb.
    destruct Hb as (l & Hl & Hb). apply in_map_iff in Hl.
    destruct Hl as ([k1 ids1] & <- & He). cbn [snd] in Hb.
    pose proof (Hk' k1 ids1 b He Hb) as Eb.
    pose proof (keys_sorted_head _ _ _ Hs) as F.
    rewrite Forall_forall in F. specialize (F _ He). cbn [fst] in F. lra.
Qed.

(** Once an entry was erased, every id held is within [LargestDist2]
    and more than [K] ids are held. *)
Lemma holds_cut_bound f K V s L :
  holds f K V s -> LargestDist2 s = Fin L ->
  (K < Z.of_nat (length (flat (dist2ToIds s))))%Z /\
  forall id, In id (flat (dist2ToIds s)) -> f id <= L.
Proof.
  intros [Hreq Hcount [rest Hpre] Hall Hcut] EL.
  destruct (Hcut L EL) as [HKc [ids Hlast]].
  split; [rewrite length_flat, <- Hcount; exact HKc|].
  intros id Hid. unfold flat in Hid. apply in_concat in Hid.
  destruct Hid as (l & Hl & Hid). apply in_map_iff in Hl.
  destruct Hl as ([k1 ids1] & <- & He). cbn [snd] in Hid.
  pose proof (group_sorted f V) as Hs. rewrite Hpre in Hs.
  apply keys_sorted_app_l in Hs.
  pose proof (keys_sorted_last_max _ _ _ Hs Hlast _ He) as Hle.
  cbn [fst] in Hle.
  assert (Hk : f id == k1).
  { apply (group_keyed f V k1 ids1 id); [|exact Hid].
    rewrite Hpre. apply in_or_app. left. exact He. }
  lra.
Qed.

(** The first [K] ids of the grouping of [V]: [K] of them, from [V],
    in ascending order of the key, and no id of [V] left out has a
    smaller key. *)
Lemma group_selection f (K : nat) V :
  (K <= length V)%nat ->
  let out := firstn K (flat (group f V)) in
  length out = K /\
  incl out V /\
  (NoDup V -> NoDup out) /\
  StronglySorted (fun i j => f i <= f j) out /\
  forall i j, In i out -> In j V -> ~ In j out -> f i <= f j.
Proof.
  intros HK out.
  pose proof (group_flat f V) as P.
  pose proof (flat_sorted f _ (group_sorted f V) (group_keyed f V)) as S.
  pose proof (firstn_skipn K (flat (group f V))) as Split. fold out in Split.
  assert (Hlen : length (flat (group f V)) = length V)
    by (apply Permutation_length; exact P).
  split; [unfold out; rewrite length_firstn; lia|].
  split.
  { intros i Hi. apply (Permutation_in _ P). rewrite <- Split.
    apply in_or_app. left. exact Hi. }
  split.
  { intros ND. apply (Permutation_NoDup (Permutation_sym P)) in ND.
    rewrite <- Split in ND. apply NoDup_app_remove_r in ND. exact ND. }
  rewrite <- Split in S. split.
  { clear - S. induction out as [|a out IH]; [constructor|].
    cbn [app] in S. inversion S as [|? ? S1 F1]; subst. constructor.
    - apply IH. exact S1.
    - apply Forall_app in F1. apply F1. }
  intros i j Hi Hj Hnot.
  assert (Hj' : In j (skipn K (flat (group f V)))).
  { apply (Permutation_in _ (Permutation_sym P)) in Hj.
    rewrite <- Split in Hj. apply in_app_or in Hj.
    destruct Hj as [Hj|Hj]; [contradiction|exact Hj]. }
  clear - S Hi Hj'. induction out as [|a out IH]; [destruct Hi|].
  cbn [app] in S. inversion S as [|? ? S1 F1]; subst.
  destruct Hi as [<-|Hi].
  - rewrite Forall_forall in F1. apply F1. apply in_or_app. right. exact Hj'.
  - apply IH; assumption.
Qed.

End SorterOrder.

(** ** Nodes of one octree *)

Lemma node_at_incl n q c :
  node_at n q = Some c -> incl (ExportAllPointIds c) (ExportAllPointIds n).
Proof.
  revert n. induction q as [|k q IH]; intros n H.
  - cbn in H. injection H as ->. apply incl_refl.
  - cbn [node_at] in H.
    destruct (nth_error (Children n) k) as [c'|] eqn:E; [|discriminate].
    eapply incl_tran; [apply IH; exact H|].
    eapply ids_child_incl. exact E.
Qed.

Lemma node_at_leaf n q c :
  IsLeaf n = true -> node_at n q = Some c -> q = [].
Proof.
  intros L H. destruct q as [|k q]; [reflexivity|].
  cbn [node_at] in H. unfold IsLeaf in L.
  destruct (Children n); [|discriminate]. destruct k; discriminate.
Qed.

Lemma NoDup_flat_map_nth {A B} (f : A -> list B) l :
  NoDup (flat_map f l) ->
  forall k a, nth_error l k = Some a ->
    NoDup (f a) /\
    forall k' b, nth_error l k' = Some b -> k <> k' ->
                 forall j, In j (f a) -> In j (f b) -> False.
Proof.
  induction l as [|h l IH]; intros ND k a Hk; [destruct k; discriminate|].
  cbn [flat_map] in ND.
  pose proof (NoDup_app_remove_l _ _ ND) as NDl.
  pose proof (NoDup_app_remove_r _ _ ND) as NDh.
  assert (Hdis : forall j, In j (f h) -> In j (flat_map f l) -> False).
  { intros j H1 H2. clear - ND H1 H2.
    induction (f h) as [|y ys IHy]; [destruct H1|].
    cbn [app] in ND. inversion ND as [|? ? Hn ND']; subst.
    destruct H1 as [<-|H1].
    - apply Hn. apply in_or_app. right. exact H2.
    - apply IHy; assumption. }
  destruct k as [|k].
  - injection Hk as <-. split; [exact NDh|].
    intros k' b Hk' Hne j Ha Hb. destruct k' as [|k']; [congruence|].
    cbn [nth_error] in Hk'. apply (Hdis j Ha).
    apply in_flat_map. exists b. split; [|exact Hb].
    apply nth_error_In with k'. exact Hk'.
  - cbn [nth_error] in Hk. destruct (IH NDl k a Hk) as [I1 I2].
    split; [exact I1|].
    intros k' b Hk' Hne j Ha Hb. destruct k' as [|k'].
    + injection Hk' as <-. apply (Hdis j Hb).
      apply in_flat_map. exists a. split; [|exact Ha].
      apply nth_error_In with k. exact Hk.
    + cbn [nth_error] in Hk'. apply (I2 k' b Hk' ltac:(congruence) j Ha Hb).
Qed.

Lemma NoDup_child n k c :
  NoDup (ExportAllPointIds n) -> nth_error (Children n) k = Some c ->
  NoDup (ExportAllPointIds c) /\
  forall k' c', nth_error (Children n) k' = Some c' -> k <> k' ->
    forall j, In j (ExportAllPointIds c) -> In j (ExportAllPointIds c') ->
              False.
Proof.
  intros ND Hk. rewrite ExportAllPointIds_unfold in ND.
  assert (L : IsLeaf n = false).
  { unfold IsLeaf. destruct (Children n); [destruct k; discriminate|].
    reflexivity. }
  rewrite L in ND. apply (NoDup_flat_map_nth _ _ ND k c Hk).
Qed.

Lemma NoDup_node_at n q c :
  NoDup (ExportAllPointIds n) -> node_at n q = Some c ->
  NoDup (ExportAllPointIds c).
Proof.
  revert n. induction q as [|k q IH]; intros n ND H.
  - cbn in H. injection H as ->. exact ND.
  - cbn [node_at] in H.
    destruct (nth_error (Children n) k) as [c'|] eqn:E; [|discriminate].
    apply (IH c'); [|exact H]. apply (NoDup_child n k c' ND E).
Qed.

(** Two nodes of an octree without repeated ids, neither above the
    other, share no id. *)
Lemma disjoint_ids p :
  forall n q a b,
    NoDup (ExportAllPointIds n) ->
    node_at n p = Some a -> node_at n q = Some b ->
    (forall t, p <> q ++ t) -> (forall t, q <> p ++ t) ->
    forall j, In j (ExportAllPointIds a) -> In j (ExportAllPointIds b) ->
              False.
Proof.
  induction p as [|k p IH]; intros n q a b ND Ha Hb H1 H2 j Ja Jb.
  - apply (H2 q). reflexivity.
  - destruct q as [|k' q]; [apply (H1 (k :: p)); reflexivity|].
    cbn [node_at] in Ha, Hb.
    destruct (nth_error (Children n) k) as [c|] eqn:Ec; [|discriminate].
    destruct (nth_error (Children n) k') as [c'|] eqn:Ec'; [|discriminate].
    destruct (NoDup_child n k c ND Ec) as [NDc Hdis].
    destruct (Nat.eq_dec k k') as [<-|Hne].
    + rewrite Ec in Ec'. injection Ec' as <-.
      apply (IH c q a b NDc Ha Hb) with (j := j); try assumption.
      * intros t E. apply (H1 t). cbn [app]. rewrite E. reflexivity.
      * intros t E. apply (H2 t). cbn [app]. rewrite E. reflexivity.
    + apply (Hdis k' c' Ec' Hne j).
      * apply (node_at_incl c p a Ha). exact Ja.
      * apply (node_at_incl c' q b Hb). exact Jb.
Qed.

Lemma valid_child pts root r c :
  valid_ref pts root r -> In c (child_refs r) -> valid_ref pts root c.
Proof.
  intros [Hat W] Hc. pose proof (child_refs_wf pts r c W Hc) as [Wc _].
  apply In_child_refs in Hc. destruct Hc as (k & Hk & Ep).
  split; [|exact Wc]. rewrite Ep.
  rewrite (node_at_app root (fst r) [k] (snd r) Hat).
  cbn [node_at]. rewrite Hk. reflexivity.
Qed.

Lemma valid_ids_incl pts root r :
  valid_ref pts root r -> incl (ids_of r) (ExportAllPointIds root).
Proof. intros [Hat _]. apply (node_at_incl root (fst r)). exact Hat. Qed.

Lemma valid_same_path pts root r1 r2 :
  valid_ref pts root r1 -> valid_ref pts root r2 ->
  fst r1 = fst r2 -> snd r1 = snd r2.
Proof. intros [H1 _] [H2 _] E. rewrite E in H1. congruence. Qed.

(** ** The loop over the node queue *)

Lemma NoDup_app_disjoint {A} (a b : list A) :
  NoDup (a ++ b) -> forall j, In j a -> In j b -> False.
Proof.
  induction a as [|y a IH]; intros ND j Ha Hb; [destruct Ha|].
  cbn [app] in ND. inversion ND as [|? ? Hn ND']; subst.
  destruct Ha as [<-|Ha].
  - apply Hn. apply in_or_app. right. exact Hb.
  - apply (IH ND' j Ha Hb).
Qed.

Lemma NoDup_drop_middle {A} (a b c : list A) :
  NoDup (a ++ b ++ c) -> NoDup (a ++ c).
Proof.
  intros ND.
  assert (P : Permutation (a ++ b ++ c) (b ++ a ++ c)).
  { rewrite !app_assoc. apply Permutation_app_tail, Permutation_app_comm. }
  apply (Permutation_NoDup P) in ND. apply NoDup_app_remove_l in ND. exact ND.
Qed.

Lemma NoDup_replace_part {A} (a b c b' d : list A) :
  NoDup (a ++ b ++ c) -> Permutation b (b' ++ d) -> NoDup (a ++ c ++ b').
Proof.
  intros ND P.
  assert (P' : Permutation (a ++ b ++ c) (d ++ a ++ c ++ b')).
  { rewrite P. rewrite (Permutation_app_swap_app d a).
    apply Permutation_app_head. rewrite <- app_assoc.
    rewrite (app_assoc d c b'). apply Permutation_app_comm. }
  apply (Permutation_NoDup P') in ND. apply NoDup_app_remove_l in ND. exact ND.
Qed.

Lemma flat_map_filter_split {A B} (g : A -> list B) (t : A -> bool) l :
  Permutation (flat_map g l)
    (flat_map g (filter t l) ++ flat_map g (filter (fun a => negb (t a)) l)).
Proof.
  induction l as [|a l IH]; [reflexivity|].
  cbn [flat_map filter]. destruct (t a); cbn [negb flat_map].
  - rewrite <- app_assoc. apply Permutation_app_head. exact IH.
  - rewrite IH. rewrite !app_assoc. apply Permutation_app_tail.
    apply Permutation_app_comm.
Qed.

Lemma path_eqb_true a b : path_eqb a b = true <-> a = b.
Proof.
  unfold path_eqb. destruct (list_eq_dec Nat.eq_dec a b); split;
    congruence.
Qed.

Lemma ids_of_children r :
  IsLeaf (snd r) = false ->
  ids_of r = flat_map ids_of (child_refs r).
Proof.
  intros L. unfold ids_of at 1. rewrite ExportAllPointIds_unfold, L.
  rewrite <- (map_snd_child_refs r). rewrite flat_map_concat_map, map_map.
  rewrite <- flat_map_concat_map. reflexivity.
Qed.

Lemma sort_node_points_insert_all pts x n s :
  wf_node pts n = true ->
  sort_node_points pts x n s
  = Sorter.insert_all (kdist pts x) (ExportAllPointIds n) s.
Proof.
  intros W. unfold sort_node_points, Sorter.insert_all.
  rewrite firstn_all2; [reflexivity|].
  rewrite (ok_count _ _ (wf_node_ok _ _ W)). lia.
Qed.

Lemma app_tail_split {A} (a b q : list A) k :
  a ++ [k] = b ++ q -> q <> [] -> exists q', q = q' ++ [k] /\ a = b ++ q'.
Proof.
  intros E Hq. destruct (exists_last Hq) as (q' & k' & ->).
  rewrite app_assoc in E. apply app_inj_tail in E. destruct E as [E ->].
  exists q'. auto.
Qed.

(** A node that the queue loop sets aside holds no id closer than
    [maxiDist2]. *)
Lemma knn_pruned pts root x n maxi j :
  wf_node pts n = true ->
  dlt (GetDistance2ToBoundary n x root true) maxi = false ->
  In j (ExportAllPointIds n) ->
  exists L, maxi = Fin L /\ L <= kdist pts x j.
Proof.
  intros W F Hj.
  destruct (Z.eq_dec (NumberOfPoints n) 0) as [E|E].
  - rewrite (ids_empty_count pts n W E) in Hj. destruct Hj.
  - pose proof (ok_ids _ _ (wf_node_ok _ _ W) j Hj) as (_ & _ & Hd).
    destruct (data_distance_lower_bound n root x _ E Hd) as (g & Eg & Hg).
    rewrite Eg in F. destruct maxi as [L|]; [|discriminate].
    exists L. split; [reflexivity|]. apply dlt_Fin_false in F.
    unfold kdist. rewrite Distance2_sym. lra.
Qed.

Section QueueLoop.

Variables (pts : points) (root : node) (x : point) (K : Z) (start : node_ref).
Hypothesis HK : (0 <= K < size_t_max)%Z.
Hypothesis Wroot : wf_node pts root = true.
Hypothesis NDroot : NoDup (ExportAllPointIds root).
Hypothesis Hsize :
  (Z.of_nat (length (ExportAllPointIds root)) < size_t_max)%Z.
Hypothesis Hstart : valid_ref pts root start.

Local Abbreviation f := (kdist pts x).

(** A leaf other than the start node, reached by the queue, shares no id
    with the start node. *)
Lemma leaf_apart_from_start r :
  valid_ref pts root r -> IsLeaf (snd r) = true ->
  path_eqb (fst r) (fst start) = false ->
  (forall q, fst r = fst start ++ q -> q = []) ->
  forall j, In j (ids_of r) -> In j (ids_of start) -> False.
Proof.
  intros Vr L Hp Habove j Jr Js.
  assert (Hne : fst r <> fst start).
  { intros E. apply path_eqb_true in E. congruence. }
  destruct Vr as [Hr _]. destruct Hstart as [Hs _].
  apply (disjoint_ids (fst r) root (fst start) (snd r) (snd start)
           NDroot Hr Hs) with (j := j); try assumption.
  - intros t E. pose proof (Habove t E) as ->. rewrite app_nil_r in E.
    contradiction.
  - intros t E. rewrite E in Hs.
    rewrite (node_at_app root (fst r) t (snd r) Hr) in Hs.
    pose proof (node_at_leaf _ _ _ L Hs) as ->. rewrite app_nil_r in E.
    congruence.
Qed.

Lemma handed_over_bound leaves r :
  Forall (fun r => valid_ref pts root r /\ IsLeaf (snd r) = true) leaves ->
  valid_ref pts root r ->
  NoDup (flat_map ids_of leaves ++ ids_of r) ->
  (forall j, In j (flat_map ids_of leaves) -> ~ In j (ids_of start)) ->
  (forall j, In j (ids_of r) -> In j (ids_of start) -> False) ->
  (Z.of_nat (length ((ids_of start ++ flat_map ids_of leaves) ++ ids_of r))
   < size_t_max)%Z.
Proof.
  intros Hl Vr ND Hap Hr.
  assert (ND' : NoDup ((ids_of start ++ flat_map ids_of leaves) ++ ids_of r)).
  { rewrite <- app_assoc. apply NoDup_app.
    - destruct Hstart as [Hs _]. apply (NoDup_node_at root _ _ NDroot Hs).
    - exact ND.
    - intros j Js Jr. apply in_app_or in Jr. destruct Jr as [Jr|Jr].
      + apply (Hap j Jr Js).
      + apply (Hr j Jr Js). }
  assert (Hincl : incl ((ids_of start ++ flat_map ids_of leaves) ++ ids_of r)
                       (ExportAllPointIds root)).
  { intros j Hj. apply in_app_or in Hj. destruct Hj as [Hj|Hj].
    - apply in_app_or in Hj. destruct Hj as [Hj|Hj].
      + apply (valid_ids_incl pts root start Hstart). exact Hj.
      + apply in_flat_map in Hj. destruct Hj as (l & Hl' & Hj).
        rewrite Forall_forall in Hl. destruct (Hl l Hl') as [Vl _].
        apply (valid_ids_incl pts root l Vl). exact Hj.
    - apply (valid_ids_incl pts root r Vr). exact Hj. }
  pose proof (NoDup_incl_length ND' Hincl). lia.
Qed.

Lemma knn_loop_spec :
  forall fuel nodeQueue s maxi leaves,
    (nodes_weight (map snd nodeQueue) <= fuel)%nat ->
    knn_state pts root x K start nodeQueue s maxi leaves ->
    exists s' leaves',
      knn_loop fuel pts root x (fst start) nodeQueue s maxi = Some s' /\
      knn_state pts root x K start [] s' (Sorter.LargestDist2 s') leaves'.
Proof.
  induction fuel as [|fuel IH]; intros Q s maxi leaves Hw St.
  - destruct Q as [|r rest].
    + exists s, leaves. split; [reflexivity|].
      destruct St. constructor; auto.
    + cbn [map] in Hw. rewrite nodes_weight_cons, node_count_unfold in Hw. lia.
  - destruct Q as [|r rest].
    { exists s, leaves. split; [reflexivity|].
      destruct St. constructor; auto. }
    cbn [knn_loop].
    destruct St as [Hh Hm Hv Hc Hn Ha Hap Hl].
    pose proof (Forall_inv Hv) as Vr. pose proof (Forall_inv_tail Hv) as Vrest.
    cbn [map] in Hw. rewrite nodes_weight_cons, node_count_unfold in Hw.
    cbn [flat_map] in Hn.
    assert (Ha' : forall r0 q, In r0 rest -> fst r0 = fst start ++ q -> q = []).
    { intros r0 q H0. apply Ha. right. exact H0. }
    destruct (path_eqb (fst r) (fst start)) eqn:Ep.
    + (* the start node is skipped *)
      apply path_eqb_true in Ep.
      pose proof (valid_same_path pts root r start Vr Hstart Ep) as Es.
      apply (IH rest s maxi leaves); [lia|].
      constructor; try assumption.
      * intros j Hj. destruct (Hc j Hj) as [C|[(r0 & [<-|H0] & C)|C]].
        -- left. exact C.
        -- left. apply in_or_app. left. unfold ids_of in *. rewrite <- Es.
           exact C.
        -- right. left. exists r0. auto.
        -- right. right. exact C.
      * apply NoDup_drop_middle in Hn. exact Hn.
    + destruct (IsLeaf (snd r)) eqn:L; cbn [negb].
      * (* a leaf *)
        assert (Hdis : forall j, In j (ids_of r) -> In j (ids_of start) ->
                                 False).
        { apply leaf_apart_from_start; try assumption.
          intros q. apply Ha. left. reflexivity. }
        destruct (dlt (GetDistance2ToBoundary (snd r) x root true) maxi)
          eqn:Ed.
        -- (* its points go to the sorter *)
           destruct Vr as [Hr Wr].
           rewrite (sort_node_points_insert_all pts x (snd r) s Wr).
           fold (ids_of r).
           assert (Hb : (Z.of_nat (length ((ids_of start
                                            ++ flat_map ids_of leaves)
                                           ++ ids_of r)) < size_t_max)%Z).
           { apply handed_over_bound; try assumption.
             - split; assumption.
             - rewrite app_assoc in Hn. apply NoDup_app_remove_r in Hn.
               exact Hn. }
           pose proof (SorterOrder.holds_insert_all f K (ids_of r) HK _ s
                         Hb Hh) as Hh'.
           pose proof (SorterOrder.insert_all_largest_le f K (ids_of r) HK _ s
                         Hb Hh) as Hle.
           apply (IH rest _ _ (leaves ++ [r])); [lia|].
           constructor.
           ++ rewrite flat_map_app. cbn [flat_map]. rewrite app_nil_r.
              rewrite app_assoc. exact Hh'.
           ++ reflexivity.
           ++ exact Vrest.
           ++ intros j Hj. rewrite flat_map_app. cbn [flat_map].
              rewrite app_nil_r.
              destruct (Hc j Hj) as [C|[(r0 & [<-|H0] & C)|(Lo & C1 & C2)]].
              ** left. apply in_app_or in C. apply in_or_app.
                 destruct C as [C|C]; [left; exact C|right].
                 apply in_or_app. left. exact C.
              ** left. apply in_or_app. right. apply in_or_app. right.
                 exact C.
              ** right. left. exists r0. auto.
              ** right. right. rewrite C1 in Hle.
                 destruct (Sorter.LargestDist2
                             (Sorter.insert_all f (ids_of r) s)) as [Ln|];
                   [|discriminate].
                 exists Ln. split; [reflexivity|].
                 apply dle_Fin in Hle. exact (Qle_trans _ _ _ Hle C2).
           ++ rewrite flat_map_app. cbn [flat_map]. rewrite app_nil_r.
              rewrite <- app_assoc. exact Hn.
           ++ exact Ha'.
           ++ intros j Hj. rewrite flat_map_app in Hj. cbn [flat_map] in Hj.
              rewrite app_nil_r in Hj. apply in_app_or in Hj.
              destruct Hj as [Hj|Hj]; [apply Hap; exact Hj|].
              intros Js. apply (Hdis j Hj Js).
           ++ apply Forall_app. split; [exact Hl|].
              constructor; [|constructor]. split; [split|]; assumption.
        -- (* it is set aside *)
           apply (IH rest s maxi leaves); [lia|].
           constructor; try assumption.
           ++ intros j Hj.
              destruct (Hc j Hj) as [C|[(r0 & [<-|H0] & C)|C]].
              ** left. exact C.
              ** right. right. destruct Vr as [_ Wr].
                 destruct (knn_pruned pts root x (snd r) maxi j Wr Ed C)
                   as (Lo & E1 & E2).
                 exists Lo. split; [congruence|exact E2].
              ** right. left. exists r0. auto.
              ** right. right. exact C.
           ++ apply NoDup_drop_middle in Hn. exact Hn.
      * (* an internal node *)
        set (t := fun pTheChild : node_ref =>
                    ContainsPointByData (snd pTheChild) x
                    || dlt (GetDistance2ToBoundary (snd pTheChild) x root true)
                         maxi).
        apply (IH (rest ++ filter t (child_refs r)) s maxi leaves).
        { rewrite map_app, nodes_weight_app.
          pose proof (nodes_weight_filter t (child_refs r)) as Hf.
          rewrite map_snd_child_refs in Hf.
          apply le_S_n. eapply Nat.le_trans; [|exact Hw].
          rewrite Nat.add_comm. apply le_n_S. apply Nat.add_le_mono_r.
          exact Hf. }
        constructor; try assumption.
        -- apply Forall_app. split; [exact Vrest|].
           apply Forall_forall. intros c Hc'. apply filter_In in Hc'.
           apply (valid_child pts root r c Vr). apply Hc'.
        -- intros j Hj.
           destruct (Hc j Hj) as [C|[(r0 & [<-|H0] & C)|C]].
           ++ left. exact C.
           ++ rewrite (ids_of_children r L) in C. apply in_flat_map in C.
              destruct C as (c & Hc' & Jc).
              destruct (t c) eqn:Et.
              ** right. left. exists c. split; [|exact Jc].
                 apply in_or_app. right. apply filter_In. auto.
              ** right. right. unfold t in Et. apply orb_false_iff in Et.
                 destruct Et as [_ Et].
                 destruct (child_refs_wf pts r c (proj2 Vr) Hc') as [Wc _].
                 destruct (knn_pruned pts root x (snd c) maxi j Wc Et Jc)
                   as (Lo & E1 & E2).
                 exists Lo. split; [congruence|exact E2].
           ++ right. left. exists r0. split; [|exact C].
              apply in_or_app. left. exact H0.
           ++ right. right. exact C.
        -- rewrite flat_map_app.
           apply (NoDup_replace_part _ (ids_of r) _ _
                    (flat_map ids_of
                       (filter (fun a => negb (t a)) (child_refs r))) Hn).
           rewrite (ids_of_children r L). apply flat_map_filter_split.
        -- intros r0 q H0 E. apply in_app_or in H0.
           destruct H0 as [H0|H0]; [apply (Ha' r0 q H0 E)|].
           apply filter_In in H0. destruct H0 as [H0 _].
           apply In_child_refs in H0. destruct H0 as (k & _ & Ek).
           destruct q as [|q0 q1]; [reflexivity|].
           rewrite Ek in E.
           destruct (app_tail_split _ _ _ _ E) as (q' & _ & Er);
             [discriminate|].
           pose proof (Ha r q' (or_introl eq_refl) Er) as ->.
           rewrite app_nil_r in Er. apply path_eqb_true in Er. congruence.
Qed.

End QueueLoop.

(** ** The start node *)

Lemma dlt_trans a b c : dlt a b = true -> dlt b c = true -> dlt a c = true.
Proof. intros; dorder. Qed.

Lemma nth_error_weight cs k c :
  nth_error cs k = Some c -> (node_count c <= nodes_weight cs)%nat.
Proof.
  revert k. induction cs as [|a cs IH]; intros [|k] H; try discriminate.
  - cbn in H. injection H as ->. rewrite nodes_weight_cons. lia.
  - cbn in H. rewrite nodes_weight_cons. specialize (IH k H). lia.
Qed.

Lemma child_count_lt n k c :
  nth_error (Children n) k = Some c -> (node_count c < node_count n)%nat.
Proof.
  intros H. rewrite (node_count_unfold n).
  pose proof (nth_error_weight _ _ _ H). lia.
Qed.

Lemma node_at_count n q c :
  node_at n q = Some c -> (node_count c <= node_count n)%nat.
Proof.
  revert n. induction q as [|k q IH]; intros n H.
  - cbn in H. injection H as ->. lia.
  - cbn [node_at] in H.
    destruct (nth_error (Children n) k) as [d|] eqn:E; [|discriminate].
    specialize (IH d H). pose proof (child_count_lt n k d E). lia.
Qed.

Section StartNode.

Variables (pts : points) (root : node) (x : point) (N : Z).
Hypothesis HN : (0 < N)%Z.

Local Abbreviation g c := (GetDistance2ToBoundary (snd c) x root true).

Lemma closest_fold l :
  forall m0 r0,
    let res := fold_left (closer_child root x) l (m0, r0) in
    (res = (m0, r0) /\ forall c, In c l -> dlt (g c) m0 = false) \/
    (In (snd res) l /\ dlt (g (snd res)) m0 = true).
Proof.
  induction l as [|c l IH]; intros m0 r0; cbn [fold_left].
  - left. split; [reflexivity|]. intros c [].
  - cbv zeta. unfold closer_child at 2 4 6. cbn [fst].
    destruct (dlt (g c) m0) eqn:E.
    + right. destruct (IH (g c) c) as [[E1 _]|[I1 I2]].
      * cbv zeta in E1. rewrite E1. cbn [snd]. split; [left; reflexivity|].
        exact E.
      * cbv zeta in I1, I2. split; [right; exact I1|].
        apply (dlt_trans _ _ _ I2 E).
    + destruct (IH m0 r0) as [[E1 F1]|[I1 I2]].
      * left. split; [exact E1|]. intros c' [<-|H]; [exact E|apply F1, H].
      * right. split; [right; exact I1|exact I2].
Qed.

(** Under a node that holds points the loop over the children picks a
    child that holds points. *)
Lemma closest_child_nonempty P d :
  wf_node pts (snd P) = true -> IsLeaf (snd P) = false ->
  NumberOfPoints (snd P) <> 0%Z ->
  In (closest_child root x P d) (child_refs P) /\
  NumberOfPoints (snd (closest_child root x P d)) <> 0%Z.
Proof.
  intros W L Hne.
  destruct (ids_nonempty pts (snd P) W Hne) as (j & Hj).
  destruct (ids_internal (snd P) j L Hj) as (k & c & Ek & Jc).
  pose proof (wf_node_ok _ _ W) as Ok.
  destruct (ok_child _ _ Ok k c Ek) as [_ Wc].
  pose proof (wf_node_ok _ _ Wc) as Okc.
  assert (Hc : NumberOfPoints c <> 0%Z).
  { rewrite (ok_count _ _ Okc). destruct (ExportAllPointIds c);
      [destruct Jc|cbn [length]; lia]. }
  destruct (ok_ids _ _ Okc j Jc) as (_ & _ & Hd).
  destruct (data_distance_lower_bound c root x _ Hc Hd) as (v & Ev & _).
  unfold closest_child.
  destruct (closest_fold (child_refs P) SVTK_DOUBLE_MAX d) as [[_ F]|[I1 I2]].
  - specialize (F _ (child_ref_at P k c Ek)). cbn [snd] in F.
    rewrite Ev in F. discriminate.
  - cbv zeta in I1, I2. split; [exact I1|].
    intros Z0.
    rewrite (data_distance_empty _ root x Z0) in I2. discriminate.
Qed.

Lemma closest_child_valid P d :
  valid_ref pts root P -> IsLeaf (snd P) = false ->
  NumberOfPoints (snd P) <> 0%Z ->
  valid_ref pts root (closest_child root x P d).
Proof.
  intros V L Hne.
  apply (valid_child pts root P _ V).
  apply (closest_child_nonempty P d (proj2 V) L Hne).
Qed.

Lemma descend_outside_spec fuel :
  forall pThisNode theParent,
    (node_count (snd pThisNode) <= fuel)%nat ->
    valid_ref pts root pThisNode -> valid_ref pts root theParent ->
    exists a b np,
      descend_outside fuel root x N pThisNode theParent
        (NumberOfPoints (snd pThisNode)) = Some (a, b, np) /\
      valid_ref pts root a /\ valid_ref pts root b.
Proof.
  induction fuel as [|fuel IH]; intros p q Hf Vp Vq.
  - rewrite node_count_unfold in Hf. lia.
  - cbn [descend_outside].
    destruct (negb (IsLeaf (snd p)) && (N <? NumberOfPoints (snd p))%Z)
      eqn:E.
    + apply andb_true_iff in E. destruct E as [E1 E2].
      apply negb_true_iff in E1. apply Z.ltb_lt in E2.
      assert (Hne : NumberOfPoints (snd p) <> 0%Z) by lia.
      destruct (closest_child_nonempty p p (proj2 Vp) E1 Hne) as [Hin _].
      pose proof (valid_child pts root p _ Vp Hin) as Vc.
      apply In_child_refs in Hin. destruct Hin as (k & Ek & _).
      pose proof (child_count_lt _ _ _ Ek) as Hlt.
      apply (IH _ p); [lia|exact Vc|exact Vp].
    + exists p, q, (NumberOfPoints (snd p)). auto.
Qed.

Lemma descend_inside_spec fuel :
  forall pThisNode theParent,
    (node_count (snd pThisNode) <= fuel)%nat ->
    valid_ref pts root pThisNode -> valid_ref pts root theParent ->
    exists a b,
      descend_inside fuel x N pThisNode theParent
        (NumberOfPoints (snd pThisNode))
      = Some (a, b, NumberOfPoints (snd a)) /\
      valid_ref pts root a /\ valid_ref pts root b /\
      ((a = pThisNode /\ b = theParent) \/
       (IsLeaf (snd b) = false /\ (N < NumberOfPoints (snd b))%Z /\
        GetChild b (GetChildIndex (snd b) x) = Some a)).
Proof.
  induction fuel as [|fuel IH]; intros p q Hf Vp Vq.
  - rewrite node_count_unfold in Hf. lia.
  - cbn [descend_inside].
    destruct (negb (IsLeaf (snd p)) && (N <? NumberOfPoints (snd p))%Z)
      eqn:E.
    + apply andb_true_iff in E. destruct E as [E1 E2].
      apply negb_true_iff in E1. apply Z.ltb_lt in E2.
      destruct (wf_child_exists pts (snd p) x (proj2 Vp) E1) as (c & Ec).
      unfold GetChild. rewrite Ec.
      set (r := (fst p ++ [GetChildIndex (snd p) x], c)).
      assert (Vr : valid_ref pts root r).
      { apply (valid_child pts root p r Vp). apply child_ref_at. exact Ec. }
      pose proof (child_count_lt _ _ _ Ec) as Hlt.
      destruct (IH r p) as (a & b & Ea & Va & Vb & Hor);
        [cbn [snd r]; subst r; cbn [snd]; lia|exact Vr|exact Vp|].
      exists a, b. split; [exact Ea|]. split; [exact Va|].
      split; [exact Vb|]. right. destruct Hor as [[-> ->]|Hor]; [|exact Hor].
      split; [exact E1|]. split; [exact E2|].
      unfold GetChild. rewrite Ec. reflexivity.
    + exists p, q. split; [reflexivity|]. auto.
Qed.

Lemma valid_count_le r :
  valid_ref pts root r -> (node_count (snd r) <= node_count root)%nat.
Proof. intros [H _]. apply (node_at_count root (fst r)). exact H. Qed.

Lemma find_start_outside fuel inner pThisNode theParent :
  (node_count root <= inner)%nat ->
  valid_ref pts root pThisNode -> valid_ref pts root theParent ->
  ContainsPoint (snd pThisNode) x = false ->
  exists st,
    find_start_node (S fuel) inner root x N pThisNode theParent
      (NumberOfPoints (snd pThisNode)) = Some st /\
    valid_ref pts root st.
Proof.
  intros Hi Vp Vq C. cbn [find_start_node]. rewrite C.
  pose proof (valid_count_le _ Vp) as Hc.
  destruct (descend_outside_spec inner pThisNode theParent)
    as (a & b & np & E & Va & Vb); [lia|exact Vp|exact Vq|].
  rewrite E. destruct (N <=? np)%Z; eauto.
Qed.

(** The search for the start node ends, on a node of the octree. *)
Lemma find_start_node_spec fuel inner pThisNode theParent :
  (node_count root <= inner)%nat ->
  valid_ref pts root pThisNode -> valid_ref pts root theParent ->
  NumberOfPoints (snd pThisNode) <> 0%Z ->
  exists st,
    find_start_node (S (S fuel)) inner root x N pThisNode theParent
      (NumberOfPoints (snd pThisNode)) = Some st /\
    valid_ref pts root st.
Proof.
  intros Hi Vp Vq Hne.
  destruct (ContainsPoint (snd pThisNode) x) eqn:C;
    [|apply find_start_outside; assumption].
  cbn [find_start_node]. rewrite C.
  pose proof (valid_count_le _ Vp) as Hc.
  destruct (descend_inside_spec inner pThisNode theParent)
    as (a & b & E & Va & Vb & Hor); [lia|exact Vp|exact Vq|].
  rewrite E.
  destruct (NumberOfPoints (snd a) =? 0)%Z eqn:Ez; cbn [negb].
  - apply Z.eqb_eq in Ez.
    destruct Hor as [[-> _]|(Lb & Nb & Ga)]; [contradiction|].
    assert (Hb : NumberOfPoints (snd b) <> 0%Z) by lia.
    destruct (closest_child_nonempty b a (proj2 Vb) Lb Hb) as [Hin Hcne].
    set (c := closest_child root x b a) in *.
    pose proof (valid_child pts root b c Vb Hin) as Vc.
    assert (Cc : ContainsPoint (snd c) x = false).
    { destruct (ContainsPoint (snd c) x) eqn:Cc; [|reflexivity].
      exfalso. apply In_child_refs in Hin. destruct Hin as (k & Ek & _).
      pose proof (wf_node_ok _ _ (proj2 Vb)) as Ok.
      destruct (ok_child _ _ Ok k _ Ek) as [Hbox _].
      pose proof (wf_child_index_lt pts _ _ _ (proj2 Vb) Ek) as Hk.
      pose proof (child_index_of_contained (snd b) k (snd c) x Hk Hbox Cc)
        as Hidx.
      unfold GetChild in Ga. rewrite Hidx, Ek in Ga.
      injection Ga as Ga. rewrite <- Ga in Ez. cbn [snd] in Ez.
      contradiction. }
    apply find_start_outside; assumption.
  - destruct (N <=? NumberOfPoints (snd a))%Z; eauto.
Qed.

End StartNode.

(** ** Equal keys keep the order of arrival *)

Module SorterTies.
Import Sorter SorterFacts SorterOrder.

Lemma at_key_app f d a b : at_key f d (a ++ b) = at_key f d a ++ at_key f d b.
Proof. apply filter_app. Qed.

Lemma at_key_above f d m :
  keyed f m -> Forall (fun e => d < fst e) m -> at_key f d (flat m) = [].
Proof.
  induction m as [|[k ids] m IH]; intros Hk Ha; [reflexivity|].
  unfold flat. cbn [map concat snd]. rewrite at_key_app.
  inversion Ha as [|? ? A1 A2]; subst. cbn [fst] in A1.
  fold (flat m). rewrite IH.
  - rewrite app_nil_r. unfold at_key. apply filter_none.
    intros id Hid. apply not_true_iff_false. intros E. apply Qeqb_eq in E.
    pose proof (Hk k ids id (or_introl eq_refl) Hid). lra.
  - intros k0 ids0 id0 Hin. apply (Hk k0 ids0 id0). right. exact Hin.
  - exact A2.
Qed.

Lemma at_key_one_above f d id m :
  keyed f m -> Forall (fun e => f id < fst e) m ->
  at_key f d [id] ++ at_key f d (flat m) = at_key f d (flat m) ++ at_key f d [id].
Proof.
  intros Hk Ha. unfold at_key at 1 4. cbn [filter].
  destruct (Qeqb (f id) d) eqn:E.
  - apply Qeqb_eq in E. rewrite (at_key_above f d m Hk).
    + rewrite app_nil_r. reflexivity.
    + eapply Forall_impl; [|exact Ha]. cbv beta. intros e He. lra.
  - rewrite app_nil_r. reflexivity.
Qed.

Lemma keyed_tail f e m : keyed f (e :: m) -> keyed f m.
Proof. intros H k ids id Hin. apply (H k ids id). right. exact Hin. Qed.

Lemma map_add_at_key f d m id :
  keys_sorted m -> keyed f m ->
  at_key f d (flat (map_add m (f id) id))
  = at_key f d (flat m) ++ at_key f d [id].
Proof.
  induction m as [|[k ids] m IH]; intros Hs Hk.
  - reflexivity.
  - cbn [map_add]. destruct (f id ?= k) eqn:E.
    + apply Qeq_alt in E. unfold flat. cbn [map concat snd].
      fold (flat m). rewrite !at_key_app, <- !app_assoc. f_equal.
      apply at_key_one_above; [apply (keyed_tail f _ _ Hk)|].
      pose proof (keys_sorted_head _ _ _ Hs) as Hh.
      eapply Forall_impl; [|exact Hh]. cbv beta. intros e He. lra.
    + apply Qlt_alt in E.
      change (flat ((f id, [id]) :: (k, ids) :: m))
        with ([id] ++ flat ((k, ids) :: m)).
      rewrite at_key_app.
      apply at_key_one_above; [exact Hk|].
      constructor; [exact E|].
      pose proof (keys_sorted_head _ _ _ Hs) as Hh.
      eapply Forall_impl; [|exact Hh]. cbv beta. intros e He. lra.
    + unfold flat. cbn [map concat snd]. fold (flat m).
      fold (flat (map_add m (f id) id)). rewrite !at_key_app, <- !app_assoc.
      f_equal. apply IH.
      * cbn [keys_sorted] in Hs. apply Hs.
      * apply (keyed_tail f _ _ Hk).
Qed.

(** The ids at one key come out of the grouping in the order in which
    they went in. *)
Lemma group_stable f d V : at_key f d (flat (group f V)) = at_key f d V.
Proof.
  induction V as [|id V IH] using rev_ind; [reflexivity|].
  rewrite group_snoc, map_add_at_key, IH, at_key_app;
    [reflexivity|apply group_sorted|apply group_keyed].
Qed.

Lemma at_key_firstn f d n l :
  exists rest, at_key f d l = at_key f d (firstn n l) ++ rest.
Proof.
  exists (at_key f d (skipn n l)).
  rewrite <- at_key_app, firstn_skipn. reflexivity.
Qed.

End SorterTies.

(** ** The K nearest points *)

Lemma firstn_In {A} (a : A) n l : In a (firstn n l) -> In a l.
Proof.
  intros H. rewrite <- (firstn_skipn n l). apply in_or_app. left. exact H.
Qed.

Section NearestN.

Variables (pts : points) (root : node) (x : point) (K : Z).
Hypothesis HK : (1 <= K <= NumberOfPoints root)%Z.
Hypothesis W : wf_node pts root = true.
Hypothesis ND : NoDup (ExportAllPointIds root).
Hypothesis Hsize : (NumberOfPoints root < size_t_max)%Z.

Local Abbreviation f := (kdist pts x).

Lemma root_count : NumberOfPoints root = Z.of_nat (length (ExportAllPointIds root)).
Proof. apply (ok_count _ _ (wf_node_ok _ _ W)). Qed.

Lemma root_valid : valid_ref pts root ([], root).
Proof. split; [reflexivity|exact W]. Qed.

(** The search ends with every node of the queue settled. *)
Lemma closest_n_spec :
  exists start leaves s,
    closest_n pts root K x = Some (Sorter.GetSortedIds s) /\
    valid_ref pts root start /\
    knn_state pts root x K start [] s (Sorter.LargestDist2 s) leaves.
Proof.
  pose proof root_count as Hc. pose proof root_valid as Vr.
  assert (HK' : (0 <= K < size_t_max)%Z) by lia.
  assert (Hs : (Z.of_nat (length (ExportAllPointIds root)) < size_t_max)%Z)
    by lia.
  assert (Hstart : exists start,
             find_start_node (S (node_count root)) (S (node_count root))
               root x K ([], root) ([], root) (NumberOfPoints root)
             = Some start /\ valid_ref pts root start).
  { pose proof (node_count_unfold root) as Hn.
    pose proof (find_start_node_spec pts root x K ltac:(lia)
                  (nodes_weight (Children root)) (S (node_count root))
                  ([], root) ([], root) ltac:(lia) Vr Vr) as H.
    cbn [snd] in H. rewrite <- Hn in H. apply H. lia. }
  destruct Hstart as (start & Es & Vs).
  unfold closest_n. cbv zeta. rewrite Es.
  rewrite (sort_node_points_insert_all pts x (snd start) _ (proj2 Vs)).
  fold (ids_of start).
  set (s0 := Sorter.insert_all f (ids_of start) (Sorter.New K)).
  assert (Hlen : (Z.of_nat (length ([] ++ ids_of start)) < size_t_max)%Z).
  { cbn [app].
    pose proof (NoDup_incl_length
                  (NoDup_node_at root _ _ ND (proj1 Vs))
                  (valid_ids_incl pts root start Vs)) as Hle.
    unfold ids_of. lia. }
  pose proof (SorterOrder.holds_insert_all f K (ids_of start) HK' [] _ Hlen
                (SorterOrder.holds_New f K HK')) as Hh.
  fold s0 in Hh. cbn [app] in Hh.
  destruct (knn_loop_spec pts root x K start HK' ND Hs Vs
              (S (node_count root)) [([], root)] s0
              (Sorter.GetLargestDist2 s0) [])
    as (s' & leaves & El & St).
  - apply le_S, node_count_weight.
  - constructor.
    + cbn [flat_map]. rewrite app_nil_r. exact Hh.
    + reflexivity.
    + constructor; [exact Vr|constructor].
    + intros j Hj. right. left. exists ([], root). split; [left; reflexivity|].
      exact Hj.
    + cbn [flat_map app]. rewrite app_nil_r. exact ND.
    + intros r q [<-|[]] E. cbn [fst] in E. symmetry in E.
      apply app_eq_nil in E. apply E.
    + intros j [].
    + constructor.
  - rewrite El. exists start, leaves, s'. auto.
Qed.

(** What the settled sorter exports. *)
Lemma knn_final_selection start leaves s :
  valid_ref pts root start ->
  knn_state pts root x K start [] s (Sorter.LargestDist2 s) leaves ->
  let V := ids_of start ++ flat_map ids_of leaves in
  let out := Sorter.GetSortedIds s in
  Z.of_nat (length out) = K /\
  NoDup out /\
  incl out (ExportAllPointIds root) /\
  StronglySorted (fun i j => f i <= f j) out /\
  (forall i j, In i out -> In j (ExportAllPointIds root) -> ~ In j out ->
               f i <= f j) /\
  forall d, exists rest,
    Sorter.at_key f d V = Sorter.at_key f d out ++ rest.
Proof.
  intros Vs [Hh _ _ Hc Hn _ Hap Hl] V out.
  fold V in Hh, Hc.
  assert (Eout : out = firstn (Z.to_nat K) (Sorter.flat (Sorter.group f V))).
  { apply SorterOrder.GetSortedIds_group; [lia|exact Hh]. }
  assert (NDV : NoDup V).
  { apply NoDup_app.
    - apply (NoDup_node_at root _ _ ND (proj1 Vs)).
    - cbn [flat_map] in Hn. rewrite app_nil_r in Hn. exact Hn.
    - intros j Js Jl. apply (Hap j Jl Js). }
  assert (InclV : incl V (ExportAllPointIds root)).
  { intros j Hj. apply in_app_or in Hj. destruct Hj as [Hj|Hj].
    - apply (valid_ids_incl pts root start Vs). exact Hj.
    - apply in_flat_map in Hj. destruct Hj as (l & Hl' & Hj).
      rewrite Forall_forall in Hl. destruct (Hl l Hl') as [Vl _].
      apply (valid_ids_incl pts root l Vl). exact Hj. }
  assert (Hlen : (Z.to_nat K <= length V)%nat).
  { destruct (Sorter.LargestDist2 s) as [L|] eqn:EL.
    - destruct (SorterOrder.holds_cut_bound f K V s L Hh EL) as [Hb _].
      destruct (Sorter.holds_prefix _ _ _ _ Hh) as (rest & Ep).
      pose proof (Permutation_length (SorterOrder.group_flat f V)) as Hp.
      rewrite Ep, SorterOrder.flat_app, length_app in Hp.
      lia.
    - assert (Hin : incl (ExportAllPointIds root) V).
      { intros j Hj. destruct (Hc j Hj) as [C|[(r & [] & _)|(L & C & _)]];
          [exact C|discriminate]. }
      pose proof (NoDup_incl_length ND Hin) as Hle.
      pose proof root_count. lia. }
  destruct (SorterOrder.group_selection f (Z.to_nat K) V Hlen)
    as (S1 & S2 & S3 & S4 & S5).
  cbv zeta in S1, S2, S3, S4, S5. rewrite <- Eout in S1, S2, S3, S4, S5.
  split; [lia|]. split; [exact (S3 NDV)|].
  split; [intros j Hj; apply InclV, S2, Hj|].
  split; [exact S4|]. split.
  - intros i j Hi Hj Hnj.
    destruct (Hc j Hj) as [C|[(r & [] & _)|(L & C1 & C2)]].
    + apply (S5 i j Hi C Hnj).
    + destruct (SorterOrder.holds_cut_bound f K V s L Hh C1) as [_ Hb].
      assert (Hi' : In i (Sorter.flat (Sorter.dist2ToIds s))).
      { unfold out, Sorter.GetSortedIds in Hi. cbv zeta in Hi.
        apply firstn_In in Hi. exact Hi. }
      specialize (Hb i Hi').
      exact (Qle_trans _ _ _ Hb C2).
  - intros d. rewrite Eout, <- (SorterTies.group_stable f d V).
    apply SorterTies.at_key_firstn.
Qed.

End NearestN.




(** * Further properties of the sorter and of the locator *)

(** ** The sorter on its own *)

Module SorterExport.
Import Sorter SorterFacts SorterOrder SorterTies.

Lemma StronglySorted_app_inv {A} (R : A -> A -> Prop) l1 l2 :
  StronglySorted R (l1 ++ l2) ->
  StronglySorted R l1 /\ forall a b, In a l1 -> In b l2 -> R a b.
Proof.
  induction l1 as [|x l1 IH]; intros S.
  - split; [constructor|]. intros a b [].
  - cbn [app] in S. inversion S as [|? ? S1 F1]; subst.
    destruct (IH S1) as [I1 I2]. apply Forall_app in F1.
    destruct F1 as [F1 F2]. split; [constructor; assumption|].
    intros a b [<-|Ha] Hb.
    + rewrite Forall_forall in F2. apply F2, Hb.
    + apply I2; assumption.
Qed.

Lemma keys_sorted_app_r a b : keys_sorted (a ++ b) -> keys_sorted b.
Proof.
  induction a as [|[k ids] a IH]; intros H; [exact H|].
  apply IH. cbn [app keys_sorted] in H. apply H.
Qed.

(** The sorter after the pairs of [V] in order. *)
Lemma holds_from_New f K V :
  (0 <= K < size_t_max)%Z ->
  (Z.of_nat (length V) < size_t_max)%Z ->
  holds f K V (insert_all f V (New K)).
Proof.
  intros HK HV.
  apply (holds_insert_all f K V HK [] (New K)); [exact HV|].
  apply holds_New. exact HK.
Qed.

(** X1: a sorter of capacity [K] that was handed the ids [V] under the
    keys [f], fewer than 2^64 of them, exports [min K |V|] of them in
    ascending key order, and what it leaves out has keys at least as
    large as every key it exports. *)
Theorem SortPoints_exports_smallest f K V :
  (0 <= K < size_t_max)%Z ->
  (Z.of_nat (length V) < size_t_max)%Z ->
  let out := GetSortedIds (insert_all f V (New K)) in
  exists rest,
    Permutation (out ++ rest) V /\
    length out = Nat.min (Z.to_nat K) (length V) /\
    StronglySorted (fun i j => f i <= f j) out /\
    forall i j, In i out -> In j rest -> f i <= f j.
Proof.
  intros HK HV out.
  pose proof (holds_from_New f K V HK HV) as Hh.
  assert (Eout : out = firstn (Z.to_nat K) (flat (group f V))).
  { apply GetSortedIds_group; [lia|exact Hh]. }
  exists (skipn (Z.to_nat K) (flat (group f V))).
  pose proof (firstn_skipn (Z.to_nat K) (flat (group f V))) as Split.
  rewrite <- Eout in Split.
  pose proof (flat_sorted f _ (group_sorted f V) (group_keyed f V)) as S.
  rewrite <- Split in S. apply StronglySorted_app_inv in S.
  split; [rewrite Split; apply group_flat|].
  split; [|exact S].
  rewrite Eout, length_firstn.
  rewrite (Permutation_length (group_flat f V)). reflexivity.
Qed.

Lemma SortPoints_exports_smallest_witness :
  let f := fun id => inject_Z (Z.abs (id - 3)) in
  let out := GetSortedIds (insert_all f [0; 5; 1; 3; 4]%Z (New 2)) in
  exists rest,
    Permutation (out ++ rest) [0; 5; 1; 3; 4]%Z /\
    length out = Nat.min (Z.to_nat 2) 5 /\
    StronglySorted (fun i j => f i <= f j) out /\
    forall i j, In i out -> In j rest -> f i <= f j.
Proof.
  apply (SortPoints_exports_smallest
           (fun id => inject_Z (Z.abs (id - 3))) 2 [0; 5; 1; 3; 4]%Z).
  - vm_compute. split; [discriminate|reflexivity].
  - vm_compute. reflexivity.
Defined.

(** X2: ids handed to the sorter under one key are exported in the order
    in which they were handed over: the exported ids at a key are an
    initial part of the ids of [V] at that key. *)
Theorem SortPoints_ties_in_arrival_order f K V d :
  (0 <= K < size_t_max)%Z ->
  (Z.of_nat (length V) < size_t_max)%Z ->
  exists rest,
    at_key f d V
    = at_key f d (GetSortedIds (insert_all f V (New K))) ++ rest.
Proof.
  intros HK HV.
  rewrite (GetSortedIds_group f K V _ ltac:(lia) (holds_from_New f K V HK HV)).
  rewrite <- (group_stable f d V). apply at_key_firstn.
Qed.

Lemma SortPoints_ties_in_arrival_order_witness :
  exists rest,
    at_key (fun id => inject_Z (Z.abs (id - 3))) 1 [0; 4; 1; 2]%Z
    = at_key (fun id => inject_Z (Z.abs (id - 3))) 1
        (GetSortedIds
           (insert_all (fun id => inject_Z (Z.abs (id - 3)))
              [0; 4; 1; 2]%Z (New 2)))
      ++ rest.
Proof.
  apply (SortPoints_ties_in_arrival_order
           (fun id => inject_Z (Z.abs (id - 3))) 2 [0; 4; 1; 2]%Z 1).
  - vm_compute. split; [discriminate|reflexivity].
  - vm_compute. reflexivity.
Defined.

(** X3: while [LargestDist2] is the sentinel the sorter holds every pair
    it was handed; once it is a number [L], the sorter holds more than
    [K] ids and, of the ids handed to it, exactly those whose key is at
    most [L]. *)
Theorem SortPoints_holds_all_within_largest f K V :
  (0 <= K < size_t_max)%Z ->
  (Z.of_nat (length V) < size_t_max)%Z ->
  let s := insert_all f V (New K) in
  (GetLargestDist2 s = SVTK_DOUBLE_MAX ->
     Permutation (flat (dist2ToIds s)) V) /\
  (forall L, GetLargestDist2 s = Fin L ->
     (K < Z.of_nat (length (flat (dist2ToIds s))))%Z /\
     forall id, In id V -> (In id (flat (dist2ToIds s)) <-> f id <= L)).
Proof.
  intros HK HV s.
  pose proof (holds_from_New f K V HK HV) as Hh. fold s in Hh.
  unfold GetLargestDist2. split.
  - intros E. rewrite (holds_all _ _ _ _ Hh E). apply group_flat.
  - intros L E.
    destruct (holds_cut_bound f K V s L Hh E) as [Hc Hb].
    split; [exact Hc|]. intros id Hid. split; [apply Hb|].
    intros Hle.
    destruct (holds_prefix _ _ _ _ Hh) as (rest & Ep).
    apply (Permutation_in _ (Permutation_sym (group_flat f V))) in Hid.
    rewrite Ep, flat_app in Hid. apply in_app_or in Hid.
    destruct Hid as [Hid|Hid]; [exact Hid|exfalso].
    destruct (holds_cut _ _ _ _ Hh L E) as (_ & ids & El).
    unfold flat in Hid. apply in_concat in Hid.
    destruct Hid as (l & Hl & Hin). apply in_map_iff in Hl.
    destruct Hl as ([k ids'] & <- & He). cbn [snd] in Hin.
    pose proof (group_keyed f V k ids' id) as Hkey.
    rewrite Ep in Hkey.
    specialize (Hkey (in_or_app _ _ _ (or_intror He)) Hin).
    pose proof (group_sorted f V) as Hs. rewrite Ep in Hs.
    pose proof (last_entry_split _ _ El) as Em.
    rewrite Em, <- app_assoc in Hs. apply keys_sorted_app_r in Hs.
    cbn [app] in Hs. pose proof (keys_sorted_head _ _ _ Hs) as Hh'.
    rewrite Forall_forall in Hh'. specialize (Hh' _ He). cbn [fst] in Hh'.
    lra.
Qed.

Lemma SortPoints_holds_all_within_largest_witness :
  let f := fun id => inject_Z (Z.abs (id - 3)) in
  let s := insert_all f [0; 5; 1; 3; 4]%Z (New 2) in
  (GetLargestDist2 s = SVTK_DOUBLE_MAX ->
     Permutation (flat (dist2ToIds s)) [0; 5; 1; 3; 4]%Z) /\
  (forall L, GetLargestDist2 s = Fin L ->
     (2 < Z.of_nat (length (flat (dist2ToIds s))))%Z /\
     forall id, In id [0; 5; 1; 3; 4]%Z ->
                (In id (flat (dist2ToIds s)) <-> f id <= L)).
Proof.
  apply (SortPoints_holds_all_within_largest
           (fun id => inject_Z (Z.abs (id - 3))) 2 [0; 5; 1; 3; 4]%Z).
  - vm_compute. split; [discriminate|reflexivity].
  - vm_compute. reflexivity.
Defined.

End SorterExport.

(** ** The root box of [InitPointInsertion] *)

Lemma copy_loop_max b0 b1 b2 b3 b4 b5 :
  exists M,
    fold_left (init_copy_step [b0; b1; b2; b3; b4; b5]) axes
      (repeat 0 6, repeat 0 3, 0)
    = ([b0; b1; b2; b3; b4; b5], [b1 - b0; b3 - b2; b5 - b4], M) /\
    0 <= M /\ b1 - b0 <= M /\ b3 - b2 <= M /\ b5 - b4 <= M /\
    (M == 0 \/ M == b1 - b0 \/ M == b3 - b2 \/ M == b5 - b4).
Proof.
  eexists. split; [cbn; reflexivity|].
  destruct (Qltb 0 (b1 - b0)) eqn:E1;
    [apply Qltb_lt in E1|apply Qltb_nlt in E1];
    (destruct (Qltb _ (b3 - b2)) eqn:E2;
     [apply Qltb_lt in E2|apply Qltb_nlt in E2]);
    (destruct (Qltb _ (b5 - b4)) eqn:E3;
     [apply Qltb_lt in E3|apply Qltb_nlt in E3]);
    (split; [lra|]); (split; [lra|]); (split; [lra|]); (split; [lra|]).
  all: try (left; reflexivity).
  all: try (right; left; reflexivity).
  all: try (right; right; left; reflexivity).
  all: try (right; right; right; reflexivity).
Qed.

(** The box handed to [SetBounds], axis by axis: [M] is the largest
    extent of the given bounds, or 0 when none is positive. *)
Lemma init_root_box_formula cubic b0 b1 b2 b3 b4 b5 i :
  (i < 3)%nat ->
  let bounds := [b0; b1; b2; b3; b4; b5] in
  let lo := array_get bounds (2 * i) in
  let hi := array_get bounds (2 * i + 1) in
  let r := init_root_box cubic bounds in
  exists M,
    snd (init_adjusted cubic bounds) = M /\
    0 <= M /\ b1 - b0 <= M /\ b3 - b2 <= M /\ b5 - b4 <= M /\
    (M == 0 \/ M == b1 - b0 \/ M == b3 - b2 \/ M == b5 - b4) /\
    (cubic = true ->
       array_get r (2 * i)
       == lo - (1 # 2) * (M - (hi - lo)) - M * (1 # 100000) /\
       array_get r (2 * i + 1) == hi + (1 # 2) * (M - (hi - lo))) /\
    (cubic = false ->
       array_get r (2 * i)
       == (if Qltb (hi - lo) (M * (1 # 10)) then hi - M * (1 # 10)
           else lo - M * (1 # 100000)) /\
       array_get r (2 * i + 1)
       == (if Qltb (hi - lo) (M * (1 # 10)) then lo + M * (1 # 10)
           else hi)).
Proof.
  intros Hi bounds lo hi r.
  destruct (copy_loop_max b0 b1 b2 b3 b4 b5)
    as (M & HM & M0 & M1 & M2 & M3 & Mor).
  exists M. subst r bounds. unfold init_root_box, init_adjusted.
  rewrite HM. unfold fudge_ratio, slab_ratio.
  set (bounds := [b0; b1; b2; b3; b4; b5]) in *.
  set (dd := [b1 - b0; b3 - b2; b5 - b4]) in *.
  assert (Hdd : array_get dd i = hi - lo).
  { assert (Hi' : i = 0%nat \/ i = 1%nat \/ i = 2%nat) by lia.
    destruct Hi' as [-> | [-> | ->]]; reflexivity. }
  destruct cubic.
  - pose proof (cube_loop_axis M bounds dd i eq_refl eq_refl Hi) as C.
    destruct (fold_left (init_cube_step M) axes (bounds, dd)) as [t' dd'].
    cbn [fst snd] in C. destruct C as (Lt & Ld & C0 & C1 & Cd).
    pose proof (fix_loop_axis dd' (M * (1 # 10)) (M * (1 # 100000)) t' i
                  Lt Ld Hi) as F.
    cbn [snd]. split; [reflexivity|].
    do 5 (split; [assumption|]).
    split; [|intros; discriminate]. intros _.
    destruct F as [-> ->]. rewrite Cd, C0, C1, Hdd. fold lo hi.
    destruct (Qeqb (hi - lo) M) eqn:E;
      [apply Qeqb_eq in E|]; qcases; split; lra.
  - pose proof (fix_loop_axis dd (M * (1 # 10)) (M * (1 # 100000)) bounds i
                  eq_refl eq_refl Hi) as F.
    cbn [snd]. split; [reflexivity|].
    do 5 (split; [assumption|]).
    split; [intros; discriminate|]. intros _.
    destruct F as [-> ->]. rewrite Hdd. fold lo hi.
    split; reflexivity.
Qed.

Lemma new_root_coords b i :
  (i < 3)%nat ->
  coord (MinBounds (NewNodeWithBounds b)) i = array_get b (2 * i) /\
  coord (MaxBounds (NewNodeWithBounds b)) i = array_get b (2 * i + 1).
Proof.
  intros Hi. assert (Hi' : i = 0%nat \/ i = 1%nat \/ i = 2%nat) by lia.
  destruct Hi' as [-> | [-> | ->]]; split; reflexivity.
Qed.

Lemma InitPointInsertion_root l pts bounds :
  InitPointInsertion l (Some pts) bounds
  = ({| FudgeFactor :=
          snd (init_adjusted (BuildCubicOctree l) bounds) * fudge_ratio;
        OctreeMaxDimSize := snd (init_adjusted (BuildCubicOctree l) bounds);
        BuildCubicOctree := BuildCubicOctree l;
        MaxPointsPerLeaf := MaxPointsPerLeaf l;
        InsertTolerance2 := Tolerance l * Tolerance l;
        Tolerance := Tolerance l;
        LocatorPoints := Some pts;
        OctreeRootNode :=
          Some (NewNodeWithBounds
                  (init_root_box (BuildCubicOctree l) bounds)) |}, 1%Z).
Proof.
  unfold InitPointInsertion. cbn [BuildCubicOctree FreeSearchStructure
    MaxPointsPerLeaf Tolerance].
  destruct (init_adjusted (BuildCubicOctree l) bounds) as [[t dd] M].
  reflexivity.
Qed.

(** X4: when some extent of the given bounds is positive,
    [InitPointInsertion] returns 1 and sets up an empty leaf as the root
    whose box contains, in the half-open sense of [ContainsPoint], every
    point that lies within the given bounds, the points on the lower
    faces included. *)
Theorem InitPointInsertion_root_holds_bounds l pts b0 b1 b2 b3 b4 b5 p :
  in_closed (b0, b2, b4) (b1, b3, b5) p = true ->
  b0 < b1 \/ b2 < b3 \/ b4 < b5 ->
  let r := InitPointInsertion l (Some pts) [b0; b1; b2; b3; b4; b5] in
  exists root,
    snd r = 1%Z /\
    OctreeRootNode (fst r) = Some root /\
    LocatorPoints (fst r) = Some pts /\
    NumberOfPoints root = 0%Z /\ IsLeaf root = true /\
    ContainsPoint root p = true.
Proof.
  intros Hp Hpos r. subst r. rewrite InitPointInsertion_root. cbn [fst snd
    OctreeRootNode LocatorPoints].
  eexists. split; [reflexivity|]. split; [reflexivity|].
  split; [reflexivity|]. split; [reflexivity|]. split; [reflexivity|].
  unfold ContainsPoint. apply in_half_open_axes. intros a Ha.
  apply in_closed_iff in Hp. cbn [coord] in Hp.
  destruct Hp as (P0 & P1 & P2).
  destruct (new_root_coords
              (init_root_box (BuildCubicOctree l) [b0; b1; b2; b3; b4; b5])
              a Ha) as [-> ->].
  destruct (init_root_box_formula (BuildCubicOctree l) b0 b1 b2 b3 b4 b5 a Ha)
    as (M & _ & M0 & M1 & M2 & M3 & _ & Hc & Hn).
  assert (HM : 0 < M) by (destruct Hpos as [H|[H|H]]; lra).
  assert (Ha' : a = 0%nat \/ a = 1%nat \/ a = 2%nat) by lia.
  destruct (BuildCubicOctree l).
  - destruct (Hc eq_refl) as [-> ->].
    destruct Ha' as [-> | [-> | ->]]; cbn [array_get nth Nat.mul Nat.add];
      lra.
  - destruct (Hn eq_refl) as [-> ->].
    destruct Ha' as [-> | [-> | ->]]; cbn [array_get nth Nat.mul Nat.add];
      qcases; lra.
Qed.

Lemma InitPointInsertion_root_holds_bounds_witness :
  let r := InitPointInsertion (NewLocator (1 # 1000)) (Some [])
             [0; 1; 0; 1; 0; 0] in
  exists root,
    snd r = 1%Z /\
    OctreeRootNode (fst r) = Some root /\
    LocatorPoints (fst r) = Some [] /\
    NumberOfPoints root = 0%Z /\ IsLeaf root = true /\
    ContainsPoint root (0, 1, 0) = true.
Proof.
  apply (InitPointInsertion_root_holds_bounds (NewLocator (1 # 1000)) []
           0 1 0 1 0 0 (0, 1, 0)).
  - reflexivity.
  - left. reflexivity.
Defined.

(** X5: bounds that are a single point give a root box that is this
    point: the largest extent and the fudge factor are 0 and
    [ContainsPoint] of the root fails for every point, the point of the
    bounds included. *)
Theorem InitPointInsertion_point_bounds l pts b0 b1 b2 b3 b4 b5 p :
  b0 == b1 -> b2 == b3 -> b4 == b5 ->
  let l' := fst (InitPointInsertion l (Some pts) [b0; b1; b2; b3; b4; b5]) in
  exists root,
    OctreeRootNode l' = Some root /\
    OctreeMaxDimSize l' == 0 /\ FudgeFactor l' == 0 /\
    ContainsPoint root p = false.
Proof.
  intros E0 E1 E2 l'. subst l'. rewrite InitPointInsertion_root.
  cbn [fst OctreeRootNode OctreeMaxDimSize FudgeFactor].
  eexists. split; [reflexivity|].
  destruct (init_root_box_formula (BuildCubicOctree l) b0 b1 b2 b3 b4 b5
              0%nat ltac:(lia))
    as (M & EM & M0 & M1 & M2 & M3 & Mor & Hc & Hn).
  assert (HM : M == 0) by (destruct Mor as [H|[H|[H|H]]]; lra).
  rewrite EM. unfold fudge_ratio.
  split; [exact HM|]. split; [rewrite HM; reflexivity|].
  apply not_true_iff_false. intros C. unfold ContainsPoint in C.
  apply in_half_open_iff in C. destruct C as (C0 & _).
  destruct (new_root_coords
              (init_root_box (BuildCubicOctree l) [b0; b1; b2; b3; b4; b5])
              0%nat ltac:(lia)) as [R0 R1].
  rewrite R0, R1 in C0.
  cbn [array_get nth Nat.mul Nat.add] in Hc, Hn.
  destruct (BuildCubicOctree l).
  - destruct (Hc eq_refl) as [H0 H1]. rewrite H0, H1 in C0. lra.
  - destruct (Hn eq_refl) as [H0 H1]. rewrite H0, H1 in C0.
    revert C0. qcases; lra.
Qed.

Lemma InitPointInsertion_point_bounds_witness :
  let l' := fst (InitPointInsertion (NewLocator (1 # 1000))
                   (Some [(1, 2, 3)]) [1; 1; 2; 2; 3; 3]) in
  exists root,
    OctreeRootNode l' = Some root /\
    OctreeMaxDimSize l' == 0 /\ FudgeFactor l' == 0 /\
    ContainsPoint root (1, 2, 3) = false.
Proof.
  apply (InitPointInsertion_point_bounds (NewLocator (1 # 1000))
           [(1, 2, 3)] 1 1 2 2 3 3 (1, 2, 3)); reflexivity.
Defined.

(** X6: with [BuildCubicOctree] set the root box is a cube: each side is
    the largest extent plus the fudge factor, and on each axis the
    middle of the box is the middle of the given bounds moved down by
    half the fudge factor. *)
Theorem InitPointInsertion_cubic_root l pts b0 b1 b2 b3 b4 b5 i :
  BuildCubicOctree l = true -> (i < 3)%nat ->
  let bounds := [b0; b1; b2; b3; b4; b5] in
  let l' := fst (InitPointInsertion l (Some pts) bounds) in
  exists root,
    OctreeRootNode l' = Some root /\
    extent (NodeGetBounds root) i
    == OctreeMaxDimSize l' + FudgeFactor l' /\
    coord (MinBounds root) i + coord (MaxBounds root) i
    == array_get bounds (2 * i) + array_get bounds (2 * i + 1)
       - FudgeFactor l'.
Proof.
  intros Hcub Hi bounds l'. subst l' bounds. rewrite InitPointInsertion_root.
  cbn [fst OctreeRootNode OctreeMaxDimSize FudgeFactor].
  eexists. split; [reflexivity|].
  destruct (init_root_box_formula (BuildCubicOctree l) b0 b1 b2 b3 b4 b5
              i Hi) as (M & EM & M0 & _ & _ & _ & _ & Hc & _).
  rewrite EM. unfold fudge_ratio.
  destruct (new_root_coords
              (init_root_box (BuildCubicOctree l) [b0; b1; b2; b3; b4; b5])
              i Hi) as [R0 R1].
  assert (Hext : extent (NodeGetBounds
                   (NewNodeWithBounds
                      (init_root_box (BuildCubicOctree l)
                         [b0; b1; b2; b3; b4; b5]))) i
                 = array_get (init_root_box (BuildCubicOctree l)
                                [b0; b1; b2; b3; b4; b5]) (2 * i + 1)
                   - array_get (init_root_box (BuildCubicOctree l)
                                  [b0; b1; b2; b3; b4; b5]) (2 * i)).
  { assert (Hi' : i = 0%nat \/ i = 1%nat \/ i = 2%nat) by lia.
    destruct Hi' as [-> | [-> | ->]]; reflexivity. }
  rewrite Hext, R0, R1. destruct (Hc Hcub) as [-> ->]. split; lra.
Qed.

Lemma InitPointInsertion_cubic_root_witness :
  let bounds := [0; 4; 0; 2; 0; 1] in
  let l' := fst (InitPointInsertion
                   {| FudgeFactor := 0; OctreeMaxDimSize := 0;
                      BuildCubicOctree := true; MaxPointsPerLeaf := 128;
                      InsertTolerance2 := 0; Tolerance := 0;
                      LocatorPoints := None; OctreeRootNode := None |}
                   (Some []) bounds) in
  exists root,
    OctreeRootNode l' = Some root /\
    extent (NodeGetBounds root) 1
    == OctreeMaxDimSize l' + FudgeFactor l' /\
    coord (MinBounds root) 1 + coord (MaxBounds root) 1
    == array_get bounds 2 + array_get bounds 3 - FudgeFactor l'.
Proof.
  apply (InitPointInsertion_cubic_root
           {| FudgeFactor := 0; OctreeMaxDimSize := 0;
              BuildCubicOctree := true; MaxPointsPerLeaf := 128;
              InsertTolerance2 := 0; Tolerance := 0;
              LocatorPoints := None; OctreeRootNode := None |}
           [] 0 4 0 2 0 1 1%nat).
  - reflexivity.
  - lia.
Defined.

(** ** Leaves *)

(** X7: on a well-formed octree [GetLeafContainer] returns a leaf of
    the octree for every point; for a point in the root's box that leaf
    contains the point, and it stores every id of the octree whose point
    lies in the leaf's box. *)
Theorem GetLeafContainer_holds_point pts root x :
  wf_node pts root = true ->
  let r := GetLeafContainer ([], root) x in
  node_at root (fst r) = Some (snd r) /\
  IsLeaf (snd r) = true /\
  (ContainsPoint root x = true ->
     ContainsPoint (snd r) x = true /\
     forall j, In j (ExportAllPointIds root) ->
               ContainsPoint (snd r) (GetPoint pts j) = true ->
               In j (ExportAllPointIds (snd r))).
Proof.
  intros W r.
  destruct (GetLeafContainer_root pts root x W) as (H1 & H2 & _).
  fold r in H1, H2. split; [exact H1|]. split; [exact H2|].
  intros C. unfold ContainsPoint in *.
  destruct (GetLeafContainer_from_box pts x root W C []) as (B1 & _ & B3).
  cbv zeta in B1, B3. split; [exact B1|].
  intros j Hj Cj. destruct (B3 j Hj) as [A|A]; [exact A|].
  unfold r, GetLeafContainer in Cj. cbn [fst snd] in Cj. congruence.
Qed.

Lemma GetLeafContainer_holds_point_witness :
  let r := GetLeafContainer ([], tie_root) tie_query in
  node_at tie_root (fst r) = Some (snd r) /\
  IsLeaf (snd r) = true /\
  (ContainsPoint tie_root tie_query = true ->
     ContainsPoint (snd r) tie_query = true /\
     forall j, In j (ExportAllPointIds tie_root) ->
               ContainsPoint (snd r) (GetPoint (the_points tie_locator) j)
               = true ->
               In j (ExportAllPointIds (snd r))).
Proof.
  apply (GetLeafContainer_holds_point (the_points tie_locator) tie_root
           tie_query).
  vm_compute. reflexivity.
Defined.

(** X8: [FindClosestPointInLeafNode] on a leaf without an id list, or
    with an empty one, returns -1 and leaves [SVTK_DOUBLE_MAX] in
    [*dist2]; otherwise it returns an id of the list at the least
    squared distance from the point and writes that distance. *)
Theorem FindClosestPointInLeafNode_least pts leafNode x :
  let ids := match PointIdSet leafNode with Some l => l | None => [] end in
  let r := FindClosestPointInLeafNode pts leafNode x in
  (ids = [] -> r = (SVTK_DOUBLE_MAX, (-1)%Z)) /\
  (ids <> [] ->
     In (snd r) ids /\
     fst r = Fin (Distance2BetweenPoints (GetPoint pts (snd r)) x) /\
     forall j, In j ids ->
       Distance2BetweenPoints (GetPoint pts (snd r)) x
       <= Distance2BetweenPoints (GetPoint pts j) x).
Proof.
  intros ids r.
  pose proof (FindClosestPointInLeafNode_spec pts leafNode x) as S.
  cbv zeta in S. fold ids r in S.
  destruct S as [[S1 S2]|S].
  - split; [intros _; exact S2|]. intros N. contradiction.
  - split; [|intros _; exact S].
    intros E. destruct S as (S1 & _). rewrite E in S1. destruct S1.
Qed.

Lemma FindClosestPointInLeafNode_least_witness :
  let leafNode := snd (GetLeafContainer ([], tie_root) tie_query) in
  let r := FindClosestPointInLeafNode (the_points tie_locator) leafNode
             tie_query in
  In (snd r) [1%Z; 2%Z] /\
  fst r = Fin (Distance2BetweenPoints
                 (GetPoint (the_points tie_locator) (snd r)) tie_query) /\
  forall j, In j [1%Z; 2%Z] ->
    Distance2BetweenPoints (GetPoint (the_points tie_locator) (snd r))
      tie_query
    <= Distance2BetweenPoints (GetPoint (the_points tie_locator) j)
         tie_query.
Proof.
  apply (FindClosestPointInLeafNode_least (the_points tie_locator)
           (snd (GetLeafContainer ([], tie_root) tie_query)) tie_query).
  vm_compute. discriminate.
Defined.

(** ** Closest points *)

(** X9: for a point in the root's box of a well-formed octree that
    holds points, [FindClosestInsertedPoint] returns a stored id at the
    least squared distance, the id that [FindClosestPoint] returns. *)
Theorem FindClosestInsertedPoint_inside_root l root x :
  OctreeRootNode l = Some root ->
  wf_node (the_points l) root = true ->
  NumberOfPoints root <> 0%Z ->
  ContainsPoint root x = true ->
  exists i,
    FindClosestInsertedPoint l x = Returns i /\
    FindClosestPoint l x = Returns (i, Fin (dist2 (the_points l) x i)) /\
    closest_id (the_points l) root x i.
Proof.
  intros Hr W Hne C.
  destruct (closest_inside_correct (the_points l) root x W Hne C)
    as (i & E & Hc).
  exists i. apply Z.eqb_neq in Hne.
  unfold FindClosestInsertedPoint, FindClosestPoint, BuildLocator.
  cbv zeta. rewrite Hr, Hne, C, E. cbn. auto.
Qed.

Lemma FindClosestInsertedPoint_inside_root_witness :
  exists i,
    FindClosestInsertedPoint tie_locator tie_query = Returns i /\
    FindClosestPoint tie_locator tie_query
    = Returns (i, Fin (dist2 (the_points tie_locator) tie_query i)) /\
    closest_id (the_points tie_locator) tie_root tie_query i.
Proof.
  apply (FindClosestInsertedPoint_inside_root tie_locator tie_root
           tie_query).
  - reflexivity.
  - vm_compute. reflexivity.
  - vm_compute. discriminate.
  - vm_compute. reflexivity.
Defined.

Lemma reach_unmasked j n p :
  In j (ExportAllPointIds n) -> reach None (p, n) j.
Proof.
  intros Hj.
  destruct (reach_or_masked None j n p Hj) as [H|(q & c & _ & H & _)];
    [exact H|discriminate].
Qed.

(** The sphere search without a mask node, started at [1.1 radius2]. *)
Lemma sphere_search_unmasked pts root x R2 :
  wf_node pts root = true ->
  exists m' i',
    FindClosestPointInSphereWithoutTolerance pts root x (Fin R2) None
    = Some (if dle m' (Fin R2) then i' else (-1)%Z, m') /\
    ((m' = Fin (R2 * (11 # 10)) /\ i' = (-1)%Z) \/
     (dlt m' (Fin (R2 * (11 # 10))) = true /\
      m' = Fin (dist2 pts x i') /\ In i' (ExportAllPointIds root))) /\
    forall j, In j (ExportAllPointIds root) ->
              dlt (Fin (dist2 pts x j)) m' = false.
Proof.
  intros W.
  unfold FindClosestPointInSphereWithoutTolerance, FindClosestPointInSphere.
  destruct (sphere_loop_spec pts root x (Fin R2) None RefIsMinDist2
              (node_count root) [([], root)] (dscale (Fin R2) (11 # 10))
              (-1)%Z (node_count_weight root))
    as (m' & i' & E & _ & R2' & R3).
  { constructor; [exact W|constructor]. }
  rewrite E. exists m', i'. split; [reflexivity|]. split.
  - destruct R2' as [A|(A & B & r & [<-|[]] & C)]; [left; exact A|].
    right. cbn [snd] in C. auto.
  - intros j Hj.
    destruct (R3 ([], root) j (or_introl eq_refl) (reach_unmasked j root [] Hj))
      as [A|[]].
    exact A.
Qed.

(** X10: on a well-formed octree and for a positive squared radius,
    [FindClosestPointWithinSquaredRadius] returns a stored id at the
    least squared distance, with that distance, when some stored point
    is within the radius, and -1 when none is. *)
Theorem FindClosestPointWithinSquaredRadius_finds l root R2 x :
  OctreeRootNode l = Some root ->
  wf_node (the_points l) root = true ->
  0 < R2 ->
  exists i d,
    FindClosestPointWithinSquaredRadius l R2 x = Returns (i, d) /\
    ((exists j, In j (ExportAllPointIds root) /\
                dist2 (the_points l) x j <= R2) ->
       closest_id (the_points l) root x i /\
       d = Fin (dist2 (the_points l) x i) /\
       dist2 (the_points l) x i <= R2) /\
    ((forall j, In j (ExportAllPointIds root) ->
                R2 < dist2 (the_points l) x j) ->
       i = (-1)%Z).
Proof.
  intros Hr W HR.
  unfold FindClosestPointWithinSquaredRadius, BuildLocator. cbv zeta.
  rewrite Hr.
  destruct (sphere_search_unmasked (the_points l) root x R2 W)
    as (m' & i' & E & Hor & Hall).
  rewrite E. cbn [finished]. eexists _, _. split; [reflexivity|]. split.
  - intros (j & Hj & Hd).
    pose proof (Hall j Hj) as Hm.
    destruct Hor as [[-> ->]|(A & B & C)].
    + apply dlt_Fin_false in Hm. lra.
    + rewrite B in Hm. apply dlt_Fin_false in Hm.
      assert (Hle : dist2 (the_points l) x i' <= R2) by lra.
      rewrite B. apply Qleb_le in Hle. cbn [dle]. rewrite Hle.
      apply Qleb_le in Hle.
      split; [|split; [reflexivity|exact Hle]].
      split; [exact C|]. intros j' Hj'.
      specialize (Hall j' Hj'). rewrite B in Hall.
      apply dlt_Fin_false in Hall. exact Hall.
  - intros Hfar. destruct Hor as [[-> ->]|(A & B & C)].
    + destruct (dle _ _); reflexivity.
    + specialize (Hfar i' C). rewrite B. cbn [dle].
      apply Qleb_nle in Hfar. rewrite Hfar. reflexivity.
Qed.

Lemma FindClosestPointWithinSquaredRadius_finds_witness :
  exists i d,
    FindClosestPointWithinSquaredRadius tie_locator (1 # 50) tie_query
    = Returns (i, d) /\
    ((exists j, In j (ExportAllPointIds tie_root) /\
                dist2 (the_points tie_locator) tie_query j <= 1 # 50) ->
       closest_id (the_points tie_locator) tie_root tie_query i /\
       d = Fin (dist2 (the_points tie_locator) tie_query i) /\
       dist2 (the_points tie_locator) tie_query i <= 1 # 50) /\
    ((forall j, In j (ExportAllPointIds tie_root) ->
                1 # 50 < dist2 (the_points tie_locator) tie_query j) ->
       i = (-1)%Z).
Proof.
  apply (FindClosestPointWithinSquaredRadius_finds tie_locator tie_root
           (1 # 50) tie_query).
  - reflexivity.
  - vm_compute. reflexivity.
  - reflexivity.
Defined.

(** X11: with a radius that is not positive the search loop of
    [FindClosestPointWithinSquaredRadius] is never entered: the result
    is -1 and [dist2] is [1.1 radius2], whatever the octree holds, a
    point at the query position included. *)
Theorem FindClosestPointWithinSquaredRadius_no_radius l R2 x :
  R2 <= 0 ->
  FindClosestPointWithinSquaredRadius l R2 x
  = Returns ((-1)%Z, Fin (R2 * (11 # 10))).
Proof.
  intros HR.
  assert (E : dlt (Fin 0) (dscale (Fin R2) (11 # 10)) = false).
  { cbn [dscale dlt]. apply Qltb_nlt. lra. }
  unfold FindClosestPointWithinSquaredRadius, BuildLocator. cbv zeta.
  destruct (OctreeRootNode l) as [root|].
  - unfold FindClosestPointInSphereWithoutTolerance,
      FindClosestPointInSphere.
    rewrite (node_count_unfold root). cbn [sphere_loop]. rewrite E.
    cbn [finished dscale]. destruct (dle _ _); reflexivity.
  - rewrite E. reflexivity.
Qed.

Lemma FindClosestPointWithinSquaredRadius_no_radius_witness :
  GetPoint (the_points tie_locator) 0 = (1 # 2, 1 # 4, 1 # 4) /\
  FindClosestPointWithinRadius tie_locator 0 (1 # 2, 1 # 4, 1 # 4)
  = Returns ((-1)%Z, Fin (0 * 0 * (11 # 10))).
Proof.
  split; [reflexivity|].
  apply (FindClosestPointWithinSquaredRadius_no_radius tie_locator (0 * 0)
           (1 # 2, 1 # 4, 1 # 4)).
  vm_compute. discriminate.
Defined.

(** ** Points within a radius *)

(** X12: on a well-formed octree [FindPointsWithinRadius] returns the
    stored ids whose squared distance is at most [R * R], in the order
    in which the octree exports its ids; a negative radius selects the
    same ids as its absolute value. *)
Theorem FindPointsWithinRadius_export_order l root R x :
  OctreeRootNode l = Some root ->
  wf_node (the_points l) root = true ->
  FindPointsWithinRadius l R x
  = Returns (filter (within (the_points l) x (R * R))
               (ExportAllPointIds root)) /\
  FindPointsWithinRadius l (- R) x = FindPointsWithinRadius l R x.
Proof.
  intros Hr W.
  unfold FindPointsWithinRadius, BuildLocator. cbv zeta. rewrite Hr.
  rewrite !(FindPointsWithinSquaredRadius_node_filter _ _ _ _ W).
  cbn [app]. split; [reflexivity|]. f_equal.
  apply filter_ext. intros a. unfold within.
  destruct (Qleb _ (R * R)) eqn:E.
  - apply Qleb_le in E. apply Qleb_le. lra.
  - apply Qleb_nle in E. apply Qleb_nle. lra.
Qed.

Lemma FindPointsWithinRadius_export_order_witness :
  FindPointsWithinRadius tie_locator (- (1 # 5)) tie_query
  = Returns (filter (within (the_points tie_locator) tie_query
                       (- (1 # 5) * - (1 # 5)))
               (ExportAllPointIds tie_root)) /\
  FindPointsWithinRadius tie_locator (- - (1 # 5)) tie_query
  = FindPointsWithinRadius tie_locator (- (1 # 5)) tie_query.
Proof.
  apply (FindPointsWithinRadius_export_order tie_locator tie_root
           (- (1 # 5)) tie_query).
  - reflexivity.
  - vm_compute. reflexivity.
Defined.

(** ** The K nearest points at the edges of N *)

Lemma kdist_dist2 pts x j : kdist pts x j == dist2 pts x j.
Proof. unfold kdist, dist2. apply Distance2_sym. Qed.

(** X13: when more ids are requested than the octree stores,
    [FindClosestNPoints] returns every stored id once, in ascending
    order of squared distance; a request for no ids or fewer returns
    nothing. *)
Theorem FindClosestNPoints_beyond_count l root N x :
  OctreeRootNode l = Some root ->
  wf_tree (the_points l) root = true ->
  (NumberOfPoints root < size_t_max)%Z ->
  ((NumberOfPoints root < N)%Z ->
     exists out,
       FindClosestNPoints l N x = Returns out /\
       Permutation out (ExportAllPointIds root) /\
       StronglySorted
         (fun i j => kdist (the_points l) x i <= kdist (the_points l) x j)
         out) /\
  ((N <= 0)%Z -> FindClosestNPoints l N x = Returns []).
Proof.
  intros Hr Wt Hsize. destruct (wf_tree_parts _ _ Wt) as [W ND].
  pose proof (ok_count _ _ (wf_node_ok _ _ W)) as Hc.
  unfold FindClosestNPoints, BuildLocator. cbv zeta. rewrite Hr. split.
  - intros HN. apply Z.ltb_lt in HN. rewrite HN.
    destruct (NumberOfPoints root <=? 0)%Z eqn:E0.
    + apply Z.leb_le in E0. exists []. split; [reflexivity|].
      assert (E : NumberOfPoints root = 0%Z) by lia.
      rewrite (ids_empty_count _ _ W E). split; constructor.
    + apply Z.leb_gt in E0.
      assert (HK : (1 <= NumberOfPoints root <= NumberOfPoints root)%Z)
        by lia.
      destruct (closest_n_spec (the_points l) root x _ HK W ND Hsize)
        as (start & leaves & s & E & Vs & St).
      destruct (knn_final_selection (the_points l) root x _ HK W ND
                  start leaves s Vs St) as (P1 & P2 & P3 & P4 & _).
      rewrite E. cbn [finished]. eexists. split; [reflexivity|].
      split; [|exact P4].
      apply NoDup_Permutation_bis; [exact P2| |exact P3]. lia.
  - intros HN.
    destruct (NumberOfPoints root <? N)%Z eqn:E1.
    + apply Z.ltb_lt in E1.
      destruct (NumberOfPoints root <=? 0)%Z eqn:E0; [reflexivity|].
      apply Z.leb_gt in E0. lia.
    + apply Z.leb_le in HN. rewrite HN. reflexivity.
Qed.

Lemma FindClosestNPoints_beyond_count_witness :
  ((NumberOfPoints tie_root < 7)%Z ->
     exists out,
       FindClosestNPoints tie_locator 7 tie_query = Returns out /\
       Permutation out (ExportAllPointIds tie_root) /\
       StronglySorted
         (fun i j => kdist (the_points tie_locator) tie_query i
                     <= kdist (the_points tie_locator) tie_query j)
         out) /\
  ((7 <= 0)%Z -> FindClosestNPoints tie_locator 7 tie_query = Returns []).
Proof.
  apply (FindClosestNPoints_beyond_count tie_locator tie_root 7 tie_query).
  - reflexivity.
  - vm_compute. reflexivity.
  - vm_compute. reflexivity.
Defined.

(** X14: on a well-formed octree that holds points,
    [FindClosestNPoints] with N = 1 returns one id, and it lies at the
    squared distance that [FindClosestPoint] reports. *)
Theorem FindClosestNPoints_one_is_closest l root x :
  OctreeRootNode l = Some root ->
  wf_tree (the_points l) root = true ->
  (1 <= NumberOfPoints root < size_t_max)%Z ->
  exists i i',
    FindClosestNPoints l 1 x = Returns [i] /\
    FindClosestPoint l x = Returns (i', Fin (dist2 (the_points l) x i')) /\
    closest_id (the_points l) root x i /\
    dist2 (the_points l) x i == dist2 (the_points l) x i'.
Proof.
  intros Hr Wt Hsize. destruct (wf_tree_parts _ _ Wt) as [W ND].
  assert (HK : (1 <= 1 <= NumberOfPoints root)%Z) by lia.
  destruct (closest_n_spec (the_points l) root x 1 HK W ND ltac:(lia))
    as (start & leaves & s & E & Vs & St).
  destruct (knn_final_selection (the_points l) root x 1 HK W ND
              start leaves s Vs St) as (P1 & P2 & P3 & P4 & P5 & _).
  destruct (Sorter.GetSortedIds s) as [|i [|i2 out]] eqn:Eo;
    try (cbn [length] in P1; lia).
  destruct (FindClosestPoint_correct l root x Hr W ltac:(lia))
    as (i' & E' & C1 & C2).
  assert (Hi : In i (ExportAllPointIds root)) by (apply P3; left; reflexivity).
  assert (Cl : closest_id (the_points l) root x i).
  { split; [exact Hi|]. intros j Hj.
    rewrite <- !kdist_dist2.
    destruct (Z.eq_dec j i) as [->|Hne]; [lra|].
    apply P5; [left; reflexivity|exact Hj|].
    intros [H|[]]. congruence. }
  exists i, i'. split.
  - unfold FindClosestNPoints, BuildLocator. cbv zeta. rewrite Hr.
    destruct (NumberOfPoints root <? 1)%Z eqn:E1;
      [apply Z.ltb_lt in E1; lia|].
    cbn [Z.leb Z.compare]. rewrite E. reflexivity.
  - split; [exact E'|]. split; [exact Cl|].
    pose proof (C2 i Hi). pose proof (proj2 Cl i' C1). lra.
Qed.

Lemma FindClosestNPoints_one_is_closest_witness :
  exists i i',
    FindClosestNPoints tie_locator 1 tie_query = Returns [i] /\
    FindClosestPoint tie_locator tie_query
    = Returns (i', Fin (dist2 (the_points tie_locator) tie_query i')) /\
    closest_id (the_points tie_locator) tie_root tie_query i /\
    dist2 (the_points tie_locator) tie_query i
    == dist2 (the_points tie_locator) tie_query i'.
Proof.
  apply (FindClosestNPoints_one_is_closest tie_locator tie_root tie_query).
  - reflexivity.
  - vm_compute. reflexivity.
  - vm_compute. split; [discriminate|reflexivity].
Defined.

(** ** Duplicates *)

Lemma find_duplicate_spec pts x ids :
  let r := find_duplicate pts x ids in
  (r = (-1)%Z /\ forall j, In j ids -> ~ same_coords x (GetPoint pts j)) \/
  (In r ids /\ same_coords x (GetPoint pts r)).
Proof.
  induction ids as [|a ids IH]; cbn [find_duplicate].
  - left. split; [reflexivity|]. intros j [].
  - cbv zeta.
    destruct (Qeqb (coord x 0) (coord (GetPoint pts a) 0)) eqn:E0;
      [destruct (Qeqb (coord x 1) (coord (GetPoint pts a) 1)) eqn:E1;
       [destruct (Qeqb (coord x 2) (coord (GetPoint pts a) 2)) eqn:E2|]|];
      cbn [andb].
    1: { right. split; [left; reflexivity|].
         apply Qeqb_eq in E0, E1, E2. repeat split; assumption. }
    all: cbv zeta in IH; destruct IH as [[I1 I2]|[I1 I2]];
      [left; split; [exact I1|]|right; split; [right; exact I1|exact I2]].
    all: intros j [<-|Hj]; [|apply I2; exact Hj].
    all: intros (S0 & S1 & S2).
    all: apply Qeqb_eq in S0, S1, S2; congruence.
Qed.

Lemma in_half_open_same lo hi p q :
  same_coords q p -> in_half_open lo hi p = true ->
  in_half_open lo hi q = true.
Proof.
  intros (S0 & S1 & S2) H. apply in_half_open_iff in H.
  apply in_half_open_iff. rewrite S0, S1, S2. exact H.
Qed.

(** With the zero tolerance the test reports a stored point with the
    coordinates of [x] when there is one, and -1 otherwise. *)
Lemma zero_tolerance_test pts root x :
  wf_node pts root = true ->
  let id := fst (IsInsertedPointForZeroTolerance pts root x) in
  (id = (-1)%Z /\
   forall j, In j (ExportAllPointIds root) ->
             ~ same_coords x (GetPoint pts j)) \/
  ((0 <= id)%Z /\ In id (ExportAllPointIds root) /\
   same_coords x (GetPoint pts id)).
Proof.
  intros W id. subst id. unfold IsInsertedPointForZeroTolerance.
  cbn [fst].
  destruct (GetLeafContainer_root pts root x W) as (_ & HL & Hincl).
  set (leaf := GetLeafContainer ([], root) x) in *.
  unfold FindDuplicatePointInLeafNode.
  pose proof (leaf_ids _ HL) as Eids.
  pose proof (find_duplicate_spec pts x (ExportAllPointIds (snd leaf))) as S.
  cbv zeta in S.
  assert (Efd : match PointIdSet (snd leaf) with
                | Some idList => find_duplicate pts x idList
                | None => (-1)%Z
                end = find_duplicate pts x (ExportAllPointIds (snd leaf))).
  { rewrite Eids. destruct (PointIdSet (snd leaf)); reflexivity. }
  rewrite Efd.
  destruct S as [[S1 S2]|[S1 S2]].
  - left. split; [exact S1|]. intros j Hj Hs.
    pose proof (ok_ids _ _ (wf_node_ok _ _ W) j Hj) as (_ & Hbox & _).
    pose proof (in_half_open_same _ _ _ _ Hs Hbox) as Hx.
    destruct (GetLeafContainer_from_box pts x root W Hx []) as (B1 & _ & B3).
    cbv zeta in B1, B3. fold (GetLeafContainer ([], root) x) in B1, B3.
    fold leaf in B1, B3.
    destruct (B3 j Hj) as [A|A].
    + apply (S2 j A Hs).
    + assert (Hs' : same_coords (GetPoint pts j) x).
      { destruct Hs as (S0' & S1' & S2'). repeat split; symmetry;
          assumption. }
      pose proof (in_half_open_same _ _ _ _ Hs' B1). congruence.
  - right. pose proof (Hincl _ S1) as Hr.
    split; [|split; [exact Hr|exact S2]].
    apply (ok_ids _ _ (wf_node_ok _ _ W) _ Hr).
Qed.

(** X15: with [InsertTolerance2] equal to 0 and a well-formed octree,
    [IsInsertedPoint] returns the id of a stored point with exactly the
    coordinates of [x] when the octree stores one, and -1 when it stores
    none. *)
Theorem IsInsertedPoint_zero_tolerance l root x :
  OctreeRootNode l = Some root ->
  wf_node (the_points l) root = true ->
  InsertTolerance2 l == 0 ->
  exists id,
    IsInsertedPoint l x = Returns id /\
    ((id = (-1)%Z /\
      forall j, In j (ExportAllPointIds root) ->
                ~ same_coords x (GetPoint (the_points l) j)) \/
     ((0 <= id)%Z /\ In id (ExportAllPointIds root) /\
      same_coords x (GetPoint (the_points l) id))).
Proof.
  intros Hr W Ht. unfold IsInsertedPoint. rewrite Hr.
  apply Qeqb_eq in Ht. rewrite Ht.
  eexists. split; [reflexivity|].
  apply (zero_tolerance_test (the_points l) root x W).
Qed.

Lemma IsInsertedPoint_zero_tolerance_witness :
  exists id,
    IsInsertedPoint exact_locator (3 # 10, 1 # 4, 1 # 4) = Returns id /\
    ((id = (-1)%Z /\
      forall j, In j (ExportAllPointIds tie_root) ->
                ~ same_coords (3 # 10, 1 # 4, 1 # 4)
                    (GetPoint (the_points exact_locator) j)) \/
     ((0 <= id)%Z /\ In id (ExportAllPointIds tie_root) /\
      same_coords (3 # 10, 1 # 4, 1 # 4)
        (GetPoint (the_points exact_locator) id))).
Proof.
  apply (IsInsertedPoint_zero_tolerance exact_locator tie_root
           (3 # 10, 1 # 4, 1 # 4)).
  - reflexivity.
  - vm_compute. reflexivity.
  - reflexivity.
Defined.

(** X16: when the octree stores a point with exactly the coordinates
    of [x] and the tolerance is 0, [InsertUniquePoint] returns 0 with
    the id of such a point and inserts nothing: the locator is as it
    was. *)
Theorem InsertUniquePoint_stored_coords l root x :
  OctreeRootNode l = Some root ->
  wf_node (the_points l) root = true ->
  InsertTolerance2 l == 0 ->
  (exists j, In j (ExportAllPointIds root) /\
             same_coords x (GetPoint (the_points l) j)) ->
  exists id,
    InsertUniquePoint l x = Returns (0%Z, id, l) /\
    In id (ExportAllPointIds root) /\
    same_coords x (GetPoint (the_points l) id).
Proof.
  intros Hr W Ht (j & Hj & Hs).
  unfold InsertUniquePoint, IsInsertedPoint. rewrite Hr.
  apply Qeqb_eq in Ht. rewrite Ht.
  destruct (zero_tolerance_test (the_points l) root x W)
    as [[_ H]|(H0 & H1 & H2)].
  - exfalso. apply (H j Hj Hs).
  - eexists. split; [|split; [exact H1|exact H2]].
    assert (H0' : (-1 <? fst (IsInsertedPointForZeroTolerance
                                (the_points l) root x))%Z = true)
      by (apply Z.ltb_lt; lia).
    rewrite H0'. reflexivity.
Qed.

Lemma InsertUniquePoint_stored_coords_witness :
  exists id,
    InsertUniquePoint exact_locator (3 # 10, 1 # 4, 1 # 4)
    = Returns (0%Z, id, exact_locator) /\
    In id (ExportAllPointIds tie_root) /\
    same_coords (3 # 10, 1 # 4, 1 # 4)
      (GetPoint (the_points exact_locator) id).
Proof.
  apply (InsertUniquePoint_stored_coords exact_locator tie_root
           (3 # 10, 1 # 4, 1 # 4)).
  - reflexivity.
  - vm_compute. reflexivity.
  - reflexivity.
  - exists 1%Z. split; [vm_compute; auto|].
    repeat split; reflexivity.
Defined.

(** ** The polygonal representation at level 0 *)

(** X17: at level 0 [GenerateRepresentation] writes the eight points
    and six quads of the root.  The corner [i] is read at
    [bounds[i & 1]], [bounds[i & 2]] and [bounds[i & 4]], so its y is
    the root's least x or least y and its z the root's least x or least
    z: the largest y and z of the root's box are not used. *)
Theorem GenerateRepresentation_root_corners l root :
  OctreeRootNode l = Some root ->
  let x0 := coord (MinBounds root) 0 in
  let x1 := coord (MaxBounds root) 0 in
  let y0 := coord (MinBounds root) 1 in
  let z0 := coord (MinBounds root) 2 in
  GenerateRepresentation l 0
  = Returns
      (Some ([(x0, x0, x0); (x1, x0, x0); (x0, y0, x0); (x1, y0, x0);
              (x0, x0, z0); (x1, x0, z0); (x0, y0, z0); (x1, y0, z0)],
             [[0; 1; 5; 4]; [0; 4; 6; 2]; [6; 7; 3; 2];
              [1; 3; 7; 5]; [2; 3; 1; 0]; [4; 5; 7; 6]]%Z)).
Proof.
  intros Hr. cbv zeta.
  rewrite (GenerateRepresentation_root l root Hr). reflexivity.
Qed.

Lemma GenerateRepresentation_root_corners_witness :
  let x0 := coord (MinBounds tie_root) 0 in
  let x1 := coord (MaxBounds tie_root) 0 in
  let y0 := coord (MinBounds tie_root) 1 in
  let z0 := coord (MinBounds tie_root) 2 in
  GenerateRepresentation tie_locator 0
  = Returns
      (Some ([(x0, x0, x0); (x1, x0, x0); (x0, y0, x0); (x1, y0, x0);
              (x0, x0, z0); (x1, x0, z0); (x0, y0, z0); (x1, y0, z0)],
             [[0; 1; 5; 4]; [0; 4; 6; 2]; [6; 7; 3; 2];
              [1; 3; 7; 5]; [2; 3; 1; 0]; [4; 5; 7; 6]]%Z)).
Proof.
  apply (GenerateRepresentation_root_corners tie_locator tie_root).
  reflexivity.
Defined.

(** ** An octree without points *)

Lemma Qeqb_refl a : Qeqb a a = true.
Proof. apply Qeqb_eq. reflexivity. Qed.

(** X18: right after [InitPointInsertion] the octree is an empty leaf,
    and every query answers that there is nothing, without reading a
    null pointer: no point is counted, the closest-point searches and
    the duplicate test return -1, and the lists of the K nearest points
    and of the points within a radius are empty. *)
Theorem queries_on_fresh_octree l pts bounds x N R2 :
  let l' := fst (InitPointInsertion l (Some pts) bounds) in
  GetNumberOfPoints l' = 0%Z /\
  FindClosestPoint l' x
  = Returns ((-1)%Z, Fin (OctreeMaxDimSize l' * OctreeMaxDimSize l' * 4)) /\
  FindClosestInsertedPoint l' x = Returns (-1)%Z /\
  FindClosestNPoints l' N x = Returns [] /\
  FindPointsWithinSquaredRadius l' R2 x = Returns [] /\
  FindClosestPointWithinSquaredRadius l' R2 x
  = Returns ((-1)%Z, Fin (R2 * (11 # 10))) /\
  IsInsertedPoint l' x = Returns (-1)%Z.
Proof.
  intros l'. subst l'. rewrite InitPointInsertion_root. cbn [fst].
  set (b := init_root_box (BuildCubicOctree l) bounds).
  split; [reflexivity|]. split; [reflexivity|]. split; [reflexivity|].
  split.
  { unfold FindClosestNPoints, BuildLocator. cbn [OctreeRootNode
      NewNodeWithBounds NumberOfPoints].
    destruct (0 <? N)%Z eqn:E; [reflexivity|].
    apply Z.ltb_ge in E. apply Z.leb_le in E. rewrite E. reflexivity. }
  split.
  { unfold FindPointsWithinSquaredRadius, BuildLocator.
    cbn [OctreeRootNode]. f_equal.
    unfold NewNodeWithBounds. cbn [FindPointsWithinSquaredRadius_node].
    destruct (radius_bounds _ x) as [o m].
    destruct (Qltb R2 o); [reflexivity|].
    destruct (Qleb m R2); reflexivity. }
  split.
  { unfold FindClosestPointWithinSquaredRadius, BuildLocator.
    cbn [OctreeRootNode].
    unfold FindClosestPointInSphereWithoutTolerance,
      FindClosestPointInSphere, NewNodeWithBounds.
    cbn [node_count fold_right sphere_loop dscale IsLeaf Children snd negb
         FindClosestPointInLeafNode PointIdSet].
    destruct (dlt (Fin 0) (Fin (R2 * (11 # 10)))).
    - cbn [dlt finished]. destruct (dle _ _); reflexivity.
    - cbn [finished]. destruct (dle _ _); reflexivity. }
  unfold IsInsertedPoint. cbn [OctreeRootNode InsertTolerance2].
  destruct (Qeqb (Tolerance l * Tolerance l) 0); [reflexivity|].
  unfold IsInsertedPointForNonZeroTolerance, NewNodeWithBounds.
  cbn [GetLeafContainer GetLeafContainer_from fst snd
       FindClosestPointInLeafNode PointIdSet deq InsertTolerance2].
  unfold GetDistance2ToInnerBoundary, inner_face. cbn [MinBounds MaxBounds].
  rewrite !Qeqb_refl. cbn [dmin dlt finished option_map fst dle].
  reflexivity.
Qed.

(** ** The radius search at the distance of the closest point *)

(** X19: on a well-formed octree that holds points, the squared
    distance that [FindClosestPoint] reports, used as the squared radius
    of [FindPointsWithinSquaredRadius], selects the id that
    [FindClosestPoint] returned, and every id selected lies at that
    distance. *)
Theorem closest_point_within_its_distance l root x :
  OctreeRootNode l = Some root ->
  wf_node (the_points l) root = true ->
  NumberOfPoints root <> 0%Z ->
  exists i d out,
    FindClosestPoint l x = Returns (i, Fin d) /\
    FindPointsWithinSquaredRadius l d x = Returns out /\
    In i out /\
    forall j, In j out -> dist2 (the_points l) x j == d.
Proof.
  intros Hr W Hne.
  destruct (FindClosestPoint_correct l root x Hr W Hne) as (i & E & C1 & C2).
  exists i, (dist2 (the_points l) x i). eexists.
  split; [exact E|].
  unfold FindPointsWithinSquaredRadius, BuildLocator. cbv zeta. rewrite Hr.
  rewrite (FindPointsWithinSquaredRadius_node_filter _ _ _ _ W).
  cbn [app]. split; [reflexivity|]. split.
  - apply filter_In. split; [exact C1|]. unfold within. apply Qleb_le.
    unfold dist2. lra.
  - intros j Hj. apply filter_In in Hj. destruct Hj as [Hj Hw].
    unfold within in Hw. apply Qleb_le in Hw. fold (dist2 (the_points l) x j) in Hw.
    pose proof (C2 j Hj). lra.
Qed.

Lemma closest_point_within_its_distance_witness :
  exists i d out,
    FindClosestPoint tie_locator tie_query = Returns (i, Fin d) /\
    FindPointsWithinSquaredRadius tie_locator d tie_query = Returns out /\
    In i out /\
    forall j, In j out -> dist2 (the_points tie_locator) tie_query j == d.
Proof.
  apply (closest_point_within_its_distance tie_locator tie_root tie_query).
  - reflexivity.
  - vm_compute. reflexivity.
  - vm_compute. discriminate.
Defined.

(** ** The duplicate test with a tolerance *)

(** The sphere search of the duplicate test: the reference distance is
    the squared tolerance and the leaf of the point is the mask node. *)
Lemma sphere_search_tolerance l pts root x T pL :
  wf_node pts root = true ->
  exists m' i',
    FindClosestPointInSphereWithTolerance l pts root x (Fin T) (Some pL)
    = Some (if dle m' (Fin T) then i' else (-1)%Z, m') /\
    ((m' = Fin (OctreeMaxDimSize l * OctreeMaxDimSize l * 4) /\
      i' = (-1)%Z) \/
     (dlt m' (Fin (OctreeMaxDimSize l * OctreeMaxDimSize l * 4)) = true /\
      m' = Fin (dist2 pts x i') /\ In i' (ExportAllPointIds root))) /\
    forall j, reach (Some pL) ([], root) j ->
              dlt (Fin (dist2 pts x j)) m' = false \/ T < dist2 pts x j.
Proof.
  intros W.
  unfold FindClosestPointInSphereWithTolerance, FindClosestPointInSphere.
  destruct (sphere_loop_spec pts root x (Fin T) (Some pL) (RefValue (Fin T))
              (node_count root) [([], root)]
              (Fin (OctreeMaxDimSize l * OctreeMaxDimSize l * 4))
              (-1)%Z (node_count_weight root))
    as (m' & i' & E & _ & R2' & R3).
  { constructor; [exact W|constructor]. }
  rewrite E. exists m', i'. split; [reflexivity|]. split.
  - destruct R2' as [A|(A & B & r & [<-|[]] & C)]; [left; exact A|].
    right. cbn [snd] in C. auto.
  - intros j Hj.
    destruct (R3 ([], root) j (or_introl eq_refl) Hj) as [A|A];
      [left; exact A|right].
    cbn [beyond_ref] in A. apply dlt_Fin in A. exact A.
Qed.

(** X20: with a positive [InsertTolerance2] and a well-formed octree,
    an id that [IsInsertedPoint] returns other than -1 is a stored id
    within the tolerance; and for a point in the root's box the answer
    is not -1 whenever some stored point lies at a squared distance
    below both the tolerance and [4 OctreeMaxDimSize^2], the start value
    of the sphere search. *)
Theorem IsInsertedPoint_within_tolerance l root x :
  OctreeRootNode l = Some root ->
  wf_node (the_points l) root = true ->
  0 < InsertTolerance2 l ->
  exists id,
    IsInsertedPoint l x = Returns id /\
    (id <> (-1)%Z ->
       In id (ExportAllPointIds root) /\
       dist2 (the_points l) x id <= InsertTolerance2 l) /\
    (ContainsPoint root x = true ->
     forall p, In p (ExportAllPointIds root) ->
       dist2 (the_points l) x p < InsertTolerance2 l ->
       dist2 (the_points l) x p
       < OctreeMaxDimSize l * OctreeMaxDimSize l * 4 ->
       id <> (-1)%Z).
Proof.
  intros Hr W HT.
  set (pts := the_points l) in *. set (T := InsertTolerance2 l) in *.
  set (M4 := OctreeMaxDimSize l * OctreeMaxDimSize l * 4).
  assert (Hz : Qeqb T 0 = false) by (apply not_true_iff_false;
    rewrite Qeqb_eq; lra).
  destruct (GetLeafContainer_root pts root x W) as (Hat & HL & Hincl).
  set (leaf := GetLeafContainer ([], root) x) in *.
  pose proof (FindClosestPointInLeafNode_spec pts (snd leaf) x) as LS.
  cbv zeta in LS. rewrite <- (leaf_ids _ HL) in LS.
  destruct (sphere_search_tolerance l pts root x T (fst leaf) W)
    as (m' & i' & Es & Hor & Hall).
  fold M4 in Hor.
  assert (Hpos : forall j, In j (ExportAllPointIds root) -> j <> (-1)%Z).
  { intros j Hj. pose proof (ok_ids _ _ (wf_node_ok _ _ W) j Hj). lia. }
  assert (Hsplit : forall j, In j (ExportAllPointIds root) ->
            reach (Some (fst leaf)) ([], root) j \/
            In j (ExportAllPointIds (snd leaf))).
  { intros j Hj.
    destruct (reach_or_masked (Some (fst leaf)) j root [] Hj)
      as [Hreach|(q & c & _ & Hq & Hc & Hjc)]; [left; exact Hreach|right].
    cbn [app] in Hq. injection Hq as Hq. rewrite <- Hq in Hc.
    rewrite Hat in Hc. injection Hc as ->. exact Hjc. }
  unfold IsInsertedPoint. rewrite Hr. fold T. rewrite Hz.
  unfold IsInsertedPointForNonZeroTolerance. fold leaf pts T.
  destruct (FindClosestPointInLeafNode pts (snd leaf) x) as [d0 i0].
  cbn [fst snd] in LS.
  (* what the leaf's answer is worth *)
  assert (Hleaf : forall v, d0 = Fin v ->
            In i0 (ExportAllPointIds root) /\ v = dist2 pts x i0 /\
            forall j, In j (ExportAllPointIds (snd leaf)) ->
                      v <= dist2 pts x j).
  { intros v Ev. destruct LS as [[_ LS]|(L1 & L2 & L3)].
    - rewrite Ev in LS. discriminate.
    - rewrite Ev in L2. injection L2 as L2.
      split; [apply Hincl; exact L1|]. split; [exact L2|].
      intros j Hj. rewrite L2. apply L3. exact Hj. }
  assert (Hans : forall (P : Z -> Prop),
            (forall v, d0 = Fin v -> v <= T -> P i0) ->
            (dle d0 (Fin T) = false -> P (-1)%Z) ->
            P (if dle d0 (Fin T) then i0 else (-1)%Z)).
  { intros P H1 H2. destruct (dle d0 (Fin T)) eqn:E; [|apply H2; reflexivity].
    destruct d0 as [v|]; [|discriminate].
    apply (H1 v eq_refl). apply dle_Fin in E. exact E. }
  destruct (deq d0 (Fin 0)) eqn:Ezero.
  { (* a point of the leaf at distance zero *)
    cbn [option_map finished fst]. exists i0. split; [reflexivity|].
    destruct d0 as [v|]; [|discriminate]. apply deq_Fin in Ezero.
    destruct (Hleaf v eq_refl) as (H1 & H2 & _).
    split; [intros _; split; [exact H1|rewrite <- H2; lra]|].
    intros _ p _ _ _. apply Hpos. exact H1. }
  destruct (dlt (GetDistance2ToInnerBoundary (snd leaf) x root) (Fin T))
    eqn:Einner.
  - (* the sphere search runs *)
    rewrite Es.
    assert (Hm : forall p, In p (ExportAllPointIds root) ->
              dist2 pts x p < T ->
              dlt (Fin (dist2 pts x p)) m' = false \/
              exists v, d0 = Fin v /\ v <= dist2 pts x p).
    { intros p Hp HpT. destruct (Hsplit p Hp) as [Hreach|Hin].
      - destruct (Hall p Hreach) as [A|A]; [left; exact A|lra].
      - right. destruct LS as [[LS _]|(L1 & L2 & L3)].
        + rewrite LS in Hin. destruct Hin.
        + eexists. split; [exact L2|]. apply L3. exact Hin. }
    destruct (dlt m' d0) eqn:Ecmp; cbn [option_map finished fst].
    + eexists. split; [reflexivity|]. split.
      * destruct (dle m' (Fin T)) eqn:Ele; [|intros N; contradiction].
        intros N.
        destruct Hor as [[_ ->]|(_ & B & C)]; [contradiction|].
        split; [exact C|]. rewrite B in Ele. apply dle_Fin in Ele. exact Ele.
      * intros _ p Hp HpT HpM.
        assert (Hlt : exists w, m' = Fin w /\ w <= dist2 pts x p).
        { destruct (Hm p Hp HpT) as [A|(v & Ev & Hv)].
          - destruct m' as [w|]; [|discriminate].
            exists w. split; [reflexivity|]. apply dlt_Fin_false in A.
            exact A.
          - rewrite Ev in Ecmp. destruct m' as [w|]; [|discriminate].
            exists w. split; [reflexivity|]. apply dlt_Fin in Ecmp. lra. }
        destruct Hlt as (w & -> & Hw).
        destruct Hor as [[Hinit _]|(_ & B & C)].
        { injection Hinit as ->. exfalso. apply (Qlt_irrefl M4).
          exact (Qle_lt_trans _ _ _ Hw HpM). }
        assert (Ele : dle (Fin w) (Fin T) = true) by (apply dle_Fin; lra).
        rewrite Ele. apply Hpos. exact C.
    + eexists. split; [reflexivity|]. split.
      * apply Hans.
        -- intros v Ev Hv _. destruct (Hleaf v Ev) as (H1 & H2 & _).
           split; [exact H1|rewrite <- H2; exact Hv].
        -- intros _ N. contradiction.
      * intros _ p Hp HpT HpM. apply Hans.
        -- intros v Ev _. apply Hpos. apply (Hleaf v Ev).
        -- intros Ele. exfalso.
           destruct (Hm p Hp HpT) as [A|(v & Ev & Hv)].
           ++ destruct m' as [w|]; [|discriminate].
              apply dlt_Fin_false in A.
              destruct d0 as [v|]; [|discriminate].
              apply dlt_Fin_false in Ecmp. apply dle_Fin_false in Ele. lra.
           ++ rewrite Ev in Ele. apply dle_Fin_false in Ele. lra.
  - (* the leaf alone decides *)
    cbn [option_map finished fst]. eexists. split; [reflexivity|]. split.
    + apply Hans.
      * intros v Ev Hv _. destruct (Hleaf v Ev) as (H1 & H2 & _).
        split; [exact H1|rewrite <- H2; exact Hv].
      * intros _ N. contradiction.
    + intros Cx p Hp HpT _.
      pose proof (GetLeafContainer_from_box pts x root W Cx [])
        as (Bx & _ & Bout).
      fold (GetLeafContainer ([], root) x) in Bx, Bout. fold leaf in Bx, Bout.
      assert (Hin : In p (ExportAllPointIds (snd leaf))).
      { destruct (Bout p Hp) as [A|A]; [exact A|exfalso].
        destruct (inner_boundary_lower_bound (snd leaf) root x
                    (GetPoint pts p) Bx) as (g & Eg & Hg); [|exact A|].
        - apply (ok_ids _ _ (wf_node_ok _ _ W) p Hp).
        - rewrite Eg in Einner. apply dlt_Fin_false in Einner.
          unfold dist2 in HpT. lra. }
      apply Hans.
      * intros v Ev _. apply Hpos. apply (Hleaf v Ev).
      * intros Ele. exfalso.
        destruct LS as [[LS _]|(L1 & L2 & L3)].
        -- rewrite LS in Hin. destruct Hin.
        -- rewrite L2 in Ele. apply dle_Fin_false in Ele.
           specialize (L3 p Hin). unfold dist2 in HpT. lra.
Qed.

Lemma IsInsertedPoint_within_tolerance_witness :
  exists id,
    IsInsertedPoint tie_locator (3 # 10, 1 # 4, 1 # 4) = Returns id /\
    (id <> (-1)%Z ->
       In id (ExportAllPointIds tie_root) /\
       dist2 (the_points tie_locator) (3 # 10, 1 # 4, 1 # 4) id
       <= InsertTolerance2 tie_locator) /\
    (ContainsPoint tie_root (3 # 10, 1 # 4, 1 # 4) = true ->
     forall p, In p (ExportAllPointIds tie_root) ->
       dist2 (the_points tie_locator) (3 # 10, 1 # 4, 1 # 4) p
       < InsertTolerance2 tie_locator ->
       dist2 (the_points tie_locator) (3 # 10, 1 # 4, 1 # 4) p
       < OctreeMaxDimSize tie_locator * OctreeMaxDimSize tie_locator * 4 ->
       id <> (-1)%Z).
Proof.
  apply (IsInsertedPoint_within_tolerance tie_locator tie_root
           (3 # 10, 1 # 4, 1 # 4)).
  - reflexivity.
  - vm_compute. reflexivity.
  - vm_compute. reflexivity.
Defined.

(** ** The K nearest points against a brute-force sort *)

Lemma insert_by_perm f i l : Permutation (insert_by f i l) (i :: l).
Proof.
  induction l as [|j l IH]; [reflexivity|].
  cbn [insert_by]. destruct (Qleb (f i) (f j)); [reflexivity|].
  rewrite IH. apply perm_swap.
Qed.

Lemma sort_by_perm f V : Permutation (sort_by f V) V.
Proof.
  induction V as [|i V IH]; [reflexivity|].
  cbn [sort_by fold_right]. fold (sort_by f V).
  rewrite insert_by_perm. apply perm_skip. exact IH.
Qed.

Lemma insert_by_sorted f i l :
  StronglySorted (fun a b => f a <= f b) l ->
  StronglySorted (fun a b => f a <= f b) (insert_by f i l).
Proof.
  induction l as [|j l IH]; intros S.
  - constructor; constructor.
  - cbn [insert_by]. destruct (Qleb (f i) (f j)) eqn:E.
    + apply Qleb_le in E. constructor; [exact S|].
      inversion S as [|? ? S1 F1]; subst.
      constructor; [exact E|].
      eapply Forall_impl; [|exact F1]. cbv beta. intros a Ha. lra.
    + apply Qleb_nle in E. inversion S as [|? ? S1 F1]; subst.
      constructor; [apply IH; exact S1|].
      apply Forall_forall. intros a Ha.
      apply (Permutation_in _ (insert_by_perm f i l)) in Ha.
      destruct Ha as [<-|Ha]; [lra|].
      rewrite Forall_forall in F1. apply F1. exact Ha.
Qed.

Lemma sort_by_sorted f V :
  StronglySorted (fun a b => f a <= f b) (sort_by f V).
Proof.
  induction V as [|i V IH]; [constructor|].
  cbn [sort_by fold_right]. apply insert_by_sorted. exact IH.
Qed.

Lemma sorted_nth f l :
  StronglySorted (fun a b => f a <= f b) l ->
  forall m n, (m <= n < length l)%nat -> f (nth m l 0%Z) <= f (nth n l 0%Z).
Proof.
  induction 1 as [|a l S IH F]; intros m n Hmn; [cbn in Hmn; lia|].
  destruct m as [|m], n as [|n]; cbn [nth length] in *; try lia.
  - lra.
  - rewrite Forall_forall in F. apply F. apply nth_In. lia.
  - apply IH. lia.
Qed.

(** The first [K] ids of a sorted arrangement of [V] are a selection. *)
Lemma sorted_prefix_selection f V L K :
  NoDup V -> Permutation L V ->
  StronglySorted (fun a b => f a <= f b) L ->
  selection f V (firstn K L).
Proof.
  intros ND P S.
  pose proof (firstn_skipn K L) as Split.
  rewrite <- Split in S.
  apply SorterExport.StronglySorted_app_inv in S. destruct S as [S1 S2].
  split.
  { apply (Permutation_NoDup (Permutation_sym P)) in ND.
    rewrite <- Split in ND. apply NoDup_app_remove_r in ND. exact ND. }
  split.
  { intros i Hi. apply (Permutation_in _ P). apply (firstn_In _ _ _ Hi). }
  split; [exact S1|].
  intros i j Hi Hj Hn. apply S2; [exact Hi|].
  apply (Permutation_in _ (Permutation_sym P)) in Hj.
  rewrite <- Split in Hj. apply in_app_or in Hj.
  destruct Hj as [Hj|Hj]; [contradiction|exact Hj].
Qed.

(** Two selections of the same length from the same ids have, place by
    place, the same keys. *)
Lemma selection_le f U A B n :
  selection f U A -> selection f U B ->
  length A = length B -> (n < length A)%nat ->
  f (nth n A 0%Z) <= f (nth n B 0%Z).
Proof.
  intros (NA & IA & SA & PA) (NB & IB & SB & PB) Hlen Hn.
  destruct (Qlt_le_dec (f (nth n B 0%Z)) (f (nth n A 0%Z))) as [Hlt|Hle];
    [exfalso|exact Hle].
  assert (Hincl : incl (firstn (S n) B) (firstn n A)).
  { intros b Hb.
    destruct (In_nth _ _ 0%Z Hb) as (k & Hk & Ek).
    rewrite length_firstn in Hk. rewrite nth_firstn in Ek.
    assert (Hkn : (k < S n)%nat) by lia.
    apply Nat.ltb_lt in Hkn. rewrite Hkn in Ek. apply Nat.ltb_lt in Hkn.
    assert (Hfb : f b <= f (nth n B 0%Z)).
    { rewrite <- Ek. apply (sorted_nth f B SB). lia. }
    assert (HbB : In b B) by (apply (firstn_In _ _ _ Hb)).
    assert (HbA : In b A).
    { destruct (in_dec Z.eq_dec b A) as [H|H]; [exact H|exfalso].
      pose proof (PA (nth n A 0%Z) b (nth_In _ _ Hn) (IB _ HbB) H). lra. }
    destruct (In_nth _ _ 0%Z HbA) as (m & Hm & Em).
    destruct (Nat.lt_ge_cases m n) as [Hmn|Hmn].
    - rewrite <- Em.
      assert (E : nth m (firstn n A) 0%Z = nth m A 0%Z).
      { rewrite nth_firstn. apply Nat.ltb_lt in Hmn. rewrite Hmn.
        reflexivity. }
      rewrite <- E. apply nth_In. rewrite length_firstn. lia.
    - exfalso.
      pose proof (sorted_nth f A SA n m ltac:(lia)) as H.
      rewrite Em in H. lra. }
  assert (ND : NoDup (firstn (S n) B)).
  { rewrite <- (firstn_skipn (S n) B) in NB.
    apply NoDup_app_remove_r in NB. exact NB. }
  pose proof (NoDup_incl_length ND Hincl) as Hc.
  rewrite !length_firstn in Hc. lia.
Qed.

Lemma selection_same_keys f U A B n :
  selection f U A -> selection f U B ->
  length A = length B -> (n < length A)%nat ->
  f (nth n A 0%Z) == f (nth n B 0%Z).
Proof.
  intros HA HB Hlen Hn.
  pose proof (selection_le f U A B n HA HB Hlen Hn).
  pose proof (selection_le f U B A n HB HA (eq_sym Hlen) ltac:(lia)).
  lra.
Qed.

Lemma all_ids_NoDup pts : NoDup (all_ids pts).
Proof.
  unfold all_ids. apply Finite.Injective_map_NoDup; [|apply seq_NoDup].
  intros a b H. apply Nat2Z.inj. exact H.
Qed.

Lemma sorted_by_equal_keys (f g : Z -> Q) l :
  (forall i, f i == g i) ->
  StronglySorted (fun a b => f a <= f b) l ->
  StronglySorted (fun a b => g a <= g b) l.
Proof.
  intros E. induction 1 as [|a l S IH F]; constructor; [exact IH|].
  eapply Forall_impl; [|exact F]. cbv beta. intros b Hb.
  rewrite <- (E a), <- (E b). exact Hb.
Qed.

(** X21: on a well-formed octree that stores every id of the
    container, for 1 <= K <= the number of points, the K ids that
    [FindClosestNPoints] returns lie, place by place, at the squared
    distances of the first K ids of the container sorted by squared
    distance. *)
Theorem FindClosestNPoints_matches_brute_force l root K x :
  OctreeRootNode l = Some root ->
  wf_tree (the_points l) root = true ->
  stores_all (the_points l) root ->
  (NumberOfPoints root < size_t_max)%Z ->
  (1 <= K <= NumberOfPoints root)%Z ->
  exists out,
    FindClosestNPoints l K x = Returns out /\
    Z.of_nat (length out) = K /\
    Z.of_nat (length (brute_force_nearest (the_points l) x K)) = K /\
    forall n, (n < length out)%nat ->
      dist2 (the_points l) x (nth n out 0%Z)
      == dist2 (the_points l) x
           (nth n (brute_force_nearest (the_points l) x K) 0%Z).
Proof.
  intros Hr Wt Hall Hsize HK.
  destruct (wf_tree_parts _ _ Wt) as [W ND].
  set (pts := the_points l) in *.
  destruct (closest_n_spec pts root x K HK W ND Hsize)
    as (start & leaves & s & E & Vs & St).
  destruct (knn_final_selection pts root x K HK W ND start leaves s Vs St)
    as (P1 & P2 & P3 & P4 & P5 & _).
  set (out := Sorter.GetSortedIds s) in *.
  assert (Hsame : forall j, In j (ExportAllPointIds root) <->
                            In j (all_ids pts)).
  { intros j. rewrite In_all_ids. split.
    - intros Hj. apply (ok_ids _ _ (wf_node_ok _ _ W) j Hj).
    - apply Hall. }
  assert (Hcount : length (all_ids pts) = length (ExportAllPointIds root)).
  { apply Nat.le_antisymm.
    - apply NoDup_incl_length; [apply all_ids_NoDup|].
      intros j Hj. apply Hsame. exact Hj.
    - apply NoDup_incl_length; [exact ND|].
      intros j Hj. apply Hsame. exact Hj. }
  pose proof (ok_count _ _ (wf_node_ok _ _ W)) as Hc.
  assert (SelOut : selection (dist2 pts x) (all_ids pts) out).
  { split; [exact P2|]. split.
    - intros j Hj. apply Hsame, P3, Hj.
    - split.
      + apply (sorted_by_equal_keys (kdist pts x)); [|exact P4].
        intros i. apply kdist_dist2.
      + intros i j Hi Hj Hn. rewrite <- !kdist_dist2.
        apply P5; [exact Hi|apply Hsame; exact Hj|exact Hn]. }
  assert (SelBf : selection (dist2 pts x) (all_ids pts)
                    (brute_force_nearest pts x K)).
  { apply sorted_prefix_selection;
      [apply all_ids_NoDup|apply sort_by_perm|apply sort_by_sorted]. }
  assert (Lbf : length (brute_force_nearest pts x K) = Z.to_nat K).
  { unfold brute_force_nearest. rewrite length_firstn.
    rewrite (Permutation_length (sort_by_perm _ _)). lia. }
  exists out. split.
  { unfold FindClosestNPoints, BuildLocator. cbv zeta. rewrite Hr.
    destruct (NumberOfPoints root <? K)%Z eqn:E1;
      [apply Z.ltb_lt in E1; lia|].
    destruct (K <=? 0)%Z eqn:E2; [apply Z.leb_le in E2; lia|].
    fold pts. rewrite E. reflexivity. }
  split; [exact P1|]. split; [lia|].
  intros n Hn.
  apply (selection_same_keys _ (all_ids pts)); try assumption. lia.
Qed.

Lemma FindClosestNPoints_matches_brute_force_witness :
  exists out,
    FindClosestNPoints tie_locator 2 tie_query = Returns out /\
    Z.of_nat (length out) = 2%Z /\
    Z.of_nat (length (brute_force_nearest (the_points tie_locator)
                        tie_query 2)) = 2%Z /\
    forall n, (n < length out)%nat ->
      dist2 (the_points tie_locator) tie_query (nth n out 0%Z)
      == dist2 (the_points tie_locator) tie_query
           (nth n (brute_force_nearest (the_points tie_locator)
                     tie_query 2) 0%Z).
Proof.
  apply (FindClosestNPoints_matches_brute_force tie_locator tie_root 2
           tie_query).
  - reflexivity.
  - vm_compute. reflexivity.
  - intros id H. cbn in H.
    assert (C : id = 0%Z \/ id = 1%Z \/ id = 2%Z) by lia.
    destruct C as [-> | [-> | ->]]; vm_compute; auto.
  - vm_compute. reflexivity.
  - vm_compute. split; discriminate.
Defined.
